(** * SeqQuests: the maximum spanning tree builder and the local aligner

    A shallow embedding of [c_src/tree_builder.cpp] (class
    [MaxSpanningTree] with its post-processing, [scan_for_max_node_id]
    and the input loop of [main]) and of [c_src/sw_align_core.cpp]
    ([align_local_core]), with the properties of the design document
    and further properties of the code proved over it.

    Conventions of the embedding.
    - A C++ [int] or [long long] is a [Z].  The three increments of the
      class ([search_id++], [links_processed++], ...) are undefined on
      overflow in C++; here they return the fault [IntOverflow].
    - A [std::vector<int>] is a [list Z].  [operator[]] outside the
      vector is undefined in C++; here it returns the fault
      [OutOfBounds].
    - [while (true)] of [find_meeting_point] is a loop on a fuel
      argument; running out of fuel is the fault [OutOfFuel] and stands
      for divergence.  The theorems show that the fault never occurs on
      the states a builder can reach.
    - A C [float] is an IEEE-754 binary32 number: [spec_float] with
      precision 24 and maximal exponent 128, rounding to nearest even,
      every operation rounded to binary32.
    - [std::sort] is a parameter of the post-processing functions.
      The theorems about them hold for every sorting function that
      keeps the promise of the C++ standard; what happens to elements
      that compare equal is shown on the [std::sort] of libstdc++,
      embedded from the headers of GCC 12.
    - In the driver a [std::string] is a [String.string]; the
      sequences of the aligner are lists of character codes.  What the
      driver prints on the console and the JSON writer are not
      modelled. *)

From Stdlib Require Import ZArith List Lia Bool Permutation Sorted Arith FinFun.
From Stdlib Require Import SpecFloat.
From Stdlib Require String Ascii.
Import ListNotations.
Import String.StringSyntax Ascii.AsciiSyntax.
Open Scope Z_scope.
Delimit Scope string_scope with string.
Delimit Scope char_scope with char.

(** ** Faults and the error monad *)

Inductive fault : Type :=
| OutOfBounds
| IntOverflow
| BadAlloc
| OutOfFuel.

Inductive res (A : Type) : Type :=
| Ok (a : A)
| Err (e : fault).

Arguments Ok {A} a.
Arguments Err {A} e.

Definition bind {A B : Type} (m : res A) (k : A -> res B) : res B :=
  match m with
  | Ok a => k a
  | Err e => Err e
  end.

Notation "x <- m ;; k" := (bind m (fun x => k))
  (at level 61, m at next level, right associativity).

(** ** Machine integers *)

Definition INT_MAX : Z := 2147483647.
Definition INT_MIN : Z := -2147483648.
Definition LLONG_MAX : Z := 9223372036854775807.

(** [x++] on an [int] and on a [long long]. *)
Definition incr_int (x : Z) : res Z :=
  if x <? INT_MAX then Ok (x + 1) else Err IntOverflow.

Definition incr_ll (x : Z) : res Z :=
  if x <? LLONG_MAX then Ok (x + 1) else Err IntOverflow.

(** [(int)s] for a [size_t] value [s], and the conversion of an [int]
    to [size_t] that [meeting_index < path.size()] performs. *)
Definition to_int (s : Z) : Z := (s + 2 ^ 31) mod 2 ^ 32 - 2 ^ 31.
Definition to_size_t (i : Z) : Z := i mod 2 ^ 64.

(** ** Vectors *)

Definition vsize (v : list Z) : Z := Z.of_nat (length v).

(** The element at an index known to be inside the vector. *)
Definition at_ (v : list Z) (i : Z) : Z := nth (Z.to_nat i) v 0.

Fixpoint upd (n : nat) (x : Z) (v : list Z) : list Z :=
  match v with
  | [] => []
  | y :: r =>
      match n with
      | O => x :: r
      | S n' => y :: upd n' x r
      end
  end.

Definition in_vec (v : list Z) (i : Z) : bool :=
  (0 <=? i) && (i <? vsize v).

(** [v[i]] as an rvalue and [v[i] = x]. *)
Definition vget (v : list Z) (i : Z) : res Z :=
  if in_vec v i then Ok (at_ v i) else Err OutOfBounds.

Definition vset (v : list Z) (i x : Z) : res (list Z) :=
  if in_vec v i then Ok (upd (Z.to_nat i) x v) else Err OutOfBounds.

(** [v.assign(n, x)] *)
Definition assign (n x : Z) : list Z := repeat x (Z.to_nat n).

(** ** The builder: [class MaxSpanningTree] *)

Record MaxSpanningTree : Type := mkTree {
  num_nodes : Z;
  max_seen_id : Z;
  parents : list Z;
  scores : list Z;
  raw_scores : list Z;
  locations : list Z;
  lengths : list Z;
  links_processed : Z;
  links_added : Z;
  links_rejected : Z;
  visited_a_indices : list Z;
  visited_b_indices : list Z;
  visited_a_search_ids : list Z;
  visited_b_search_ids : list Z;
  search_id : Z
}.

(** Field updates. *)
Definition with_links (t : MaxSpanningTree) (m : Z) (ps ss rs ls ns : list Z)
  : MaxSpanningTree :=
  mkTree (num_nodes t) m ps ss rs ls ns
         (links_processed t) (links_added t) (links_rejected t)
         (visited_a_indices t) (visited_b_indices t)
         (visited_a_search_ids t) (visited_b_search_ids t) (search_id t).

Definition with_max_seen_id (t : MaxSpanningTree) (m : Z) : MaxSpanningTree :=
  with_links t m (parents t) (scores t) (raw_scores t) (locations t) (lengths t).

Definition with_counters (t : MaxSpanningTree) (p a r : Z) : MaxSpanningTree :=
  mkTree (num_nodes t) (max_seen_id t) (parents t) (scores t) (raw_scores t)
         (locations t) (lengths t) p a r
         (visited_a_indices t) (visited_b_indices t)
         (visited_a_search_ids t) (visited_b_search_ids t) (search_id t).

Definition with_visited_a (t : MaxSpanningTree) (idx ids : list Z) : MaxSpanningTree :=
  mkTree (num_nodes t) (max_seen_id t) (parents t) (scores t) (raw_scores t)
         (locations t) (lengths t)
         (links_processed t) (links_added t) (links_rejected t)
         idx (visited_b_indices t) ids (visited_b_search_ids t) (search_id t).

Definition with_visited_b (t : MaxSpanningTree) (idx ids : list Z) : MaxSpanningTree :=
  mkTree (num_nodes t) (max_seen_id t) (parents t) (scores t) (raw_scores t)
         (locations t) (lengths t)
         (links_processed t) (links_added t) (links_rejected t)
         (visited_a_indices t) idx (visited_a_search_ids t) ids (search_id t).

Definition with_search_id (t : MaxSpanningTree) (s : Z) : MaxSpanningTree :=
  mkTree (num_nodes t) (max_seen_id t) (parents t) (scores t) (raw_scores t)
         (locations t) (lengths t)
         (links_processed t) (links_added t) (links_rejected t)
         (visited_a_indices t) (visited_b_indices t)
         (visited_a_search_ids t) (visited_b_search_ids t) s.

(** [MaxSpanningTree(int n)].  A negative [n] converts to a [size_t]
    that no vector can hold: [assign] throws. *)
Definition new_tree (n : Z) : res MaxSpanningTree :=
  if n <? 0 then Err BadAlloc
  else Ok (mkTree n 0 (assign n 0) (assign n (-1)) (assign n (-1))
                  (assign n (-1)) (assign n (-1)) 0 0 0
                  (assign n (-1)) (assign n (-1)) (assign n 0) (assign n 0) 0).

Definition set_link (t : MaxSpanningTree)
    (node_id parent score raw_score location len : Z) : res MaxSpanningTree :=
  ps <- vset (parents t) node_id parent ;;
  ss <- vset (scores t) node_id score ;;
  rs <- vset (raw_scores t) node_id raw_score ;;
  ls <- vset (locations t) node_id location ;;
  ns <- vset (lengths t) node_id len ;;
  let m1 := if max_seen_id t <? node_id then node_id else max_seen_id t in
  let m2 := if m1 <? parent then parent else m1 in
  Ok (with_links t m2 ps ss rs ls ns).

(** *** [find_meeting_point] *)

(** The local variables of the walk, with the builder whose visit
    stamps the walk writes. *)
Record walk : Type := mkWalk {
  w_tree : MaxSpanningTree;
  current_a : Z;
  current_b : Z;
  a_active : bool;
  b_active : bool;
  path_a : list Z;
  path_b : list Z
}.

(** What [find_meeting_point] hands back: [Meeting] for [return true]
    with [meeting_node] and the two paths, [NoMeeting] for
    [return false], where [meeting_node] is left unset. *)
Inductive meeting : Type :=
| Meeting (t : MaxSpanningTree) (meeting_node : Z) (pa pb : list Z)
| NoMeeting (t : MaxSpanningTree) (pa pb : list Z).

(** [path.resize(meeting_index)] under [meeting_index < path.size()]. *)
Definition trim (meeting_index : Z) (path : list Z) : list Z :=
  if to_size_t meeting_index <? vsize path
  then firstn (Z.to_nat meeting_index) path
  else path.

(** The [if (a_active) { ... }] block of one iteration. *)
Definition walk_a (w : walk) : res (walk + meeting) :=
  if a_active w then
    let t := w_tree w in
    stamp <- vget (visited_b_search_ids t) (current_a w) ;;
    if stamp =? search_id t then
      meeting_index <- vget (visited_b_indices t) (current_a w) ;;
      Ok (inr (Meeting t (current_a w) (path_a w) (trim meeting_index (path_b w))))
    else
      ids <- vset (visited_a_search_ids t) (current_a w) (search_id t) ;;
      idx <- vset (visited_a_indices t) (current_a w) (to_int (vsize (path_a w))) ;;
      let t' := with_visited_a t idx ids in
      if current_a w =? 0 then
        Ok (inl (mkWalk t' (current_a w) (current_b w) false (b_active w)
                        (path_a w) (path_b w)))
      else
        p <- vget (parents t') (current_a w) ;;
        Ok (inl (mkWalk t' p (current_b w) true (b_active w)
                        (path_a w ++ [current_a w]) (path_b w)))
  else Ok (inl w).

(** The [if (b_active) { ... }] block of one iteration. *)
Definition walk_b (w : walk) : res (walk + meeting) :=
  if b_active w then
    let t := w_tree w in
    stamp <- vget (visited_a_search_ids t) (current_b w) ;;
    if stamp =? search_id t then
      meeting_index <- vget (visited_a_indices t) (current_b w) ;;
      Ok (inr (Meeting t (current_b w) (trim meeting_index (path_a w)) (path_b w)))
    else
      ids <- vset (visited_b_search_ids t) (current_b w) (search_id t) ;;
      idx <- vset (visited_b_indices t) (current_b w) (to_int (vsize (path_b w))) ;;
      let t' := with_visited_b t idx ids in
      if current_b w =? 0 then
        Ok (inl (mkWalk t' (current_a w) (current_b w) (a_active w) false
                        (path_a w) (path_b w)))
      else
        p <- vget (parents t') (current_b w) ;;
        Ok (inl (mkWalk t' (current_a w) p (a_active w) true
                        (path_a w) (path_b w ++ [current_b w])))
  else Ok (inl w).

(** [while (true) { ... }] *)
Fixpoint walk_loop (fuel : nat) (w : walk) : res meeting :=
  match fuel with
  | O => Err OutOfFuel
  | S fuel' =>
      ra <- walk_a w ;;
      match ra with
      | inr r => Ok r
      | inl w1 =>
          rb <- walk_b w1 ;;
          match rb with
          | inr r => Ok r
          | inl w2 =>
              if negb (a_active w2) && negb (b_active w2)
              then Ok (NoMeeting (w_tree w2) (path_a w2) (path_b w2))
              else walk_loop fuel' w2
          end
      end
  end.

Definition find_meeting_point (fuel : nat) (t : MaxSpanningTree) (node_a node_b : Z)
  : res meeting :=
  sid <- incr_int (search_id t) ;;
  walk_loop fuel (mkWalk (with_search_id t sid) node_a node_b true true [] []).

(** *** [find_weakest_link_in_cycle] *)

(** [which_path]: ['a'], ['b'] or ['n']. *)
Inductive which : Type := path_A | path_B | path_new.

Record weakest : Type := mkWeakest {
  min_score : Z;
  which_path : which;
  position : Z
}.

(** One of the two [for] loops: [i] is the loop index, [tag] the value
    written to [which_path]. *)
Fixpoint scan_path (t : MaxSpanningTree) (tag : which) (path : list Z) (i : Z)
    (acc : weakest) : res weakest :=
  match path with
  | [] => Ok acc
  | node_id :: rest =>
      link_score <- vget (scores t) node_id ;;
      scan_path t tag rest (i + 1)
        (if link_score <? min_score acc
         then mkWeakest link_score tag (to_int i)
         else acc)
  end.

Definition find_weakest_link_in_cycle (t : MaxSpanningTree) (pa pb : list Z)
    (new_score : Z) : res weakest :=
  wa <- scan_path t path_A pa 0 (mkWeakest new_score path_new (-1)) ;;
  scan_path t path_B pb 0 wa.

(** *** [reverse_path] *)

(** The [for (int i = up_to_index; i > 0; i--)] loop, [i] counting down. *)
Fixpoint reverse_loop (t : MaxSpanningTree) (path : list Z) (i : nat)
  : res MaxSpanningTree :=
  match i with
  | O => Ok t
  | S i' =>
      current_node_id <- vget path (Z.of_nat i) ;;
      prev_node_id <- vget path (Z.of_nat i - 1) ;;
      s <- vget (scores t) prev_node_id ;;
      r <- vget (raw_scores t) prev_node_id ;;
      l <- vget (locations t) prev_node_id ;;
      n <- vget (lengths t) prev_node_id ;;
      t' <- set_link t current_node_id prev_node_id s r l n ;;
      reverse_loop t' path i'
  end.

Definition reverse_path (t : MaxSpanningTree) (path : list Z) (up_to_index : Z)
  : res MaxSpanningTree :=
  t' <- reverse_loop t path (Z.to_nat up_to_index) ;;
  start_node_id <- vget path 0 ;;
  set_link t' start_node_id start_node_id (-1) (-1) (-1) (-1).

(** *** [add_link] *)

Definition add_link (fuel : nat) (t : MaxSpanningTree)
    (node_a node_b score raw_score location len : Z)
  : res (MaxSpanningTree * bool) :=
  lp <- incr_ll (links_processed t) ;;
  let t := with_counters t lp (links_added t) (links_rejected t) in
  let t := if max_seen_id t <? node_a then with_max_seen_id t node_a else t in
  let t := if max_seen_id t <? node_b then with_max_seen_id t node_b else t in
  if node_a =? node_b then Ok (t, false)
  else
    m <- find_meeting_point fuel t node_a node_b ;;
    match m with
    | NoMeeting t _ _ => Ok (t, false)
    | Meeting t meeting_node pa pb =>
        wk <- find_weakest_link_in_cycle t pa pb score ;;
        match which_path wk with
        | path_new =>
            lr <- incr_ll (links_rejected t) ;;
            Ok (with_counters t (links_processed t) (links_added t) lr, false)
        | path_A =>
            t <- reverse_path t pa (position wk) ;;
            t <- set_link t node_a node_b score raw_score location len ;;
            la <- incr_ll (links_added t) ;;
            Ok (with_counters t (links_processed t) la (links_rejected t), true)
        | path_B =>
            t <- reverse_path t pb (position wk) ;;
            t <- set_link t node_b node_a score raw_score location len ;;
            la <- incr_ll (links_added t) ;;
            Ok (with_counters t (links_processed t) la (links_rejected t), true)
        end
    end.

(** ** Reasoning about the error monad and the vectors *)

Lemma bind_ok {A B : Type} (m : res A) (k : A -> res B) (r : B) :
  bind m k = Ok r -> exists a, m = Ok a /\ k a = Ok r.
Proof.
  destruct m as [a|e]; simpl; intros H; [exists a; auto | discriminate].
Qed.

Ltac inv_bind H :=
  let a := fresh "x" in
  let Ha := fresh "E" in
  apply bind_ok in H; destruct H as [a [Ha H]].

Lemma in_vec_true (v : list Z) (i : Z) :
  in_vec v i = true <-> 0 <= i < vsize v.
Proof. unfold in_vec. rewrite andb_true_iff, Z.leb_le, Z.ltb_lt. tauto. Qed.

Lemma vget_ok (v : list Z) (i : Z) :
  0 <= i < vsize v -> vget v i = Ok (at_ v i).
Proof.
  intros H. unfold vget. apply in_vec_true in H. rewrite H. reflexivity.
Qed.

Lemma vget_inv (v : list Z) (i x : Z) :
  vget v i = Ok x -> 0 <= i < vsize v /\ x = at_ v i.
Proof.
  unfold vget. destruct (in_vec v i) eqn:E; intros H; inversion H.
  apply in_vec_true in E. auto.
Qed.

Lemma vset_ok (v : list Z) (i x : Z) :
  0 <= i < vsize v -> vset v i x = Ok (upd (Z.to_nat i) x v).
Proof.
  intros H. unfold vset. apply in_vec_true in H. rewrite H. reflexivity.
Qed.

Lemma vset_inv (v : list Z) (i x : Z) (v' : list Z) :
  vset v i x = Ok v' -> 0 <= i < vsize v /\ v' = upd (Z.to_nat i) x v.
Proof.
  unfold vset. destruct (in_vec v i) eqn:E; intros H; inversion H.
  apply in_vec_true in E. auto.
Qed.

Lemma length_upd (n : nat) (x : Z) (v : list Z) : length (upd n x v) = length v.
Proof.
  revert n. induction v as [|y r IH]; intros [|n]; simpl; auto.
Qed.

Lemma vsize_upd (n : nat) (x : Z) (v : list Z) : vsize (upd n x v) = vsize v.
Proof. unfold vsize. now rewrite length_upd. Qed.

Lemma nth_upd_same (n : nat) (x : Z) (v : list Z) :
  (n < length v)%nat -> nth n (upd n x v) 0 = x.
Proof.
  revert n. induction v as [|y r IH]; intros [|n] H; simpl in *; try lia; auto.
  apply IH. lia.
Qed.

Lemma nth_upd_other (n m : nat) (x : Z) (v : list Z) :
  n <> m -> nth m (upd n x v) 0 = nth m v 0.
Proof.
  revert n m. induction v as [|y r IH]; intros [|n] [|m] H; simpl; auto; try lia.
Qed.

Lemma at_upd_same (v : list Z) (i x : Z) :
  0 <= i < vsize v -> at_ (upd (Z.to_nat i) x v) i = x.
Proof.
  intros H. unfold at_. apply nth_upd_same. unfold vsize in H. lia.
Qed.

Lemma at_upd_other (v : list Z) (i j x : Z) :
  0 <= i -> 0 <= j -> i <> j -> at_ (upd (Z.to_nat i) x v) j = at_ v j.
Proof.
  intros Hi Hj H. unfold at_. apply nth_upd_other. lia.
Qed.

Lemma at_upd (v : list Z) (i j x : Z) :
  0 <= i < vsize v -> 0 <= j ->
  at_ (upd (Z.to_nat i) x v) j = if j =? i then x else at_ v j.
Proof.
  intros Hi Hj. destruct (Z.eqb_spec j i) as [->|Hne].
  - now apply at_upd_same.
  - apply at_upd_other; lia.
Qed.

Lemma vsize_assign (n x : Z) : 0 <= n -> vsize (assign n x) = n.
Proof. intros H. unfold vsize, assign. rewrite repeat_length. lia. Qed.

Lemma at_assign (n x i : Z) : 0 <= i < n -> at_ (assign n x) i = x.
Proof.
  intros H. unfold at_, assign.
  apply nth_repeat_lt. lia.
Qed.

Lemma to_int_small (s : Z) : 0 <= s <= INT_MAX -> to_int s = s.
Proof.
  unfold to_int, INT_MAX. intros H.
  rewrite Z.mod_small; lia.
Qed.

Lemma to_size_t_small (i : Z) : 0 <= i <= INT_MAX -> to_size_t i = i.
Proof.
  unfold to_size_t, INT_MAX. intros H. apply Z.mod_small. lia.
Qed.

(** ** Walking up the parent pointers *)

(** [up p k v]: the node reached from [v] by [k] steps [v -> p v]. *)
Fixpoint up (p : Z -> Z) (k : nat) (v : Z) : Z :=
  match k with
  | O => v
  | S k' => p (up p k' v)
  end.

(** [chain p v k]: the first [k] nodes of the walk from [v]. *)
Definition chain (p : Z -> Z) (v : Z) (k : nat) : list Z :=
  map (fun i => up p i v) (seq 0 k).

Lemma up_S_r (p : Z -> Z) (k : nat) (v : Z) : up p (S k) v = up p k (p v).
Proof. induction k as [|k IH]; simpl in *; congruence. Qed.

Lemma up_add (p : Z -> Z) (i j : nat) (v : Z) :
  up p (i + j) v = up p i (up p j v).
Proof. induction i as [|i IH]; simpl; congruence. Qed.

Lemma up_fix (p : Z -> Z) (k : nat) (v : Z) : p v = v -> up p k v = v.
Proof. intros H. induction k as [|k IH]; simpl; congruence. Qed.

Lemma up_zero_ge (p : Z -> Z) (k n : nat) (v : Z) :
  p 0 = 0 -> up p k v = 0 -> (k <= n)%nat -> up p n v = 0.
Proof.
  intros H0 Hk Hle. replace n with ((n - k) + k)%nat by lia.
  rewrite up_add, Hk. now apply up_fix.
Qed.

Lemma chain_length (p : Z -> Z) (v : Z) (k : nat) : length (chain p v k) = k.
Proof. unfold chain. now rewrite length_map, length_seq. Qed.

Lemma chain_S (p : Z -> Z) (v : Z) (k : nat) :
  chain p v (S k) = chain p v k ++ [up p k v].
Proof. unfold chain. rewrite seq_S, map_app. reflexivity. Qed.

Lemma chain_In (p : Z -> Z) (v : Z) (k : nat) (x : Z) :
  In x (chain p v k) <-> exists i, (i < k)%nat /\ x = up p i v.
Proof.
  unfold chain. rewrite in_map_iff. split.
  - intros [i [H1 H2]]. apply in_seq in H2. exists i. split; [lia | auto].
  - intros [i [H1 H2]]. exists i. split; [auto | apply in_seq; lia].
Qed.

Lemma chain_nth (p : Z -> Z) (v : Z) (k i : nat) :
  (i < k)%nat -> nth i (chain p v k) 0 = up p i v.
Proof.
  intros H. unfold chain.
  rewrite nth_indep with (d' := up p 0 v) by (now rewrite length_map, length_seq).
  rewrite (map_nth (fun i => up p i v) (seq 0 k) O i), seq_nth; auto.
Qed.

Lemma chain_firstn (p : Z -> Z) (v : Z) (k j : nat) :
  (j <= k)%nat -> firstn j (chain p v k) = chain p v j.
Proof.
  intros H. unfold chain.
  replace k with (j + (k - j))%nat by lia.
  rewrite seq_app, map_app, firstn_app, length_map, length_seq.
  rewrite Nat.sub_diag, firstn_all2 by (rewrite length_map, length_seq; lia).
  simpl. now rewrite app_nil_r.
Qed.

Lemma chain_at (p : Z -> Z) (v : Z) (k : nat) (i : Z) :
  0 <= i < Z.of_nat k -> at_ (chain p v k) i = up p (Z.to_nat i) v.
Proof. intros H. unfold at_. apply chain_nth. lia. Qed.

(** ** The parent forest *)

(** The two arrays the invariants speak of, read as functions. *)
Definition par (t : MaxSpanningTree) (v : Z) : Z := at_ (parents t) v.
Definition sc (t : MaxSpanningTree) (v : Z) : Z := at_ (scores t) v.

(** [p] is a forest over the ids [0 .. N-1] rooted at the sentinel [0]:
    the walk from every node arrives at [0]. *)
Record forest (N : Z) (p : Z -> Z) : Prop := mkForest {
  forest_root : p 0 = 0;
  forest_closed : forall v, 0 <= v < N -> 0 <= p v < N;
  forest_reach : forall v, 0 <= v < N -> exists k, up p k v = 0
}.

Section Forest.
Variables (N : Z) (p : Z -> Z).
Hypothesis F : forest N p.

Lemma up_range (k : nat) (v : Z) : 0 <= v < N -> 0 <= up p k v < N.
Proof.
  intros H. induction k as [|k IH]; simpl; auto.
  now apply (forest_closed N p F).
Qed.

Lemma up_cycle (u : Z) (m n : nat) : up p m u = u -> up p (n * m) u = u.
Proof.
  intros H. induction n as [|n IH]; simpl; auto.
  rewrite Nat.add_comm, up_add. congruence.
Qed.

(** No nonzero node lies on a cycle. *)
Lemma forest_acyclic (v : Z) (i j : nat) :
  0 <= v < N -> (i < j)%nat -> up p i v = up p j v -> up p i v = 0.
Proof.
  intros Hv Hij E.
  destruct (forest_reach N p F v Hv) as [k Hk].
  set (u := up p i v) in *.
  assert (C : up p (j - i) u = u).
  { unfold u. rewrite <- up_add. replace (j - i + i)%nat with j by lia. auto. }
  assert (Z0 : up p (S k * (j - i)) u = 0).
  { unfold u. rewrite <- up_add.
    apply up_zero_ge with (k := k); auto.
    - apply (forest_root N p F).
    - assert (1 <= j - i)%nat by lia. nia. }
  rewrite up_cycle in Z0; auto.
Qed.

Lemma forest_no_self (v : Z) : 0 <= v < N -> p v = v -> v = 0.
Proof.
  intros Hv E. apply (forest_acyclic v 0 1 Hv); simpl; auto.
Qed.

Lemma first_zero (v : Z) (k : nat) :
  (forall i, (i < k)%nat -> up p i v <> 0) \/
  (exists d, (d < k)%nat /\ up p d v = 0 /\ forall i, (i < d)%nat -> up p i v <> 0).
Proof.
  induction k as [|k [IH|IH]].
  - left. intros i Hi. lia.
  - destruct (Z.eq_dec (up p k v) 0) as [E|E].
    + right. exists k. auto.
    + left. intros i Hi. destruct (Nat.eq_dec i k) as [->|Hne]; auto.
      apply IH. lia.
  - right. destruct IH as [d [H1 H2]]. exists d. split; [lia | auto].
Qed.

Lemma chain_NoDup (v : Z) (d : nat) :
  0 <= v < N -> (forall i, (i < d)%nat -> up p i v <> 0) -> NoDup (chain p v d).
Proof.
  intros Hv Hnz. apply NoDup_nth with (d := 0).
  intros i j Hi Hj E. rewrite chain_length in Hi, Hj.
  rewrite !chain_nth in E by auto.
  destruct (Nat.lt_trichotomy i j) as [L|[L|L]]; auto; exfalso.
  - apply (Hnz i Hi). now apply (forest_acyclic v i j).
  - apply (Hnz j Hj). now apply (forest_acyclic v j i).
Qed.

Lemma NoDup_range_length (l : list Z) :
  NoDup l -> (forall x, In x l -> 1 <= x < N) -> Z.of_nat (length l) < Z.max N 1.
Proof.
  intros ND R.
  assert (I : incl l (map Z.of_nat (seq 1 (Z.to_nat (N - 1))))).
  { intros x Hx. apply R in Hx. apply in_map_iff. exists (Z.to_nat x).
    split; [lia | apply in_seq; lia]. }
  apply NoDup_incl_length in I; auto.
  rewrite length_map, length_seq in I. lia.
Qed.

(** The walk from [v] has no more nonzero nodes than there are ids. *)
Lemma chain_short (v : Z) (d : nat) :
  0 <= v < N -> (forall i, (i < d)%nat -> up p i v <> 0) -> Z.of_nat d < N.
Proof.
  intros Hv Hnz.
  assert (L := NoDup_range_length (chain p v d) (chain_NoDup v d Hv Hnz)).
  rewrite chain_length in L.
  assert (Z.of_nat d < Z.max N 1); [apply L | lia].
  intros x Hx. apply chain_In in Hx. destruct Hx as [i [Hi ->]].
  specialize (Hnz i Hi). pose proof (up_range i v Hv). lia.
Qed.

(** The depth of a node: the walk arrives at [0] in fewer than [N] steps. *)
Lemma depth_exists (v : Z) :
  0 <= v < N ->
  exists d, up p d v = 0 /\ (forall i, (i < d)%nat -> up p i v <> 0) /\ Z.of_nat d < N.
Proof.
  intros Hv. destruct (forest_reach N p F v Hv) as [k Hk].
  destruct (first_zero v (S k)) as [H|[d [H1 [H2 H3]]]].
  - exfalso. apply (H k); auto.
  - exists d. repeat split; auto. now apply chain_short with (v := v).
Qed.
End Forest.

(** ** [find_meeting_point] meets at the lowest common ancestor *)

(** Everything of the builder but the four visit arrays. *)
Definition same_core (t0 t : MaxSpanningTree) : Prop :=
  num_nodes t = num_nodes t0 /\ max_seen_id t = max_seen_id t0 /\
  parents t = parents t0 /\ scores t = scores t0 /\
  raw_scores t = raw_scores t0 /\ locations t = locations t0 /\
  lengths t = lengths t0 /\ links_processed t = links_processed t0 /\
  links_added t = links_added t0 /\ links_rejected t = links_rejected t0 /\
  search_id t = search_id t0.

(** The two sides of the walk are mirror images: exchanging the roles
    of [a] and [b] turns [walk_b] into [walk_a]. *)
Definition swap_tree (t : MaxSpanningTree) : MaxSpanningTree :=
  mkTree (num_nodes t) (max_seen_id t) (parents t) (scores t) (raw_scores t)
         (locations t) (lengths t)
         (links_processed t) (links_added t) (links_rejected t)
         (visited_b_indices t) (visited_a_indices t)
         (visited_b_search_ids t) (visited_a_search_ids t) (search_id t).

Definition swap_walk (w : walk) : walk :=
  mkWalk (swap_tree (w_tree w)) (current_b w) (current_a w)
         (b_active w) (a_active w) (path_b w) (path_a w).

Definition swap_meeting (m : meeting) : meeting :=
  match m with
  | Meeting t c pa pb => Meeting (swap_tree t) c pb pa
  | NoMeeting t pa pb => NoMeeting (swap_tree t) pb pa
  end.

Definition swap_step (r : walk + meeting) : walk + meeting :=
  match r with
  | inl w => inl (swap_walk w)
  | inr m => inr (swap_meeting m)
  end.

Lemma walk_b_swap (w : walk) :
  walk_b w = (r <- walk_a (swap_walk w) ;; Ok (swap_step r)).
Proof.
  destruct w as [t ca cb aa ba pa pb]. destruct t.
  unfold walk_b, walk_a. simpl.
  destruct ba; simpl; [|reflexivity].
  destruct (vget visited_a_search_ids0 cb) as [st|]; simpl; [|reflexivity].
  destruct (st =? search_id0).
  - destruct (vget visited_a_indices0 cb); reflexivity.
  - destruct (vset visited_b_search_ids0 cb search_id0); simpl; [|reflexivity].
    destruct (vset visited_b_indices0 cb _); simpl; [|reflexivity].
    destruct (cb =? 0); simpl; [reflexivity|].
    unfold with_visited_a, with_visited_b. simpl.
    destruct (vget parents0 cb); reflexivity.
Qed.

Section WalkSide.
Variables (N : Z) (p : Z -> Z) (sid : Z).

(** What one side of the walk has done so far: [path] is the walk
    from [v], [cur] the node it stands on, and the stamps of this
    search sit on exactly the nodes the side has marked. *)
Record side_ok (ids idx : list Z) (v cur : Z) (act : bool) (path : list Z)
  : Prop := mkSide {
  so_ids : vsize ids = N;
  so_idx : vsize idx = N;
  so_chain : path = chain p v (length path);
  so_cur : cur = up p (length path) v;
  so_nz : forall i, (i < length path)%nat -> up p i v <> 0;
  so_stop : act = false -> cur = 0;
  so_le : forall x, 0 <= x < N -> at_ ids x <= sid;
  so_stamp : forall x, 0 <= x < N ->
    (at_ ids x = sid <-> In x path \/ (act = false /\ x = 0));
  so_pos : forall i, (i < length path)%nat -> at_ idx (up p i v) = Z.of_nat i;
  so_pos0 : act = false -> at_ idx 0 = Z.of_nat (length path)
}.
End WalkSide.

Definition disjoint (l1 l2 : list Z) : Prop :=
  forall x, In x l1 -> In x l2 -> False.

Definition walk_inv (N : Z) (t0 : MaxSpanningTree) (a b : Z) (w : walk) : Prop :=
  let t := w_tree w in
  same_core t0 t /\
  side_ok N (par t0) (search_id t0) (visited_a_search_ids t) (visited_a_indices t)
          a (current_a w) (a_active w) (path_a w) /\
  side_ok N (par t0) (search_id t0) (visited_b_search_ids t) (visited_b_indices t)
          b (current_b w) (b_active w) (path_b w) /\
  disjoint (path_a w) (path_b w) /\
  (a_active w = true \/ b_active w = true).

(** What a [Meeting] must satisfy: both paths are walks that arrive at
    the meeting node, made of nonzero nodes, and they share no node. *)
Definition meet_ok (N : Z) (t0 : MaxSpanningTree) (a b : Z) (m : meeting) : Prop :=
  match m with
  | NoMeeting _ _ _ => False
  | Meeting t c pa pb =>
      let p := par t0 in
      same_core t0 t /\
      (vsize (visited_a_search_ids t) = N /\ vsize (visited_a_indices t) = N /\
       vsize (visited_b_search_ids t) = N /\ vsize (visited_b_indices t) = N) /\
      (forall x, 0 <= x < N ->
         at_ (visited_a_search_ids t) x <= search_id t0 /\
         at_ (visited_b_search_ids t) x <= search_id t0) /\
      pa = chain p a (length pa) /\ pb = chain p b (length pb) /\
      up p (length pa) a = c /\ up p (length pb) b = c /\
      (forall i, (i < length pa)%nat -> up p i a <> 0) /\
      (forall i, (i < length pb)%nat -> up p i b <> 0) /\
      disjoint pa pb
  end.

Lemma same_core_swap (t0 t : MaxSpanningTree) :
  same_core t0 t -> same_core t0 (swap_tree t).
Proof. unfold same_core. simpl. tauto. Qed.

Lemma walk_inv_swap (N : Z) (t0 : MaxSpanningTree) (a b : Z) (w : walk) :
  walk_inv N t0 a b w -> walk_inv N t0 b a (swap_walk w).
Proof.
  unfold walk_inv. simpl. intros (H1 & H2 & H3 & H4 & H5).
  split; [now apply same_core_swap|].
  split; [exact H3|]. split; [exact H2|]. split; [|tauto].
  intros x Hb Ha. exact (H4 x Ha Hb).
Qed.

Lemma meet_ok_swap (N : Z) (t0 : MaxSpanningTree) (a b : Z) (m : meeting) :
  meet_ok N t0 a b m -> meet_ok N t0 b a (swap_meeting m).
Proof.
  destruct m as [t c pa pb|]; simpl; auto.
  intros (H1 & (S1 & S2 & S3 & S4) & H3 & H4 & H5 & H6 & H7 & H8 & H9 & H10).
  split; [now apply same_core_swap|]. split; [tauto|].
  split; [intros x Hx; split; now apply H3|].
  repeat (split; [assumption|]).
  intros x Hb Ha. exact (H10 x Ha Hb).
Qed.

Definition mu (act : bool) (k d : nat) : nat := if act then S (d - k) else O.

Section WalkStep.
Variables (N : Z) (t0 : MaxSpanningTree) (a b : Z) (da db : nat).
Local Abbreviation p := (par t0).
Hypothesis HN : 0 <= N <= INT_MAX.
Hypothesis F : forest N p.
Hypothesis Hps : vsize (parents t0) = N.
Hypothesis Ha : 0 <= a < N.
Hypothesis Hb : 0 <= b < N.
Hypothesis Hda : up p da a = 0.
Hypothesis Hdb : up p db b = 0.
Hypothesis Lda : Z.of_nat da <= N.
Hypothesis Ldb : Z.of_nat db <= N.

Lemma side_len (ids idx : list Z) (v cur : Z) (act : bool) (path : list Z) (d : nat) :
  side_ok N p (search_id t0) ids idx v cur act path -> up p d v = 0 ->
  (length path <= d)%nat.
Proof.
  intros S Hd. destruct (le_lt_dec (length path) d) as [L|L]; auto.
  exfalso. exact (so_nz _ _ _ _ _ _ _ _ _ S d L Hd).
Qed.

Lemma trim_chain (v : Z) (k j : nat) :
  (j < k)%nat -> Z.of_nat k <= N ->
  trim (Z.of_nat j) (chain p v k) = chain p v j.
Proof.
  intros Hj Hk. unfold trim, vsize.
  rewrite chain_length, to_size_t_small by lia.
  destruct (Z.ltb_spec (Z.of_nat j) (Z.of_nat k)); [|lia].
  rewrite Nat2Z.id. apply chain_firstn. lia.
Qed.

Lemma trim_all (path : list Z) :
  vsize path <= N -> trim (vsize path) path = path.
Proof.
  intros Hk. unfold trim.
  rewrite to_size_t_small by (unfold vsize in *; lia).
  now rewrite Z.ltb_irrefl.
Qed.

Lemma walk_a_step (w : walk) :
  walk_inv N t0 a b w ->
  (exists m, walk_a w = Ok (inr m) /\ meet_ok N t0 a b m) \/
  (exists w', walk_a w = Ok (inl w') /\ walk_inv N t0 a b w' /\
      current_b w' = current_b w /\ b_active w' = b_active w /\
      path_b w' = path_b w /\
      (a_active w = false -> w' = w) /\
      (a_active w = true ->
       (mu (a_active w') (length (path_a w')) da < mu true (length (path_a w)) da)%nat)).
Proof.
  intros (HC & SA & SB & HD & HACT).
  unfold walk_a. destruct (a_active w) eqn:EA.
  2:{ right. exists w. split; [reflexivity|].
      split; [unfold walk_inv; rewrite EA; auto|].
      repeat split; auto. discriminate. }
  pose proof (side_len _ _ _ _ _ _ _ SA Hda) as LA.
  pose proof (side_len _ _ _ _ _ _ _ SB Hdb) as LB.
  assert (Hcur : 0 <= current_a w < N).
  { rewrite (so_cur _ _ _ _ _ _ _ _ _ SA). now apply up_range. }
  pose proof HC as (C1 & C2 & C3 & C4 & C5 & C6 & C7 & C8 & C9 & C10 & C11).
  pose proof SA as [A1 A2 A3 A4 A5 A6 A7 A8 A9 A10].
  pose proof SB as [B1 B2 B3 B4 B5 B6 B7 B8 B9 B10].
  unfold vsize at 2.
  remember (length (path_a w)) as ka eqn:Eka.
  remember (length (path_b w)) as kb eqn:Ekb.
  rewrite vget_ok by (rewrite B1; auto).
  cbn [bind]. rewrite C11.
  destruct (Z.eqb_spec (at_ (visited_b_search_ids (w_tree w)) (current_a w)) (search_id t0)) as [E|E].
  - left.
    rewrite vget_ok by (rewrite B2; auto).
    cbn [bind]. eexists. split; [reflexivity|].
    apply B8 in E; auto.
    assert (G : exists j, (j <= kb)%nat /\
                trim (at_ (visited_b_indices (w_tree w)) (current_a w)) (path_b w)
                = chain p b j /\ up p j b = current_a w).
    { destruct E as [E|[E1 E2]].
      - rewrite B3 in E. apply chain_In in E. destruct E as [j [Hj Ej]].
        exists j. rewrite Ej, B9 by auto. rewrite B3.
        rewrite trim_chain by lia. split; [lia|auto].
      - exists kb. rewrite E2, B10 by auto.
        replace (Z.of_nat kb) with (vsize (path_b w)) by (unfold vsize; lia).
        rewrite trim_all by (unfold vsize; lia).
        split; [lia|]. split; [exact B3|].
        transitivity (current_b w); [symmetry; exact B4 | now apply B6]. }
    destruct G as [j [Hj [G1 G2]]]. rewrite G1.
    unfold meet_ok. rewrite chain_length, <- Eka.
    split; [exact HC|]. split; [auto|].
    split; [intros x Hx; split; auto|].
    split; [exact A3|]. split; [reflexivity|].
    split; [symmetry; exact A4|]. split; [exact G2|].
    split; [exact A5|]. split; [intros i Hi; apply B5; lia|].
    intros x Hxa Hxb. apply (HD x Hxa).
    rewrite B3. apply chain_In in Hxb. destruct Hxb as [i [Hi ->]].
    apply chain_In. exists i. split; [lia|auto].
  - right.
    rewrite vset_ok by (rewrite A1; auto). cbn [bind].
    rewrite vset_ok by (rewrite A2; auto). cbn [bind].
    rewrite to_int_small by (unfold vsize; lia).
    assert (BA : b_active w = false -> current_a w <> 0).
    { intros Hb0 Hc. apply E. apply B8; auto. }
    assert (NB : ~ In (current_a w) (path_b w)).
    { intros Hin. apply E. apply B8; auto. }
    destruct (Z.eqb_spec (current_a w) 0) as [Z0|NZ].
    + eexists. split; [reflexivity|].
      cbn [current_b b_active path_b a_active path_a w_tree current_a].
      split.
      { unfold walk_inv.
        cbn [current_b b_active path_b a_active path_a w_tree current_a].
        split; [exact HC|]. split; [|split; [exact SB|split; [exact HD|]]].
        - cbn. constructor; rewrite <- ?Eka; auto.
          + now rewrite vsize_upd.
          + now rewrite vsize_upd.
          + intros x Hx. rewrite at_upd by lia.
            destruct (x =? current_a w); [lia|auto].
          + intros x Hx. rewrite at_upd by lia.
            destruct (Z.eqb_spec x (current_a w)) as [->|Hne].
            * split; auto.
            * rewrite A8 by auto. split; intros [H|[H1 H2]]; auto; try discriminate.
              congruence.
          + intros i Hi. rewrite at_upd_other; auto; try lia.
            * pose proof (up_range N p F i a Ha). lia.
            * specialize (A5 i Hi). lia.
          + intros _. rewrite <- Z0. rewrite at_upd_same; auto. lia.
        - right. destruct (b_active w); auto. exfalso. now apply BA. }
      repeat split; auto.
      * intros; discriminate.
      * intros _. unfold mu. lia.
    + cbn [parents with_visited_a].
      rewrite vget_ok by (rewrite C3, Hps; auto). cbn [bind].
      eexists. split; [reflexivity|].
      cbn [current_b b_active path_b a_active path_a w_tree current_a].
      assert (Lka : (ka < da)%nat).
      { destruct (Nat.eq_dec ka da) as [->|Hne]; [|lia]. congruence. }
      split.
      { unfold walk_inv.
        cbn [current_b b_active path_b a_active path_a w_tree current_a].
        split; [exact HC|]. split; [|split; [exact SB|split; [|left; reflexivity]]].
        - cbn. constructor; rewrite ?length_app, <- ?Eka; cbn [length];
            replace (ka + 1)%nat with (S ka) by lia; auto.
          + now rewrite vsize_upd.
          + now rewrite vsize_upd.
          + rewrite chain_S. congruence.
          + rewrite C3. cbn [up]. rewrite <- A4. reflexivity.
          + intros i Hi. destruct (Nat.eq_dec i ka) as [->|Hne]; [congruence|].
            apply A5. lia.
          + intros; discriminate.
          + intros x Hx. rewrite at_upd by lia.
            destruct (x =? current_a w); [lia|auto].
          + intros x Hx. rewrite at_upd by lia. rewrite in_app_iff. cbn.
            destruct (Z.eqb_spec x (current_a w)) as [->|Hne].
            * split; auto.
            * rewrite A8 by auto. intuition congruence.
          + intros i Hi. destruct (Nat.eq_dec i ka) as [->|Hne].
            * rewrite <- A4. apply at_upd_same. lia.
            * rewrite at_upd_other; try lia.
              -- apply A9. lia.
              -- pose proof (up_range N p F i a Ha). lia.
              -- intros Heq. apply (A5 i); [lia|].
                 apply (forest_acyclic N p F a i ka Ha); [lia|congruence].
          + intros; discriminate.
        - intros x Hxa Hxb. apply in_app_iff in Hxa. destruct Hxa as [Hxa|[<-|[]]].
          + exact (HD x Hxa Hxb).
          + exact (NB Hxb). }
      repeat split; auto.
      * intros; discriminate.
      * intros _. rewrite length_app, <- Eka. unfold mu. cbn. lia.
Qed.
End WalkStep.

Lemma swap_walk_invol (w : walk) : swap_walk (swap_walk w) = w.
Proof. destruct w as [t ? ? ? ? ? ?]. destruct t. reflexivity. Qed.

Section WalkLoop.
Variables (N : Z) (t0 : MaxSpanningTree) (a b : Z) (da db : nat).
Local Abbreviation p := (par t0).
Hypothesis HN : 0 <= N <= INT_MAX.
Hypothesis F : forest N p.
Hypothesis Hps : vsize (parents t0) = N.
Hypothesis Ha : 0 <= a < N.
Hypothesis Hb : 0 <= b < N.
Hypothesis Hda : up p da a = 0.
Hypothesis Hdb : up p db b = 0.
Hypothesis Lda : Z.of_nat da <= N.
Hypothesis Ldb : Z.of_nat db <= N.

Lemma walk_b_step (w : walk) :
  walk_inv N t0 a b w ->
  (exists m, walk_b w = Ok (inr m) /\ meet_ok N t0 a b m) \/
  (exists w', walk_b w = Ok (inl w') /\ walk_inv N t0 a b w' /\
      current_a w' = current_a w /\ a_active w' = a_active w /\
      path_a w' = path_a w /\
      (b_active w = false -> w' = w) /\
      (b_active w = true ->
       (mu (b_active w') (length (path_b w')) db < mu true (length (path_b w)) db)%nat)).
Proof.
  intros I. rewrite walk_b_swap.
  destruct (walk_a_step N t0 b a db da HN F Hps Hb Ha Hdb Hda Ldb Lda
              (swap_walk w) (walk_inv_swap _ _ _ _ _ I))
    as [[m [E M]]|[w' [E [I' [H1 [H2 [H3 [H4 H5]]]]]]]]; rewrite E; cbn [bind swap_step].
  - left. exists (swap_meeting m). split; auto. now apply meet_ok_swap.
  - right. exists (swap_walk w'). split; auto.
    split; [now apply walk_inv_swap|].
    cbn in *. repeat split; auto.
    intros Hf. rewrite (H4 Hf). apply swap_walk_invol.
Qed.

Definition mu_walk (w : walk) : nat :=
  (mu (a_active w) (length (path_a w)) da + mu (b_active w) (length (path_b w)) db)%nat.

Lemma walk_loop_ok (fuel : nat) (w : walk) :
  walk_inv N t0 a b w -> (mu_walk w < fuel)%nat ->
  exists m, walk_loop fuel w = Ok m /\ meet_ok N t0 a b m.
Proof.
  revert w. induction fuel as [|fuel IH]; intros w I Hmu; [lia|].
  cbn [walk_loop].
  destruct (walk_a_step N t0 a b da db HN F Hps Ha Hb Hda Hdb Lda Ldb w I)
    as [[m [E M]]|[w1 [E [I1 [H1 [H2 [H3 [H4 H5]]]]]]]]; rewrite E; cbn [bind].
  { exists m. auto. }
  destruct (walk_b_step w1 I1)
    as [[m [E' M]]|[w2 [E' [I2 [G1 [G2 [G3 [G4 G5]]]]]]]]; rewrite E'; cbn [bind].
  { exists m. auto. }
  assert (A : negb (a_active w2) && negb (b_active w2) = false).
  { destruct I2 as (_ & _ & _ & _ & [A|A]); rewrite A; cbn; auto using andb_false_r. }
  rewrite A. apply IH; auto.
  unfold mu_walk in *. rewrite G2, G3. rewrite <- H2, <- H3 in Hmu.
  destruct I as (_ & _ & _ & _ & ACT). rewrite <- H2 in ACT.
  destruct (a_active w) eqn:EA.
  - specialize (H5 eq_refl).
    destruct (b_active w1) eqn:EB.
    + specialize (G5 eq_refl). lia.
    + rewrite (G4 eq_refl), EB. cbn in *. lia.
  - destruct ACT as [ACT|ACT]; [discriminate|].
    specialize (G5 ACT). rewrite ACT in Hmu.
    rewrite (H4 eq_refl), EA in *. cbn in *. lia.
Qed.
End WalkLoop.

(** Reduction of field projections only. *)
Ltac fields :=
  cbn [num_nodes max_seen_id parents scores raw_scores locations lengths
       links_processed links_added links_rejected
       visited_a_indices visited_b_indices
       visited_a_search_ids visited_b_search_ids search_id
       w_tree current_a current_b a_active b_active path_a path_b
       with_links with_max_seen_id with_counters with_visited_a
       with_visited_b with_search_id] in *.

(** ** Well-formed builders *)

(** The facts every reachable builder satisfies, [N] being its capacity. *)
Record wf (N : Z) (t : MaxSpanningTree) : Prop := mkWf {
  wf_N : 0 <= N <= INT_MAX;
  wf_num : num_nodes t = N;
  wf_parents : vsize (parents t) = N;
  wf_scores : vsize (scores t) = N;
  wf_raw : vsize (raw_scores t) = N;
  wf_loc : vsize (locations t) = N;
  wf_len : vsize (lengths t) = N;
  wf_va_idx : vsize (visited_a_indices t) = N;
  wf_vb_idx : vsize (visited_b_indices t) = N;
  wf_va_ids : vsize (visited_a_search_ids t) = N;
  wf_vb_ids : vsize (visited_b_search_ids t) = N;
  wf_forest : forest N (par t);
  wf_stamps : forall x, 0 <= x < N ->
    at_ (visited_a_search_ids t) x <= search_id t /\
    at_ (visited_b_search_ids t) x <= search_id t;
  wf_seen : 0 <= max_seen_id t /\ forall v, max_seen_id t < v < N -> sc t v = -1;
  wf_sentinel : 0 < N ->
    sc t 0 = -1 /\ at_ (raw_scores t) 0 = -1 /\
    at_ (locations t) 0 = -1 /\ at_ (lengths t) 0 = -1;
  wf_counts : 0 <= search_id t <= links_processed t /\
    0 <= links_added t /\ 0 <= links_rejected t /\
    links_added t + links_rejected t <= links_processed t
}.

Lemma new_tree_wf (n : Z) :
  0 <= n <= INT_MAX -> exists t, new_tree n = Ok t /\ wf n t.
Proof.
  intros H. unfold new_tree. destruct (Z.ltb_spec n 0); [lia|].
  eexists. split; [reflexivity|].
  constructor; unfold par, sc; fields; try apply vsize_assign; try lia.
  - constructor; fields.
    + unfold at_, assign. destruct (Z.to_nat n); reflexivity.
    + intros v Hv. rewrite at_assign; lia.
    + intros v Hv. exists 1%nat. cbn [up]. rewrite at_assign; lia.
  - intros x Hx. rewrite !at_assign; lia.
  - split; [lia|]. intros v Hv. rewrite at_assign; lia.
  - intros Hn. rewrite !at_assign; lia.
Qed.

Lemma find_meeting_point_ok (N : Z) (t : MaxSpanningTree) (a b : Z) (fuel : nat) :
  wf N t -> 0 <= a < N -> 0 <= b < N -> search_id t < INT_MAX ->
  (Z.to_nat (2 * N) < fuel)%nat ->
  exists m, find_meeting_point fuel t a b = Ok m /\
            meet_ok N (with_search_id t (search_id t + 1)) a b m.
Proof.
  intros W Ha Hb Hs Hf. unfold find_meeting_point, incr_int.
  destruct (Z.ltb_spec (search_id t) INT_MAX); [|lia]. cbn [bind].
  set (t1 := with_search_id t (search_id t + 1)).
  assert (F : forest N (par t1)) by exact (wf_forest N t W).
  destruct (depth_exists N (par t1) F a Ha) as [da [Da [_ La]]].
  destruct (depth_exists N (par t1) F b Hb) as [db [Db [_ Lb]]].
  apply (walk_loop_ok N t1 a b da db); auto; try lia.
  - apply (wf_N N t W).
  - exact (wf_parents N t W).
  - unfold walk_inv. cbn.
    split; [unfold same_core; tauto|].
    split; [|split; [|split; [intros x []|auto]]].
    + constructor; cbn; try (now destruct W); try discriminate; try lia.
      * intros x Hx. destruct (wf_stamps N t W x Hx). lia.
      * intros x Hx. destruct (wf_stamps N t W x Hx).
        split; [lia|]. intros [[]|[Hd _]]. discriminate.
    + constructor; cbn; try (now destruct W); try discriminate; try lia.
      * intros x Hx. destruct (wf_stamps N t W x Hx). lia.
      * intros x Hx. destruct (wf_stamps N t W x Hx).
        split; [lia|]. intros [[]|[Hd _]]. discriminate.
  - unfold mu_walk, mu. cbn. lia.
Qed.

(** ** [find_weakest_link_in_cycle] finds the first weakest link *)

Lemma scan_path_ok (N : Z) (t : MaxSpanningTree) (tag : which) (path : list Z)
    (i0 : Z) (acc : weakest) :
  vsize (scores t) = N -> (forall x, In x path -> 0 <= x < N) ->
  0 <= i0 -> i0 + vsize path <= INT_MAX ->
  exists acc', scan_path t tag path i0 acc = Ok acc' /\
    (forall x, In x path -> min_score acc' <= sc t x) /\
    (acc' = acc \/
     (which_path acc' = tag /\ min_score acc' < min_score acc /\
      exists j, (j < length path)%nat /\ position acc' = i0 + Z.of_nat j /\
                sc t (nth j path 0) = min_score acc')).
Proof.
  intros Hs. revert i0 acc.
  induction path as [|x rest IH]; intros i0 acc Hr Hi Hl.
  - exists acc. split; [reflexivity|]. split; [|now left].
    intros x Hx. destruct Hx.
  - cbn [scan_path]. unfold vsize in Hl. cbn [length] in Hl.
    rewrite vget_ok by (rewrite Hs; apply Hr; now left). cbn [bind].
    fold (sc t x).
    set (acc1 := if sc t x <? min_score acc
                 then mkWeakest (sc t x) tag (to_int i0) else acc).
    destruct (IH (i0 + 1) acc1) as [acc' [E [A B]]].
    { intros y Hy. apply Hr. now right. }
    { lia. }
    { unfold vsize. lia. }
    exists acc'. split; [exact E|].
    assert (M1 : min_score acc1 <= sc t x /\ min_score acc1 <= min_score acc).
    { unfold acc1. destruct (Z.ltb_spec (sc t x) (min_score acc)); cbn; lia. }
    assert (M2 : min_score acc' <= min_score acc1).
    { destruct B as [->|[_ [B _]]]; lia. }
    split.
    + intros y [<-|Hy]; [lia|auto].
    + destruct B as [->|[B1 [B2 [j [J1 [J2 J3]]]]]].
      * unfold acc1. destruct (Z.ltb_spec (sc t x) (min_score acc)); [|now left].
        right. cbn. split; [auto|]. split; [auto|].
        exists O. cbn. rewrite to_int_small by lia. repeat split; lia.
      * right. split; [auto|]. split; [lia|].
        exists (S j). cbn. repeat split; lia.
Qed.

(** The verdict of the scan over both paths. *)
Definition weakest_ok (t : MaxSpanningTree) (pa pb : list Z) (new_score : Z)
    (wk : weakest) : Prop :=
  (forall x, In x (pa ++ pb) -> min_score wk <= sc t x) /\
  match which_path wk with
  | path_new => min_score wk = new_score
  | path_A => min_score wk < new_score /\
      exists j, (j < length pa)%nat /\ position wk = Z.of_nat j /\
                sc t (nth j pa 0) = min_score wk
  | path_B => min_score wk < new_score /\
      exists j, (j < length pb)%nat /\ position wk = Z.of_nat j /\
                sc t (nth j pb 0) = min_score wk
  end.

Lemma find_weakest_ok (N : Z) (t : MaxSpanningTree) (pa pb : list Z) (new_score : Z) :
  vsize (scores t) = N ->
  (forall x, In x pa -> 0 <= x < N) -> (forall x, In x pb -> 0 <= x < N) ->
  vsize pa <= INT_MAX -> vsize pb <= INT_MAX ->
  exists wk, find_weakest_link_in_cycle t pa pb new_score = Ok wk /\
             weakest_ok t pa pb new_score wk.
Proof.
  intros Hs Ra Rb La Lb. unfold find_weakest_link_in_cycle.
  destruct (scan_path_ok N t path_A pa 0 (mkWeakest new_score path_new (-1)))
    as [wa [Ea [A1 A2]]]; auto; try lia.
  rewrite Ea. cbn [bind].
  destruct (scan_path_ok N t path_B pb 0 wa) as [wk [Eb [B1 B2]]]; auto; try lia.
  exists wk. split; [exact Eb|].
  assert (Mb : min_score wk <= min_score wa).
  { destruct B2 as [->|[_ [B2 _]]]; lia. }
  assert (Ma : min_score wa <= new_score).
  { destruct A2 as [->|[_ [A2 _]]]; cbn in *; lia. }
  split.
  - intros x Hx. apply in_app_iff in Hx. destruct Hx as [Hx|Hx]; auto.
    specialize (A1 x Hx). lia.
  - destruct B2 as [->|[B2 [B3 [j [J1 [J2 J3]]]]]].
    + destruct A2 as [->|[A2 [A3 [j [J1 [J2 J3]]]]]]; cbn [which_path min_score] in *.
      * reflexivity.
      * rewrite A2. split; [auto|]. exists j. repeat split; auto.
    + rewrite B2. split; [lia|]. exists j. repeat split; auto.
Qed.

Lemma weakest_new_iff (t : MaxSpanningTree) (pa pb : list Z) (new_score : Z)
    (wk : weakest) :
  weakest_ok t pa pb new_score wk ->
  (which_path wk = path_new <-> forall x, In x (pa ++ pb) -> ~ sc t x < new_score).
Proof.
  intros [A B]. split.
  - intros E x Hx. rewrite E in B. specialize (A x Hx). lia.
  - intros H. destruct (which_path wk); auto; exfalso;
      destruct B as [B1 [j [J1 [J2 J3]]]].
    + apply (H (nth j pa 0)); [|lia]. apply in_app_iff. left. now apply nth_In.
    + apply (H (nth j pb 0)); [|lia]. apply in_app_iff. right. now apply nth_In.
Qed.

(** ** [set_link] and [reverse_path] *)

(** The four attributes of the link stored at a node. *)
Definition attrs (t : MaxSpanningTree) (x : Z) : Z * Z * Z * Z :=
  (sc t x, at_ (raw_scores t) x, at_ (locations t) x, at_ (lengths t) x).

Definition link_sizes (N : Z) (t : MaxSpanningTree) : Prop :=
  vsize (parents t) = N /\ vsize (scores t) = N /\ vsize (raw_scores t) = N /\
  vsize (locations t) = N /\ vsize (lengths t) = N.

(** What [set_link] leaves alone. *)
Definition same_rest (t t' : MaxSpanningTree) : Prop :=
  num_nodes t' = num_nodes t /\
  links_processed t' = links_processed t /\ links_added t' = links_added t /\
  links_rejected t' = links_rejected t /\
  visited_a_indices t' = visited_a_indices t /\
  visited_b_indices t' = visited_b_indices t /\
  visited_a_search_ids t' = visited_a_search_ids t /\
  visited_b_search_ids t' = visited_b_search_ids t /\
  search_id t' = search_id t.

(** No node above [max_seen_id] carries a link. *)
Definition seen (N : Z) (t : MaxSpanningTree) : Prop :=
  0 <= max_seen_id t /\ forall v, max_seen_id t < v < N -> sc t v = -1.

Lemma same_rest_refl (t : MaxSpanningTree) : same_rest t t.
Proof. unfold same_rest. tauto. Qed.

Lemma same_rest_trans (t1 t2 t3 : MaxSpanningTree) :
  same_rest t1 t2 -> same_rest t2 t3 -> same_rest t1 t3.
Proof. unfold same_rest. intuition congruence. Qed.

Lemma set_link_ok (N : Z) (t : MaxSpanningTree) (n p s r l len : Z) :
  link_sizes N t -> 0 <= n < N ->
  exists t', set_link t n p s r l len = Ok t' /\
    link_sizes N t' /\ same_rest t t' /\ (seen N t -> seen N t') /\
    par t' n = p /\ attrs t' n = (s, r, l, len) /\
    (forall x, 0 <= x -> x <> n -> par t' x = par t x /\ attrs t' x = attrs t x).
Proof.
  intros (S1 & S2 & S3 & S4 & S5) Hn. unfold set_link.
  rewrite !vset_ok by lia. cbn [bind].
  eexists. split; [reflexivity|].
  unfold link_sizes, same_rest, seen, par, sc, attrs, sc. fields.
  rewrite !vsize_upd. rewrite !at_upd_same by lia.
  split; [tauto|]. split; [tauto|]. split.
  - intros [M1 M2].
    remember (if (if max_seen_id t <? n then n else max_seen_id t) <? p
              then p else if max_seen_id t <? n then n else max_seen_id t) as m2 eqn:Em.
    assert (M : max_seen_id t <= m2 /\ n <= m2).
    { subst m2. destruct (Z.ltb_spec (max_seen_id t) n);
        match goal with |- context [?x <? p] => destruct (Z.ltb_spec x p) end; lia. }
    split; [lia|].
    intros v Hv. rewrite at_upd_other; try lia. apply M2. lia.
  - split; [reflexivity|]. split; [reflexivity|].
    intros x Hx Hne. rewrite !at_upd_other by lia. auto.
Qed.

Lemma vget_nth (path : list Z) (i : nat) :
  (i < length path)%nat -> vget path (Z.of_nat i) = Ok (nth i path 0).
Proof.
  intros H. rewrite vget_ok by (unfold vsize; lia).
  unfold at_. now rewrite Nat2Z.id.
Qed.

Lemma reverse_loop_ok (N : Z) (path : list Z) (i : nat) (t : MaxSpanningTree) :
  link_sizes N t -> NoDup path -> (forall x, In x path -> 0 <= x < N) ->
  (i < length path)%nat ->
  exists t', reverse_loop t path i = Ok t' /\
    link_sizes N t' /\ same_rest t t' /\ (seen N t -> seen N t') /\
    (forall k, (1 <= k <= i)%nat ->
       par t' (nth k path 0) = nth (k - 1) path 0 /\
       attrs t' (nth k path 0) = attrs t (nth (k - 1) path 0)) /\
    (forall x, 0 <= x -> (forall k, (1 <= k <= i)%nat -> x <> nth k path 0) ->
       par t' x = par t x /\ attrs t' x = attrs t x).
Proof.
  intros LS ND R. revert t LS.
  assert (D : forall j k, (j < length path)%nat -> (k < length path)%nat ->
                j <> k -> nth j path 0 <> nth k path 0).
  { intros j k Hj Hk Hne E. apply Hne. eapply NoDup_nth; eauto. }
  assert (P : forall j, (j < length path)%nat -> 0 <= nth j path 0 < N).
  { intros j Hj. apply R. now apply nth_In. }
  induction i as [|i IH]; intros t LS Hi.
  - exists t. cbn. split; [auto|]. split; [auto|]. split; [apply same_rest_refl|].
    split; [auto|]. split; [intros k Hk; lia|auto].
  - cbn [reverse_loop].
    rewrite vget_nth by lia. cbn [bind].
    replace (Z.of_nat (S i) - 1) with (Z.of_nat i) by lia.
    rewrite vget_nth by lia. cbn [bind].
    pose proof LS as (S1 & S2 & S3 & S4 & S5).
    assert (Pi : 0 <= nth i path 0 < N) by (apply P; lia).
    rewrite !vget_ok by lia. cbn [bind].
    destruct (set_link_ok N t (nth (S i) path 0) (nth i path 0)
                (at_ (scores t) (nth i path 0)) (at_ (raw_scores t) (nth i path 0))
                (at_ (locations t) (nth i path 0)) (at_ (lengths t) (nth i path 0)) LS)
      as [t1 [E1 [LS1 [SR1 [SE1 [P1 [A1 O1]]]]]]]; [apply P; lia|].
    rewrite E1. cbn [bind].
    destruct (IH t1 LS1) as [t' [E' [LS' [SR' [SE' [K' O']]]]]]; [lia|].
    exists t'. split; [exact E'|]. split; [exact LS'|].
    split; [eapply same_rest_trans; eauto|]. split; [auto|]. split.
    + intros k Hk. destruct (Nat.eq_dec k (S i)) as [->|Hne].
      * destruct (O' (nth (S i) path 0)) as [Q1 Q2].
        { assert (0 <= nth (S i) path 0 < N) by (apply P; lia). lia. }
        { intros k Hk'. apply D; lia. }
        rewrite Q1, Q2, P1, A1. replace (S i - 1)%nat with i by lia. auto.
      * destruct (K' k) as [Q1 Q2]; [lia|]. rewrite Q1, Q2. split; [auto|].
        apply O1; [|apply D; lia].
        assert (0 <= nth (k - 1) path 0 < N) by (apply P; lia). lia.
    + intros x Hx Hne. destruct (O' x Hx) as [Q1 Q2].
      { intros k Hk. apply Hne. lia. }
      rewrite Q1, Q2. apply O1; [auto | apply Hne; lia].
Qed.

Lemma reverse_path_ok (N : Z) (path : list Z) (pos : nat) (t : MaxSpanningTree) :
  link_sizes N t -> NoDup path -> (forall x, In x path -> 0 <= x < N) ->
  (pos < length path)%nat ->
  exists t', reverse_path t path (Z.of_nat pos) = Ok t' /\
    link_sizes N t' /\ same_rest t t' /\ (seen N t -> seen N t') /\
    (forall k, (1 <= k <= pos)%nat ->
       par t' (nth k path 0) = nth (k - 1) path 0 /\
       attrs t' (nth k path 0) = attrs t (nth (k - 1) path 0)) /\
    (forall x, 0 <= x -> (forall k, (k <= pos)%nat -> x <> nth k path 0) ->
       par t' x = par t x /\ attrs t' x = attrs t x).
Proof.
  intros LS ND R Hp. unfold reverse_path. rewrite Nat2Z.id.
  destruct (reverse_loop_ok N path pos t LS ND R Hp)
    as [t1 [E1 [LS1 [SR1 [SE1 [K1 O1]]]]]].
  rewrite E1. cbn [bind].
  change 0 with (Z.of_nat 0) at 1. rewrite (vget_nth path 0) by lia. cbn [bind].
  assert (P0 : 0 <= nth 0 path 0 < N) by (apply R; apply nth_In; lia).
  destruct (set_link_ok N t1 (nth 0 path 0) (nth 0 path 0) (-1) (-1) (-1) (-1) LS1 P0)
    as [t2 [E2 [LS2 [SR2 [SE2 [P2 [A2 O2]]]]]]].
  exists t2. split; [exact E2|]. split; [exact LS2|].
  split; [eapply same_rest_trans; eauto|]. split; [auto|]. split.
  - intros k Hk. destruct (K1 k Hk) as [Q1 Q2].
    destruct (O2 (nth k path 0)) as [R1 R2].
    + assert (0 <= nth k path 0 < N) by (apply R; apply nth_In; lia). lia.
    + intros E. assert (k = 0)%nat; [|lia].
      eapply NoDup_nth; eauto; lia.
    + rewrite R1, R2. auto.
  - intros x Hx Hne. destruct (O1 x Hx) as [Q1 Q2].
    { intros k Hk. apply Hne. lia. }
    destruct (O2 x Hx) as [R1 R2]; [apply (Hne 0%nat); lia|].
    rewrite R1, R2. auto.
Qed.

(** ** Links of weight at least [w] *)

(** [joined N p s w u v]: the nodes [u] and [v] are connected by tree
    links of score [>= w], taken in either direction. *)
Inductive joined (N : Z) (p s : Z -> Z) (w : Z) : Z -> Z -> Prop :=
| joined_refl (v : Z) : joined N p s w v v
| joined_link (v : Z) : 0 <= v < N -> w <= s v -> joined N p s w v (p v)
| joined_sym (u v : Z) : joined N p s w u v -> joined N p s w v u
| joined_trans (u v z : Z) :
    joined N p s w u v -> joined N p s w v z -> joined N p s w u z.

(** A stretch of the walk from [v] whose links all weigh [>= w]. *)
Lemma joined_walk (N : Z) (p s : Z -> Z) (w v : Z) (k : nat) :
  (forall v, 0 <= v < N -> 0 <= p v < N) -> 0 <= v < N ->
  (forall i, (i < k)%nat -> w <= s (up p i v)) ->
  joined N p s w v (up p k v).
Proof.
  intros Cl Hv H. induction k as [|k IH]; cbn [up].
  - apply joined_refl.
  - apply joined_trans with (v := up p k v).
    + apply IH. intros i Hi. apply H. lia.
    + apply joined_link; [|apply H; lia].
      clear IH H. induction k as [|k IH]; cbn [up]; auto.
Qed.

(** ** Re-rooting keeps the forest *)

(** The arrays after an accepted link: the walk from [x] is reversed up
    to its node number [pos], whose own link is dropped, and [x] hangs
    under [y] with weight [w]. *)
Record relinked (N : Z) (p s p' s' : Z -> Z) (x y w : Z) (pos : nat) : Prop :=
  mkRelinked {
  rl_new : p' x = y /\ s' x = w;
  rl_rev : forall k, (1 <= k <= pos)%nat ->
    p' (up p k x) = up p (k - 1) x /\ s' (up p k x) = s (up p (k - 1) x);
  rl_other : forall v, 0 <= v < N -> (forall k, (k <= pos)%nat -> v <> up p k x) ->
    p' v = p v /\ s' v = s v
}.

Section Reroot.
Variables (N : Z) (p s p' s' : Z -> Z) (x y w c : Z) (kx ky pos : nat).
Hypothesis F : forest N p.
Hypothesis Hx : 0 <= x < N.
Hypothesis Hy : 0 <= y < N.
Hypothesis NZx : forall i, (i < kx)%nat -> up p i x <> 0.
Hypothesis NZy : forall i, (i < ky)%nat -> up p i y <> 0.
Hypothesis Cx : up p kx x = c.
Hypothesis Cy : up p ky y = c.
Hypothesis Dxy : disjoint (chain p x kx) (chain p y ky).
Hypothesis Hpos : (pos < kx)%nat.
Hypothesis RL : relinked N p s p' s' x y w pos.

Lemma prefix_dec (v : Z) :
(exists k, (k <= pos)%nat /\ v = up p k x) \/
(forall k, (k <= pos)%nat -> v <> up p k x).
Proof.
destruct (In_dec Z.eq_dec v (chain p x (S pos))) as [I|I].
- left. apply chain_In in I. destruct I as [k [Hk E]]. exists k. split; [lia|auto].
- right. intros k Hk E. apply I. apply chain_In. exists k. split; [lia|auto].
Qed.

(** Different nodes of the walk from [x] below the meeting node. *)
Lemma walk_x_inj (i j : nat) :
(i < kx)%nat -> (i < j)%nat -> up p i x <> up p j x.
Proof.
intros Hi Hij E. apply (NZx i Hi). now apply (forest_acyclic N p F x i j).
Qed.

(** The walk from [y] never enters the reversed part. *)
Lemma walk_y_off (n k : nat) : (k <= pos)%nat -> up p n y <> up p k x.
Proof.
intros Hk E. destruct (le_lt_dec ky n) as [L|L].
- replace n with ((n - ky) + ky)%nat in E by lia.
  rewrite up_add, Cy, <- Cx, <- up_add in E.
  apply (walk_x_inj k (n - ky + kx)); auto; lia.
- apply (Dxy (up p k x)); apply chain_In.
  + exists k. split; [lia|auto].
  + exists n. split; [lia|auto].
Qed.

Lemma walk_y_same (n : nat) : up p' n y = up p n y.
Proof.
induction n as [|n IH]; cbn [up]; auto.
rewrite IH. apply (rl_other _ _ _ _ _ _ _ _ _ RL).
- now apply up_range.
- intros k Hk. now apply walk_y_off.
Qed.

Lemma reach_prefix (k : nat) : (k <= pos)%nat -> exists n, up p' n (up p k x) = 0.
Proof.
induction k as [|k IH]; intros Hk.
- destruct (forest_reach N p F y Hy) as [n Hn].
  exists (S n). rewrite up_S_r. cbn [up].
  rewrite (proj1 (rl_new _ _ _ _ _ _ _ _ _ RL)), walk_y_same. exact Hn.
- destruct IH as [n Hn]; [lia|].
  exists (S n). rewrite up_S_r.
  destruct (rl_rev _ _ _ _ _ _ _ _ _ RL (S k)) as [E _]; [lia|].
  rewrite E. replace (S k - 1)%nat with k by lia. exact Hn.
Qed.

Lemma relinked_forest : forest N p'.
Proof.
constructor.
- destruct (rl_other _ _ _ _ _ _ _ _ _ RL 0) as [E _]; [lia| |].
  + intros k Hk E. apply (NZx k); [lia|auto].
  + rewrite E. apply (forest_root N p F).
- intros v Hv. destruct (prefix_dec v) as [[k [Hk ->]]|O].
  + destruct k as [|k].
    * cbn [up]. rewrite (proj1 (rl_new _ _ _ _ _ _ _ _ _ RL)). exact Hy.
    * destruct (rl_rev _ _ _ _ _ _ _ _ _ RL (S k)) as [E _]; [lia|].
      rewrite E. now apply up_range.
  + destruct (rl_other _ _ _ _ _ _ _ _ _ RL v Hv O) as [E _].
    rewrite E. now apply (forest_closed N p F).
- intros v Hv. destruct (forest_reach N p F v Hv) as [m Hm].
  revert v Hv Hm. induction m as [|m IH]; intros v Hv Hm.
  + exists O. exact Hm.
  + destruct (prefix_dec v) as [[k [Hk ->]]|O].
    * now apply reach_prefix.
    * destruct (rl_other _ _ _ _ _ _ _ _ _ RL v Hv O) as [E _].
      rewrite up_S_r in Hm.
      destruct (IH (p v)) as [n Hn]; auto.
      { now apply (forest_closed N p F). }
      exists (S n). rewrite up_S_r, E. exact Hn.
Qed.

(** *** Re-rooting keeps what was joined *)

Hypothesis Wk : s (up p pos x) < w.
Hypothesis Mx : forall i, (i < kx)%nat -> s (up p pos x) <= s (up p i x).
Hypothesis My : forall i, (i < ky)%nat -> s (up p pos x) <= s (up p i y).

Let closed' := forest_closed N p' relinked_forest.

(** A stretch of the old walk from [v] that stays clear of the reversed
  part is a walk of the new tree, with the old scores. *)
Lemma joined_kept (w0 v : Z) (k : nat) :
0 <= v < N ->
(forall i, (i < k)%nat -> forall j, (j <= pos)%nat -> up p i v <> up p j x) ->
(forall i, (i < k)%nat -> w0 <= s (up p i v)) ->
joined N p' s' w0 v (up p k v).
Proof.
intros Hv Off H.
assert (E : forall i, (i <= k)%nat -> up p' i v = up p i v).
{ induction i as [|i IH]; intros Hi; cbn [up]; auto.
  rewrite IH by lia. apply (rl_other _ _ _ _ _ _ _ _ _ RL).
  - now apply up_range.
  - apply Off. lia. }
rewrite <- E by lia. apply joined_walk; auto.
intros i Hi. rewrite E by lia.
destruct (rl_other _ _ _ _ _ _ _ _ _ RL (up p i v)) as [_ E'].
- now apply up_range.
- now apply Off.
- rewrite E'. now apply H.
Qed.

(** The reversed part, walked backwards from its node [k] to [x]. *)
Lemma joined_reversed (w0 : Z) (k : nat) :
(k <= pos)%nat -> w0 <= s (up p pos x) -> joined N p' s' w0 (up p k x) x.
Proof.
intros Hk Hw. induction k as [|k IH].
- apply joined_refl.
- apply joined_trans with (v := up p k x); [|apply IH; lia].
  destruct (rl_rev _ _ _ _ _ _ _ _ _ RL (S k)) as [E1 E2]; [lia|].
  replace (S k - 1)%nat with k in * by lia.
  rewrite <- E1. apply joined_link; [now apply up_range|].
  rewrite E2. specialize (Mx k). lia.
Qed.

(** The ends of the dropped link stay joined, around the cycle. *)
Lemma joined_dropped (w0 : Z) :
w0 <= s (up p pos x) -> joined N p' s' w0 (up p pos x) (up p (S pos) x).
Proof.
intros Hw.
apply joined_trans with (v := x); [now apply joined_reversed|].
apply joined_trans with (v := y).
{ rewrite <- (proj1 (rl_new _ _ _ _ _ _ _ _ _ RL)).
  apply joined_link; auto.
  rewrite (proj2 (rl_new _ _ _ _ _ _ _ _ _ RL)). lia. }
apply joined_trans with (v := c).
{ rewrite <- Cy. apply joined_kept; auto.
  - intros i Hi j Hj. now apply walk_y_off.
  - intros i Hi. specialize (My i Hi). lia. }
apply joined_sym. rewrite <- Cx.
replace kx with ((kx - S pos) + S pos)%nat by lia. rewrite up_add.
apply joined_kept.
- now apply up_range.
- intros i Hi j Hj. rewrite <- up_add. intros E. symmetry in E.
  apply (walk_x_inj j (i + S pos)) in E; auto; lia.
- intros i Hi. rewrite <- up_add. specialize (Mx (i + S pos)%nat). lia.
Qed.

Lemma relinked_joined (w0 u v : Z) :
joined N p s w0 u v -> joined N p' s' w0 u v.
Proof.
induction 1 as [v|v Hv Hw|u v _ IH|u v z _ IH1 _ IH2].
- apply joined_refl.
- destruct (prefix_dec v) as [[k [Hk ->]]|O].
  + destruct (Nat.eq_dec k pos) as [->|Hne].
    * now apply joined_dropped.
    * apply joined_sym.
      destruct (rl_rev _ _ _ _ _ _ _ _ _ RL (S k)) as [E1 E2]; [lia|].
      replace (S k - 1)%nat with k in * by lia.
      change (p (up p k x)) with (up p (S k) x).
      rewrite <- E1. apply joined_link; [now apply up_range|].
      now rewrite E2.
  + destruct (rl_other _ _ _ _ _ _ _ _ _ RL v Hv O) as [E1 E2].
    rewrite <- E1. apply joined_link; auto. now rewrite E2.
- now apply joined_sym.
- now apply joined_trans with (v := v).
Qed.

(** The new link joins its ends. *)
Lemma relinked_new : joined N p' s' w x y.
Proof.
rewrite <- (proj1 (rl_new _ _ _ _ _ _ _ _ _ RL)).
apply joined_link; auto.
rewrite (proj2 (rl_new _ _ _ _ _ _ _ _ _ RL)). lia.
Qed.
End Reroot.

(** ** The tree path between two nodes *)

(** [x] is [a] or one of its ancestors. *)
Definition anc (p : Z -> Z) (a x : Z) : Prop := exists n, up p n a = x.

(** The link [x -> p x] lies on the tree path between [a] and [b]: [x]
    is above exactly one of the two (the common ancestors, from the
    lowest one up, are above both). *)
Definition on_tree_path (p : Z -> Z) (a b x : Z) : Prop :=
  (anc p a x /\ ~ anc p b x) \/ (anc p b x /\ ~ anc p a x).

Lemma joined_meet (N : Z) (p s : Z -> Z) (w a b : Z) :
  joined N p s w a b ->
  exists k l, up p k a = up p l b /\
    (forall i, (i < k)%nat -> w <= s (up p i a)) /\
    (forall i, (i < l)%nat -> w <= s (up p i b)).
Proof.
  induction 1 as [v|v Hv Hw|u v _ IH|u v z _ IH1 _ IH2].
  - exists O, O. repeat split; intros; lia.
  - exists 1%nat, O. cbn [up]. repeat split; intros i Hi; try lia.
    replace i with O by lia. exact Hw.
  - destruct IH as [k [l [E [A B]]]]. exists l, k. auto.
  - destruct IH1 as [k1 [l1 [E1 [A1 B1]]]].
    destruct IH2 as [k2 [l2 [E2 [A2 B2]]]].
    destruct (le_lt_dec l1 k2) as [L|L].
    + exists ((k2 - l1) + k1)%nat, l2. split; [|split; auto].
      * rewrite up_add, E1, <- up_add, <- E2. f_equal. lia.
      * intros i Hi. destruct (le_lt_dec k1 i) as [G|G]; [|auto].
        replace i with ((i - k1) + k1)%nat by lia.
        rewrite up_add, E1, <- up_add. apply A2. lia.
    + exists k1, ((l1 - k2) + l2)%nat. split; [|split; auto].
      * rewrite up_add, <- E2, <- up_add, E1. f_equal. lia.
      * intros i Hi. destruct (le_lt_dec l2 i) as [G|G]; [|auto].
        replace i with ((i - l2) + l2)%nat by lia.
        rewrite up_add, <- E2, <- up_add. apply B1. lia.
Qed.

(** Nodes joined at weight [w] have a tree path of links [>= w]. *)
Lemma joined_tree_path (N : Z) (p s : Z -> Z) (w a b : Z) :
  joined N p s w a b -> forall x, on_tree_path p a b x -> w <= s x.
Proof.
  intros J x Hx. destruct (joined_meet N p s w a b J) as [k [l [E [A B]]]].
  destruct Hx as [[[n Hn] Hb]|[[n Hn] Ha]]; subst x.
  - destruct (le_lt_dec k n) as [G|G]; [|auto].
    exfalso. apply Hb. exists ((n - k) + l)%nat.
    rewrite up_add, <- E, <- up_add. f_equal. lia.
  - destruct (le_lt_dec l n) as [G|G]; [|auto].
    exfalso. apply Ha. exists ((n - l) + k)%nat.
    rewrite up_add, E, <- up_add. f_equal. lia.
Qed.

(** The two root-ward paths [pa] from [a] and [pb] from [b], each up to
    the node before the meeting node [c]. *)
Record rootward_paths (p : Z -> Z) (a b c : Z) (pa pb : list Z) : Prop :=
  mkPaths {
  rp_a : pa = chain p a (length pa);
  rp_b : pb = chain p b (length pb);
  rp_meet_a : up p (length pa) a = c;
  rp_meet_b : up p (length pb) b = c;
  rp_nz_a : forall i, (i < length pa)%nat -> up p i a <> 0;
  rp_nz_b : forall i, (i < length pb)%nat -> up p i b <> 0;
  rp_disjoint : disjoint pa pb
}.

Lemma rootward_sym (p : Z -> Z) (a b c : Z) (pa pb : list Z) :
  rootward_paths p a b c pa pb -> rootward_paths p b a c pb pa.
Proof.
  intros [H1 H2 H3 H4 H5 H6 H7]. constructor; auto.
  intros x Hb Ha. exact (H7 x Ha Hb).
Qed.

Lemma rootward_half (N : Z) (p : Z -> Z) (a b c : Z) (pa pb : list Z) (x : Z) :
  forest N p -> 0 <= a < N -> 0 <= b < N -> rootward_paths p a b c pa pb ->
  (In x pa <-> anc p a x /\ ~ anc p b x).
Proof.
  intros F Ha Hb [H1 H2 H3 H4 H5 H6 H7]. split.
  - intros Hx. rewrite H1 in Hx. apply chain_In in Hx. destruct Hx as [i [Hi ->]].
    split; [now exists i|]. intros [n Hn].
    assert (D : disjoint (chain p a (length pa)) (chain p b (length pb))).
    { now rewrite <- H1, <- H2. }
    apply (walk_y_off N p a b c (length pa) (length pb) i F Ha H5 H3 H4 D Hi n i);
      auto.
  - intros [[n Hn] Hb']. rewrite H1. apply chain_In.
    destruct (le_lt_dec (length pa) n) as [G|G].
    + exfalso. apply Hb'. exists ((n - length pa) + length pb)%nat.
      rewrite up_add, H4, <- H3, <- up_add, <- Hn. f_equal. lia.
    + exists n. auto.
Qed.

(** The two paths hold exactly the links of the tree path. *)
Lemma rootward_tree_path (N : Z) (p : Z -> Z) (a b c : Z) (pa pb : list Z) (x : Z) :
  forest N p -> 0 <= a < N -> 0 <= b < N -> rootward_paths p a b c pa pb ->
  (In x (pa ++ pb) <-> on_tree_path p a b x).
Proof.
  intros F Ha Hb R. unfold on_tree_path.
  rewrite in_app_iff.
  rewrite (rootward_half N p a b c pa pb x F Ha Hb R).
  rewrite (rootward_half N p b a c pb pa x F Hb Ha (rootward_sym _ _ _ _ _ _ R)).
  tauto.
Qed.

(** ** An accepted link re-roots one side *)

Lemma attrs_sc (t t' : MaxSpanningTree) (v v' : Z) :
  attrs t v = attrs t' v' -> sc t v = sc t' v'.
Proof. unfold attrs. congruence. Qed.

Lemma attrs_sc_new (t : MaxSpanningTree) (v w rw loc len : Z) :
  attrs t v = (w, rw, loc, len) -> sc t v = w.
Proof. unfold attrs. congruence. Qed.

(** [reverse_path(path, position); set_link(x, y, ...)] on the walk
    from [x]. *)
Lemma relink_ok (N : Z) (t : MaxSpanningTree) (x y w rw loc len : Z) (kx pos : nat) :
  link_sizes N t -> forest N (par t) -> 0 <= x < N -> 0 <= y < N ->
  (forall i, (i < kx)%nat -> up (par t) i x <> 0) -> (pos < kx)%nat ->
  exists t',
    (t1 <- reverse_path t (chain (par t) x kx) (Z.of_nat pos) ;;
     set_link t1 x y w rw loc len) = Ok t' /\
    link_sizes N t' /\ same_rest t t' /\ (seen N t -> seen N t') /\
    relinked N (par t) (sc t) (par t') (sc t') x y w pos /\
    attrs t' x = (w, rw, loc, len) /\
    (forall k, (1 <= k <= pos)%nat ->
       attrs t' (up (par t) k x) = attrs t (up (par t) (k - 1) x)) /\
    (forall v, 0 <= v -> (forall k, (k <= pos)%nat -> v <> up (par t) k x) ->
       attrs t' v = attrs t v).
Proof.
  intros LS F Hx Hy NZ Hpos.
  set (p := par t) in *. set (path := chain p x kx).
  assert (ND : NoDup path) by (now apply (chain_NoDup N p F)).
  assert (R : forall v, In v path -> 0 <= v < N).
  { intros v Hv. apply chain_In in Hv. destruct Hv as [i [_ ->]].
    now apply up_range. }
  assert (Len : length path = kx) by apply chain_length.
  assert (Nth : forall k, (k <= pos)%nat -> nth k path 0 = up p k x).
  { intros k Hk. apply chain_nth. lia. }
  destruct (reverse_path_ok N path pos t LS ND R) as [t1 [E1 [LS1 [SR1 [SE1 [K1 O1]]]]]];
    [lia|].
  rewrite E1. cbn [bind].
  destruct (set_link_ok N t1 x y w rw loc len LS1 Hx)
    as [t' [E' [LS' [SR' [SE' [P' [A' O']]]]]]].
  exists t'. split; [exact E'|]. split; [exact LS'|].
  split; [eapply same_rest_trans; eauto|]. split; [auto|].
  assert (Inj : forall k, (1 <= k <= pos)%nat -> up p k x <> x).
  { intros k Hk E. apply (walk_x_inj N p x kx F Hx NZ 0 k); auto; lia. }
  assert (Rev : forall k, (1 <= k <= pos)%nat ->
            par t' (up p k x) = up p (k - 1) x /\
            attrs t' (up p k x) = attrs t (up p (k - 1) x)).
  { intros k Hk. destruct (K1 k Hk) as [Q1 Q2].
    rewrite !Nth in Q1, Q2 by lia.
    destruct (O' (up p k x)) as [R1 R2]; [|now apply Inj|].
    - pose proof (up_range N p F k x Hx). lia.
    - rewrite R1, R2. auto. }
  assert (Oth : forall v, 0 <= v -> (forall k, (k <= pos)%nat -> v <> up p k x) ->
            par t' v = par t v /\ attrs t' v = attrs t v).
  { intros v Hv Hne. destruct (O1 v Hv) as [Q1 Q2].
    - intros k Hk. rewrite Nth by lia. now apply Hne.
    - destruct (O' v Hv) as [R1 R2]; [apply (Hne O); lia|].
      rewrite R1, R2. auto. }
  split; [|split; [exact A'|split]].
  - constructor.
    + split; [exact P'|now apply attrs_sc_new in A'].
    + intros k Hk. destruct (Rev k Hk) as [Q1 Q2]. split; [exact Q1|].
      now apply attrs_sc.
    + intros v Hv Hne. destruct (Oth v) as [Q1 Q2]; auto; [lia|].
      split; [exact Q1|now apply attrs_sc].
  - intros k Hk. now apply Rev.
  - intros v Hv Hne. now apply Oth.
Qed.

(** ** One call of [add_link] *)

(** [add_link] up to [if (node_a == node_b)], given the incremented
    [links_processed], and the rest of it. *)
Definition prelude (t : MaxSpanningTree) (lp node_a node_b : Z) : MaxSpanningTree :=
  let t := with_counters t lp (links_added t) (links_rejected t) in
  let t := if max_seen_id t <? node_a then with_max_seen_id t node_a else t in
  if max_seen_id t <? node_b then with_max_seen_id t node_b else t.

Definition relink (t : MaxSpanningTree) (path : list Z) (pos : Z)
    (x y score raw_score location len : Z) : res (MaxSpanningTree * bool) :=
  t <- reverse_path t path pos ;;
  t <- set_link t x y score raw_score location len ;;
  la <- incr_ll (links_added t) ;;
  Ok (with_counters t (links_processed t) la (links_rejected t), true).

Definition after_meeting (t : MaxSpanningTree) (pa pb : list Z)
    (node_a node_b score raw_score location len : Z) : res (MaxSpanningTree * bool) :=
  wk <- find_weakest_link_in_cycle t pa pb score ;;
  match which_path wk with
  | path_new =>
      lr <- incr_ll (links_rejected t) ;;
      Ok (with_counters t (links_processed t) (links_added t) lr, false)
  | path_A => relink t pa (position wk) node_a node_b score raw_score location len
  | path_B => relink t pb (position wk) node_b node_a score raw_score location len
  end.

Lemma add_link_eq (fuel : nat) (t : MaxSpanningTree)
    (node_a node_b score raw_score location len : Z) :
  add_link fuel t node_a node_b score raw_score location len =
  (lp <- incr_ll (links_processed t) ;;
   let t := prelude t lp node_a node_b in
   if node_a =? node_b then Ok (t, false)
   else
     m <- find_meeting_point fuel t node_a node_b ;;
     match m with
     | NoMeeting t _ _ => Ok (t, false)
     | Meeting t _ pa pb =>
         after_meeting t pa pb node_a node_b score raw_score location len
     end).
Proof. reflexivity. Qed.

Definition unchanged_links (t t' : MaxSpanningTree) : Prop :=
  parents t' = parents t /\ scores t' = scores t /\
  raw_scores t' = raw_scores t /\ locations t' = locations t /\
  lengths t' = lengths t.

(** The new link [x -> y] took the place of the link number [pos] of
    the path [px] from [x]. *)
Record accepted (N : Z) (t t' : MaxSpanningTree) (x y w rw loc len : Z)
    (px py : list Z) (pos : nat) : Prop := mkAccepted {
  ac_pos : (pos < length px)%nat;
  ac_weak : sc t (up (par t) pos x) < w;
  ac_min : forall v, In v (px ++ py) -> sc t (up (par t) pos x) <= sc t v;
  ac_relinked : relinked N (par t) (sc t) (par t') (sc t') x y w pos;
  ac_new : attrs t' x = (w, rw, loc, len);
  ac_rev : forall k, (1 <= k <= pos)%nat ->
    attrs t' (up (par t) k x) = attrs t (up (par t) (k - 1) x);
  ac_other : forall v, 0 <= v -> (forall k, (k <= pos)%nat -> v <> up (par t) k x) ->
    attrs t' v = attrs t v
}.

(** The ways [add_link] returns. *)
Inductive outcome (N : Z) (t t' : MaxSpanningTree) (a b w rw loc len : Z)
  : bool -> Prop :=
| out_self :
    a = b -> unchanged_links t t' ->
    links_added t' = links_added t -> links_rejected t' = links_rejected t ->
    outcome N t t' a b w rw loc len false
| out_rejected (c : Z) (pa pb : list Z) :
    a <> b -> rootward_paths (par t) a b c pa pb ->
    (forall v, In v (pa ++ pb) -> w <= sc t v) ->
    unchanged_links t t' ->
    links_added t' = links_added t -> links_rejected t' = links_rejected t + 1 ->
    outcome N t t' a b w rw loc len false
| out_accepted_a (c : Z) (pa pb : list Z) (pos : nat) :
    a <> b -> rootward_paths (par t) a b c pa pb ->
    accepted N t t' a b w rw loc len pa pb pos ->
    links_added t' = links_added t + 1 -> links_rejected t' = links_rejected t ->
    outcome N t t' a b w rw loc len true
| out_accepted_b (c : Z) (pa pb : list Z) (pos : nat) :
    a <> b -> rootward_paths (par t) a b c pa pb ->
    accepted N t t' b a w rw loc len pb pa pos ->
    links_added t' = links_added t + 1 -> links_rejected t' = links_rejected t ->
    outcome N t t' a b w rw loc len true.

Lemma prelude_links (t : MaxSpanningTree) (lp a b : Z) :
  unchanged_links t (prelude t lp a b) /\ same_core (with_counters
     (with_max_seen_id t (max_seen_id (prelude t lp a b))) lp (links_added t)
     (links_rejected t)) (prelude t lp a b) /\
  visited_a_indices (prelude t lp a b) = visited_a_indices t /\
  visited_b_indices (prelude t lp a b) = visited_b_indices t /\
  visited_a_search_ids (prelude t lp a b) = visited_a_search_ids t /\
  visited_b_search_ids (prelude t lp a b) = visited_b_search_ids t /\
  max_seen_id t <= max_seen_id (prelude t lp a b).
Proof.
  unfold prelude, unchanged_links, same_core. fields.
  destruct (Z.ltb_spec (max_seen_id t) a); fields;
    match goal with |- context [?m <? b] => destruct (Z.ltb_spec m b) end;
    fields; repeat split; auto; lia.
Qed.

Lemma prelude_wf (N : Z) (t : MaxSpanningTree) (a b : Z) :
  wf N t -> wf N (prelude t (links_processed t + 1) a b).
Proof.
  intros W.
  destruct (prelude_links t (links_processed t + 1) a b)
    as ((L1 & L2 & L3 & L4 & L5) & (C1 & C2 & C3 & C4 & C5 & C6 & C7 & C8 & C9 & C10 & C11)
        & V1 & V2 & V3 & V4 & M).
  fields.
  destruct W as [W1 W2 W3 W4 W5 W6 W7 W8 W9 W10 W11 W12 W13 W14 W15 W16].
  constructor; unfold par, sc in *; rewrite ?L1, ?L2, ?L3, ?L4, ?L5, ?C1, ?C8, ?C9,
    ?C10, ?C11, ?V1, ?V2, ?V3, ?V4; auto; try lia.
  destruct W14 as [S1 S2]. split; [lia|]. intros v Hv. apply S2. lia.
Qed.

(** The builder between [find_meeting_point] and the verdict. *)
Record mid (N : Z) (t t2 : MaxSpanningTree) : Prop := mkMid {
  mid_links : unchanged_links t t2;
  mid_num : num_nodes t2 = N;
  mid_va_idx : vsize (visited_a_indices t2) = N;
  mid_vb_idx : vsize (visited_b_indices t2) = N;
  mid_va_ids : vsize (visited_a_search_ids t2) = N;
  mid_vb_ids : vsize (visited_b_search_ids t2) = N;
  mid_stamps : forall x, 0 <= x < N ->
    at_ (visited_a_search_ids t2) x <= search_id t2 /\
    at_ (visited_b_search_ids t2) x <= search_id t2;
  mid_sid : search_id t2 = search_id t + 1;
  mid_lp : links_processed t2 = links_processed t + 1;
  mid_la : links_added t2 = links_added t;
  mid_lr : links_rejected t2 = links_rejected t;
  mid_seen : seen N t2
}.

Lemma par_links (t t' : MaxSpanningTree) :
  unchanged_links t t' -> par t' = par t /\ sc t' = sc t /\ attrs t' = attrs t.
Proof.
  intros (L1 & L2 & L3 & L4 & L5). unfold par, sc, attrs, sc.
  rewrite L1, L2, L3, L4, L5. auto.
Qed.

Lemma meeting_mid (N : Z) (t : MaxSpanningTree) (a b : Z) (fuel : nat) :
  wf N t -> 0 <= a < N -> 0 <= b < N -> links_processed t < INT_MAX ->
  (Z.to_nat (2 * N) < fuel)%nat ->
  exists t2 c pa pb,
    find_meeting_point fuel (prelude t (links_processed t + 1) a b) a b
      = Ok (Meeting t2 c pa pb) /\
    mid N t t2 /\ rootward_paths (par t) a b c pa pb.
Proof.
  intros W Ha Hb Hlp Hf.
  pose proof (prelude_wf N t a b W) as W1.
  destruct (prelude_links t (links_processed t + 1) a b)
    as (L & (C1 & C2 & C3 & C4 & C5 & C6 & C7 & C8 & C9 & C10 & C11)
        & V1 & V2 & V3 & V4 & M).
  fields.
  set (t1 := prelude t (links_processed t + 1) a b) in *.
  destruct (find_meeting_point_ok N t1 a b fuel W1 Ha Hb) as [m [E K]]; auto.
  { rewrite C11. destruct (wf_counts N t W). lia. }
  destruct m as [t2 c pa pb|]; [|destruct K].
  exists t2, c, pa, pb. split; [exact E|].
  destruct K as ((D1 & D2 & D3 & D4 & D5 & D6 & D7 & D8 & D9 & D10 & D11)
                 & (Z1 & Z2 & Z3 & Z4) & ST & K1 & K2 & K3 & K4 & K5 & K6 & K7).
  fields.
  destruct (par_links t t1 L) as (P1 & P2 & P3).
  assert (P : par (with_search_id t1 (search_id t1 + 1)) = par t) by exact P1.
  rewrite P in *.
  destruct L as (L1 & L2 & L3 & L4 & L5).
  split.
  - constructor; auto; try lia.
    + unfold unchanged_links. rewrite D3, D4, D5, D6, D7. auto.
    + rewrite D1. exact (wf_num N t1 W1).
    + rewrite D11. exact ST.
    + pose proof (wf_seen N t1 W1) as [S1 S2]. unfold seen, sc in *.
      rewrite D2, D4. auto.
  - constructor; auto.
Qed.

Lemma mid_link_sizes (N : Z) (t t2 : MaxSpanningTree) :
  wf N t -> mid N t t2 -> link_sizes N t2.
Proof.
  intros W M. destruct (mid_links N t t2 M) as (L1 & L2 & L3 & L4 & L5).
  unfold link_sizes. rewrite L1, L2, L3, L4, L5. now destruct W.
Qed.

Lemma relink_step (N : Z) (t t2 : MaxSpanningTree) (x y c : Z) (px py : list Z)
    (w rw loc len : Z) (pos : nat) :
  wf N t -> mid N t t2 -> 0 <= x < N -> 0 <= y < N ->
  rootward_paths (par t) x y c px py -> (pos < length px)%nat ->
  links_processed t < INT_MAX ->
  exists t', relink t2 px (Z.of_nat pos) x y w rw loc len = Ok (t', true) /\
    wf N t' /\ links_processed t' = links_processed t + 1 /\
    links_added t' = links_added t + 1 /\ links_rejected t' = links_rejected t /\
    relinked N (par t) (sc t) (par t') (sc t') x y w pos /\
    attrs t' x = (w, rw, loc, len) /\
    (forall k, (1 <= k <= pos)%nat ->
       attrs t' (up (par t) k x) = attrs t (up (par t) (k - 1) x)) /\
    (forall v, 0 <= v -> (forall k, (k <= pos)%nat -> v <> up (par t) k x) ->
       attrs t' v = attrs t v).
Proof.
  intros W M Hx Hy R Hpos Hlp.
  pose proof (mid_link_sizes N t t2 W M) as LS.
  destruct (par_links t t2 (mid_links N t t2 M)) as (P1 & P2 & P3).
  pose proof R as [R1 R2 R3 R4 R5 R6 R7].
  remember (length px) as kx eqn:Ekx.
  remember (length py) as ky eqn:Eky.
  assert (F : forest N (par t)) by exact (wf_forest N t W).
  destruct (relink_ok N t2 x y w rw loc len kx pos LS) as
    [t4 [E [LS4 [SR [SE [RL [A1 [A2 A3]]]]]]]]; auto; try (rewrite P1; auto).
  rewrite P1, P2, P3 in *.
  apply bind_ok in E. destruct E as [t3 [E3 E4]].
  unfold relink. rewrite R1, E3. cbn [bind]. rewrite E4. cbn [bind].
  destruct SR as (Q1 & Q2 & Q3 & Q4 & Q5 & Q6 & Q7 & Q8 & Q9).
  destruct (wf_counts N t W) as (K1 & K2 & K3 & K4).
  unfold incr_ll. rewrite Q3, (mid_la N t t2 M).
  destruct (Z.ltb_spec (links_added t) LLONG_MAX); [|unfold INT_MAX, LLONG_MAX in *; lia].
  cbn [bind]. eexists. split; [reflexivity|].
  set (t' := with_counters t4 (links_processed t4) (links_added t + 1) (links_rejected t4)).
  change (par t') with (par t4). change (sc t') with (sc t4).
  change (attrs t') with (attrs t4).
  assert (FR : forest N (par t4)).
  { apply (relinked_forest N (par t) (sc t) (par t4) (sc t4) x y w c kx ky pos); auto.
    now rewrite <- R1, <- R2. }
  split; [|unfold t'; fields; rewrite Q2, Q4, (mid_lp N t t2 M), (mid_lr N t t2 M);
           repeat (split; auto)].
  destruct LS4 as (S1 & S2 & S3 & S4 & S5).
  constructor; unfold t'; fields; auto.
  - apply (wf_N N t W).
  - rewrite Q1. apply (mid_num N t t2 M).
  - rewrite Q5. apply (mid_va_idx N t t2 M).
  - rewrite Q6. apply (mid_vb_idx N t t2 M).
  - rewrite Q7. apply (mid_va_ids N t t2 M).
  - rewrite Q8. apply (mid_vb_ids N t t2 M).
  - rewrite Q7, Q8, Q9. apply (mid_stamps N t t2 M).
  - apply SE. apply (mid_seen N t t2 M).
  - intros HN0.
    assert (A0 : attrs t4 0 = attrs t 0).
    { apply A3; [lia|]. intros k Hk E0. apply (R5 k); [lia|auto]. }
    destruct (wf_sentinel N t W HN0) as (Z1 & Z2 & Z3 & Z4).
    unfold attrs, sc in *. inversion A0. fields. repeat split; congruence.
  - rewrite Q9, Q2, Q4, (mid_sid N t t2 M), (mid_lp N t t2 M), (mid_lr N t t2 M). lia.
Qed.

Lemma reject_wf (N : Z) (t t2 : MaxSpanningTree) :
  wf N t -> mid N t t2 ->
  wf N (with_counters t2 (links_processed t2) (links_added t2) (links_rejected t2 + 1)).
Proof.
  intros W M. pose proof (mid_links N t t2 M) as (L1 & L2 & L3 & L4 & L5).
  destruct (wf_counts N t W) as (K1 & K2 & K3 & K4).
  destruct M as [_ M2 M3 M4 M5 M6 M7 M8 M9 M10 M11 M12].
  destruct W as [W1 W2 W3 W4 W5 W6 W7 W8 W9 W10 W11 W12 W13 W14 W15 W16].
  constructor; unfold par, sc in *; fields; rewrite ?L1, ?L2, ?L3, ?L4, ?L5; auto.
  - unfold seen, sc in M12. now rewrite L2 in M12.
  - lia.
Qed.

Lemma rootward_range (N : Z) (p : Z -> Z) (a b c : Z) (pa pb : list Z) :
  forest N p -> 0 <= a < N -> 0 <= b < N -> rootward_paths p a b c pa pb ->
  (forall x, In x pa -> 0 <= x < N) /\ (forall x, In x pb -> 0 <= x < N) /\
  vsize pa <= N /\ vsize pb <= N.
Proof.
  intros F Ha Hb [R1 R2 R3 R4 R5 R6 R7].
  split; [|split; [|split]].
  - intros x H. rewrite R1 in H. apply chain_In in H. destruct H as [i [_ ->]].
    now apply up_range.
  - intros x H. rewrite R2 in H. apply chain_In in H. destruct H as [i [_ ->]].
    now apply up_range.
  - pose proof (chain_short N p F a (length pa) Ha R5). unfold vsize. lia.
  - pose proof (chain_short N p F b (length pb) Hb R6). unfold vsize. lia.
Qed.

(** Every call with ids in range returns, in one of the four ways. *)
Lemma add_link_step (N : Z) (t : MaxSpanningTree) (a b w rw loc len : Z) (fuel : nat) :
  wf N t -> 0 <= a < N -> 0 <= b < N -> links_processed t < INT_MAX ->
  (Z.to_nat (2 * N) < fuel)%nat ->
  exists t' r, add_link fuel t a b w rw loc len = Ok (t', r) /\
    wf N t' /\ links_processed t' = links_processed t + 1 /\
    outcome N t t' a b w rw loc len r.
Proof.
  intros W Ha Hb Hlp Hf. rewrite add_link_eq. unfold incr_ll.
  destruct (wf_counts N t W) as (K1 & K2 & K3 & K4).
  destruct (Z.ltb_spec (links_processed t) LLONG_MAX);
    [|unfold INT_MAX, LLONG_MAX in *; lia].
  cbn [bind]. cbv zeta.
  destruct (prelude_links t (links_processed t + 1) a b)
    as (L & (C1 & C2 & C3 & C4 & C5 & C6 & C7 & C8 & C9 & C10 & C11) & _).
  fields.
  destruct (Z.eqb_spec a b) as [Eab|Nab].
  { eexists. eexists. split; [reflexivity|]. split; [now apply prelude_wf|].
    split; [exact C8|]. now apply out_self. }
  destruct (meeting_mid N t a b fuel W Ha Hb Hlp Hf) as [t2 [c [pa [pb [E [M R]]]]]].
  rewrite E. cbn [bind]. unfold after_meeting.
  assert (F : forest N (par t)) by exact (wf_forest N t W).
  destruct (rootward_range N (par t) a b c pa pb F Ha Hb R) as (Ra & Rb & La & Lb).
  pose proof (mid_link_sizes N t t2 W M) as (_ & S2 & _).
  pose proof (wf_N N t W) as HN.
  destruct (find_weakest_ok N t2 pa pb w S2 Ra Rb) as [wk [Ew [Wmin Wk]]]; try lia.
  rewrite Ew. cbn [bind].
  destruct (par_links t t2 (mid_links N t t2 M)) as (P1 & P2 & P3).
  rewrite P2 in *.
  destruct (which_path wk) eqn:Ewk.
  - destruct Wk as [Wlt [j [J1 [J2 J3]]]]. rewrite J2.
    assert (Ej : nth j pa 0 = up (par t) j a).
    { rewrite (rp_a _ _ _ _ _ _ R). now apply chain_nth. }
    rewrite Ej in J3.
    destruct (relink_step N t t2 a b c pa pb w rw loc len j W M Ha Hb R J1 Hlp)
      as [t' [E' [W' [Q1 [Q2 [Q3 [Q4 [Q5 [Q6 Q7]]]]]]]]].
    exists t', true. split; [exact E'|]. split; [exact W'|]. split; [exact Q1|].
    apply (out_accepted_a N t t' a b w rw loc len c pa pb j); auto.
    constructor; auto; rewrite J3; auto.
  - destruct Wk as [Wlt [j [J1 [J2 J3]]]]. rewrite J2.
    assert (Ej : nth j pb 0 = up (par t) j b).
    { rewrite (rp_b _ _ _ _ _ _ R). now apply chain_nth. }
    rewrite Ej in J3.
    destruct (relink_step N t t2 b a c pb pa w rw loc len j W M Hb Ha
                (rootward_sym _ _ _ _ _ _ R) J1 Hlp)
      as [t' [E' [W' [Q1 [Q2 [Q3 [Q4 [Q5 [Q6 Q7]]]]]]]]].
    exists t', true. split; [exact E'|]. split; [exact W'|]. split; [exact Q1|].
    apply (out_accepted_b N t t' a b w rw loc len c pa pb j); auto.
    constructor; auto; rewrite J3; auto.
    intros v Hv. apply Wmin. apply in_app_iff. apply in_app_iff in Hv. tauto.
  - unfold incr_ll. rewrite (mid_lr N t t2 M).
    destruct (Z.ltb_spec (links_rejected t) LLONG_MAX);
      [|unfold INT_MAX, LLONG_MAX in *; lia].
    cbn [bind]. eexists. eexists. split; [reflexivity|].
    rewrite <- (mid_lr N t t2 M).
    split; [now apply (reject_wf N t t2)|]. fields.
    split; [apply (mid_lp N t t2 M)|].
    apply (out_rejected N t _ a b w rw loc len c pa pb); fields; auto.
    + intros v Hv. rewrite <- Wk. now apply Wmin.
    + apply (mid_links N t t2 M).
    + apply (mid_la N t t2 M).
    + now rewrite (mid_lr N t t2 M).
Qed.

(** ** Sequences of calls *)

(** The arguments of one [add_link] call. *)
Record link : Type := mkLink {
  link_a : Z;
  link_b : Z;
  link_score : Z;
  link_raw_score : Z;
  link_location : Z;
  link_length : Z
}.

Definition offer (fuel : nat) (t : MaxSpanningTree) (e : link)
  : res (MaxSpanningTree * bool) :=
  add_link fuel t (link_a e) (link_b e) (link_score e) (link_raw_score e)
           (link_location e) (link_length e).

(** Fuel that lets [find_meeting_point] finish on a builder of
    capacity [N]. *)
Definition enough (N : Z) : nat := S (Z.to_nat (2 * N)).

(** The calls [es] made one after the other. *)
Fixpoint add_links (t : MaxSpanningTree) (es : list link) : res MaxSpanningTree :=
  match es with
  | [] => Ok t
  | e :: rest =>
      r <- offer (enough (num_nodes t)) t e ;;
      add_links (fst r) rest
  end.

(** A fresh builder of capacity [n] fed the calls [es]. *)
Definition build (n : Z) (es : list link) : res MaxSpanningTree :=
  t <- new_tree n ;; add_links t es.

Definition in_range (N : Z) (e : link) : Prop :=
  0 <= link_a e < N /\ 0 <= link_b e < N.

Definition self_loops (es : list link) : Z :=
  Z.of_nat (length (filter (fun e => link_a e =? link_b e) es)).

(** What holds of the builder after the calls [h]. *)
Record inv (N : Z) (h : list link) (t : MaxSpanningTree) : Prop := mkInv {
  inv_wf : wf N t;
  inv_processed : links_processed t = Z.of_nat (length h);
  inv_counters : links_added t + links_rejected t + self_loops h = links_processed t;
  inv_joined : forall e, In e h ->
    joined N (par t) (sc t) (link_score e) (link_a e) (link_b e)
}.

Lemma outcome_joined (N : Z) (t t' : MaxSpanningTree) (a b w rw loc len : Z) (r : bool) :
  wf N t -> 0 <= a < N -> 0 <= b < N -> outcome N t t' a b w rw loc len r ->
  (forall w0 u v, joined N (par t) (sc t) w0 u v -> joined N (par t') (sc t') w0 u v) /\
  joined N (par t') (sc t') w a b.
Proof.
  intros W Ha Hb O. pose proof (wf_forest N t W) as F.
  destruct O as [E L _ _|c pa pb Nab R Hw L _ _|c pa pb pos Nab R A _ _
                 |c pa pb pos Nab R A _ _].
  - destruct (par_links t t' L) as (P1 & P2 & _). rewrite P1, P2.
    split; [auto|]. subst b. apply joined_refl.
  - destruct (par_links t t' L) as (P1 & P2 & _). rewrite P1, P2.
    split; [auto|]. destruct R as [R1 R2 R3 R4 R5 R6 R7].
    apply joined_trans with (v := c).
    + rewrite <- R3. apply joined_walk; auto; [apply (forest_closed N (par t) F)|].
      intros i Hi. apply Hw. apply in_app_iff. left. rewrite R1.
      apply chain_In. now exists i.
    + apply joined_sym. rewrite <- R4.
      apply joined_walk; auto; [apply (forest_closed N (par t) F)|].
      intros i Hi. apply Hw. apply in_app_iff. right. rewrite R2.
      apply chain_In. now exists i.
  - destruct R as [R1 R2 R3 R4 R5 R6 R7]. destruct A as [A1 A2 A3 A4 _ _ _].
    assert (D : disjoint (chain (par t) a (length pa)) (chain (par t) b (length pb))).
    { now rewrite <- R1, <- R2. }
    split.
    + apply (relinked_joined N (par t) (sc t) (par t') (sc t') a b w c
               (length pa) (length pb) pos); auto.
      * intros i Hi. apply A3. apply in_app_iff. left. rewrite R1.
        apply chain_In. now exists i.
      * intros i Hi. apply A3. apply in_app_iff. right. rewrite R2.
        apply chain_In. now exists i.
    + apply (relinked_new N (par t) (sc t) (par t') (sc t') a b w (length pa) pos); auto.
  - destruct R as [R1 R2 R3 R4 R5 R6 R7]. destruct A as [A1 A2 A3 A4 _ _ _].
    assert (D : disjoint (chain (par t) b (length pb)) (chain (par t) a (length pa))).
    { rewrite <- R1, <- R2. intros x H1 H2. exact (R7 x H2 H1). }
    split.
    + apply (relinked_joined N (par t) (sc t) (par t') (sc t') b a w c
               (length pb) (length pa) pos); auto.
      * intros i Hi. apply A3. apply in_app_iff. left. rewrite R2.
        apply chain_In. now exists i.
      * intros i Hi. apply A3. apply in_app_iff. right. rewrite R1.
        apply chain_In. now exists i.
    + apply joined_sym.
      apply (relinked_new N (par t) (sc t) (par t') (sc t') b a w (length pb) pos); auto.
Qed.

Lemma self_loops_app (h : list link) (e : link) :
  self_loops (h ++ [e]) = self_loops h + (if link_a e =? link_b e then 1 else 0).
Proof.
  unfold self_loops. rewrite filter_app, length_app. cbn.
  destruct (link_a e =? link_b e); cbn; lia.
Qed.

Lemma offer_step (N : Z) (h : list link) (t : MaxSpanningTree) (e : link) :
  inv N h t -> in_range N e -> Z.of_nat (length h) < INT_MAX ->
  exists t' r, offer (enough N) t e = Ok (t', r) /\ inv N (h ++ [e]) t' /\
    outcome N t t' (link_a e) (link_b e) (link_score e) (link_raw_score e)
            (link_location e) (link_length e) r.
Proof.
  intros [W P C J] [Ha Hb] Hl. unfold offer.
  destruct (add_link_step N t (link_a e) (link_b e) (link_score e) (link_raw_score e)
              (link_location e) (link_length e) (enough N) W Ha Hb)
    as [t' [r [E [W' [P' O]]]]].
  { lia. }
  { unfold enough. lia. }
  exists t', r. split; [exact E|]. split; [|exact O].
  destruct (outcome_joined N t t' _ _ _ _ _ _ r W Ha Hb O) as [J1 J2].
  constructor; auto.
  - rewrite P', P, length_app. cbn. lia.
  - rewrite self_loops_app, P', <- C.
    destruct O as [E1 _ Q1 Q2|c pa pb Nab _ _ _ Q1 Q2|c pa pb pos Nab _ _ Q1 Q2
                   |c pa pb pos Nab _ _ Q1 Q2]; rewrite Q1, Q2;
      destruct (Z.eqb_spec (link_a e) (link_b e)); try contradiction; lia.
  - intros e' He'. apply in_app_iff in He'. destruct He' as [He'|[<-|[]]]; auto.
Qed.

Lemma add_links_inv (N : Z) (es h : list link) (t : MaxSpanningTree) :
  inv N h t -> Forall (in_range N) es ->
  Z.of_nat (length h) + Z.of_nat (length es) <= INT_MAX ->
  exists t', add_links t es = Ok t' /\ inv N (h ++ es) t'.
Proof.
  revert h t. induction es as [|e es IH]; intros h t I R L.
  - exists t. rewrite app_nil_r. auto.
  - inversion R as [|? ? Re Res]; subst. cbn [length] in L.
    destruct (offer_step N h t e I Re) as [t' [r [E [I' _]]]]; [lia|].
    cbn [add_links]. rewrite (wf_num N t (inv_wf N h t I)), E. cbn [bind fst].
    destruct (IH (h ++ [e]) t' I' Res) as [t'' [E'' I'']].
    { rewrite length_app. cbn. lia. }
    exists t''. split; [exact E''|]. now rewrite <- app_assoc in I''.
Qed.

(** Running the calls never faults, and the invariant holds at the end. *)
Lemma build_inv (n : Z) (es : list link) :
  0 <= n <= INT_MAX -> Forall (in_range n) es -> Z.of_nat (length es) <= INT_MAX ->
  exists t, build n es = Ok t /\ inv n es t.
Proof.
  intros Hn R L. unfold build.
  destruct (new_tree_wf n Hn) as [t0 [E0 W0]]. rewrite E0. cbn [bind].
  apply (add_links_inv n es [] t0); auto.
  constructor; auto.
  - unfold new_tree in E0. destruct (n <? 0); inversion E0. reflexivity.
  - unfold new_tree in E0. destruct (n <? 0); inversion E0. reflexivity.
  - intros e [].
Qed.

(** ** The properties of the builder *)

Lemma build_reached (n : Z) (es : list link) (t : MaxSpanningTree) :
  0 <= n <= INT_MAX -> Forall (in_range n) es -> Z.of_nat (length es) <= INT_MAX ->
  build n es = Ok t -> inv n es t.
Proof.
  intros Hn R L E. destruct (build_inv n es Hn R L) as [t0 [E0 I]].
  rewrite E in E0. inversion E0. now subst.
Qed.

(** C1, maximality.  A fresh builder of capacity [n] is fed any calls
    [es] with ids in range (at most [INT_MAX] of them: beyond that the
    [int] [search_id] overflows).  The calls all return, and afterwards,
    for every link [e] that was offered with two different ends, every
    link [x -> parents[x]] on the tree path between the ends of [e] has
    [scores[x] >= ] the score of [e].  A node without a link counts with
    its placeholder score [-1], so the statement needs no assumption
    that the ends are connected. *)
Theorem maximality (n : Z) (es : list link) :
  0 <= n <= INT_MAX -> Forall (in_range n) es -> Z.of_nat (length es) <= INT_MAX ->
  exists t, build n es = Ok t /\
    forall e, In e es -> link_a e <> link_b e ->
    forall x, on_tree_path (par t) (link_a e) (link_b e) x ->
    link_score e <= sc t x.
Proof.
  intros Hn R L. destruct (build_inv n es Hn R L) as [t [E I]].
  exists t. split; [exact E|]. intros e He _ x Hx.
  apply (joined_tree_path n (par t) (sc t) (link_score e) (link_a e) (link_b e)); auto.
  now apply (inv_joined n es t I).
Qed.

(** C2, forest invariant.  After any calls with ids in range, the walk
    [v -> parents[v]] from every node [v] of the builder (attached or
    not) stands on node [0], or on a node that is its own parent,
    after at most [n] steps.  Since [es] is any sequence, every single
    [add_link] keeps the property. *)
Theorem forest_invariant (n : Z) (es : list link) :
  0 <= n <= INT_MAX -> Forall (in_range n) es -> Z.of_nat (length es) <= INT_MAX ->
  exists t, build n es = Ok t /\
    forall v, 0 <= v < n ->
    exists k, Z.of_nat k <= n /\
      (up (par t) k v = 0 \/ par t (up (par t) k v) = up (par t) k v).
Proof.
  intros Hn R L. destruct (build_inv n es Hn R L) as [t [E I]].
  exists t. split; [exact E|]. intros v Hv.
  destruct (depth_exists n (par t) (wf_forest n t (inv_wf n es t I)) v Hv)
    as [d [D1 [_ D2]]].
  exists d. split; [lia|now left].
Qed.

Lemma add_links_app (t : MaxSpanningTree) (es1 es2 : list link) :
  add_links t (es1 ++ es2) = (t1 <- add_links t es1 ;; add_links t1 es2).
Proof.
  revert t. induction es1 as [|e es1 IH]; intros t; cbn [add_links app bind]; auto.
  destruct (offer (enough (num_nodes t)) t e) as [r|f]; cbn [bind]; auto.
Qed.

Lemma build_snoc (n : Z) (es : list link) (e : link) (t t' : MaxSpanningTree) (r : bool) :
  build n es = Ok t -> num_nodes t = n -> offer (enough n) t e = Ok (t', r) ->
  build n (es ++ [e]) = Ok t'.
Proof.
  unfold build. intros E Hn E'.
  destruct (new_tree n) as [t0|]; cbn [bind] in *; [|discriminate].
  rewrite add_links_app, E. cbn [bind add_links]. rewrite Hn, E'. reflexivity.
Qed.

(** C5, counter law.  After the calls [es], [links_added +
    links_rejected + (number of calls with a == b) = links_processed],
    which is the number of calls, and the counters are not negative.
    One more call [e] returns, adds one to [links_processed], lowers
    neither of the other two, and when its two ends differ it adds one
    to exactly one of [links_added] and [links_rejected]: the
    [return false] after [find_meeting_point] is never taken. *)
Theorem counter_law (n : Z) (es : list link) (e : link) :
  0 <= n <= INT_MAX -> Forall (in_range n) es -> in_range n e ->
  Z.of_nat (length es) < INT_MAX ->
  exists t t' r, build n es = Ok t /\ offer (enough n) t e = Ok (t', r) /\
    build n (es ++ [e]) = Ok t' /\
    links_added t + links_rejected t + self_loops es = links_processed t /\
    links_processed t = Z.of_nat (length es) /\
    0 <= links_added t /\ 0 <= links_rejected t /\
    links_processed t' = links_processed t + 1 /\
    links_added t <= links_added t' /\ links_rejected t <= links_rejected t' /\
    (link_a e <> link_b e ->
       (links_added t' = links_added t + 1 /\ links_rejected t' = links_rejected t) \/
       (links_added t' = links_added t /\ links_rejected t' = links_rejected t + 1)).
Proof.
  intros Hn R Re L. destruct (build_inv n es Hn R) as [t [E I]]; [lia|].
  destruct (offer_step n es t e I Re L) as [t' [r [E' [I' O]]]].
  exists t, t', r. split; [exact E|]. split; [exact E'|].
  pose proof (inv_wf n es t I) as W.
  split; [apply (build_snoc n es e t t' r E (wf_num n t W) E')|].
  split; [apply (inv_counters n es t I)|].
  split; [apply (inv_processed n es t I)|].
  destruct (wf_counts n t W) as (_ & K2 & K3 & _).
  split; [exact K2|]. split; [exact K3|].
  split.
  { rewrite (inv_processed _ _ _ I'), (inv_processed _ _ _ I), length_app. cbn. lia. }
  destruct O as [E1 _ Q1 Q2|c pa pb Nab _ _ _ Q1 Q2|c pa pb pos Nab _ _ Q1 Q2
                 |c pa pb pos Nab _ _ Q1 Q2]; rewrite Q1, Q2;
    (split; [lia|]); (split; [lia|]); intros Hne; try contradiction; auto.
Qed.

(** The first loop of [find_root]: the candidate roots. *)
Definition root_candidates (t : MaxSpanningTree) : list Z :=
  let limit := Z.min (max_seen_id t + 1) (num_nodes t) in
  filter (fun i => (sc t i <? 0) || (par t i =? i))
         (map Z.of_nat (seq 0 (Z.to_nat limit))).

(** C10, sentinel root.  After any calls with ids in range, node [0]
    still has [parents[0] == 0] and the attributes [-1] the constructor
    gave it, no other node is its own parent, and so the test
    [parents[i] == i] of [find_root] selects no node but [0]. *)
Theorem sentinel_root (n : Z) (es : list link) :
  0 < n <= INT_MAX -> Forall (in_range n) es -> Z.of_nat (length es) <= INT_MAX ->
  exists t, build n es = Ok t /\
    at_ (parents t) 0 = 0 /\ at_ (scores t) 0 = -1 /\
    at_ (raw_scores t) 0 = -1 /\ at_ (locations t) 0 = -1 /\
    at_ (lengths t) 0 = -1 /\
    (forall v, 1 <= v < n -> at_ (parents t) v <> v) /\
    (forall i, In i (root_candidates t) -> par t i = i -> i = 0).
Proof.
  intros Hn R L. destruct (build_inv n es) as [t [E I]]; auto; [lia|].
  exists t. split; [exact E|].
  pose proof (inv_wf n es t I) as W. pose proof (wf_forest n t W) as F.
  destruct (wf_sentinel n t W) as (Z1 & Z2 & Z3 & Z4); [lia|].
  split; [apply (forest_root n (par t) F)|].
  repeat (split; [assumption|]).
  split.
  - intros v Hv Es. assert (v = 0); [|lia].
    apply (forest_no_self n (par t) F v); [lia|exact Es].
  - intros i Hi Es. unfold root_candidates in Hi. apply filter_In in Hi.
    destruct Hi as [Hi _]. apply in_map_iff in Hi. destruct Hi as [j [<- Hj]].
    apply in_seq in Hj. rewrite (wf_num n t W) in Hj.
    apply (forest_no_self n (par t) F); [lia|exact Es].
Qed.

(** C4, rejection condition.  On a builder [t] reached by calls with
    ids in range, a call with two different ends in range returns,
    and [pa], [pb] being the two root-ward paths from its ends up to
    the meeting node [c] (they hold exactly the links of the tree path
    between the ends), it returns [false] and adds one to
    [links_rejected] if and only if no link of the two paths has a
    score strictly below the new one.  So it is rejected as soon as
    every incumbent scores at least as much: the new link loses ties. *)
Theorem rejection_condition (n : Z) (es : list link) (t : MaxSpanningTree) (e : link) :
  0 <= n <= INT_MAX -> Forall (in_range n) es -> in_range n e ->
  Z.of_nat (length es) < INT_MAX -> build n es = Ok t ->
  link_a e <> link_b e ->
  exists t' r c pa pb,
    offer (enough n) t e = Ok (t', r) /\
    rootward_paths (par t) (link_a e) (link_b e) c pa pb /\
    (forall x, In x (pa ++ pb) <-> on_tree_path (par t) (link_a e) (link_b e) x) /\
    ((r = false /\ links_rejected t' = links_rejected t + 1) <->
     (forall x, In x (pa ++ pb) -> ~ sc t x < link_score e)) /\
    (r = false <-> (forall x, In x (pa ++ pb) -> ~ sc t x < link_score e)) /\
    ((forall x, In x (pa ++ pb) -> link_score e <= sc t x) -> r = false).
Proof.
  intros Hn R Re L E Nab.
  assert (I : inv n es t) by (apply build_reached; auto; lia).
  destruct (offer_step n es t e I Re L) as [t' [r [E' [_ O]]]].
  pose proof (wf_forest n t (inv_wf n es t I)) as F.
  destruct Re as [Ha Hb].
  assert (K : forall c pa pb, rootward_paths (par t) (link_a e) (link_b e) c pa pb ->
              forall x, In x (pa ++ pb) <-> on_tree_path (par t) (link_a e) (link_b e) x).
  { intros c pa pb Rp x. now apply (rootward_tree_path n (par t) _ _ c). }
  destruct O as [E1 _ _ _|c pa pb _ Rp Hw _ _ Q2|c pa pb pos _ Rp A _ _
                 |c pa pb pos _ Rp A _ _]; [contradiction| | |].
  - exists t', false, c, pa, pb. split; [exact E'|]. split; [exact Rp|].
    split; [now apply (K c)|].
    assert (G : forall x, In x (pa ++ pb) -> ~ sc t x < link_score e).
    { intros x Hx. specialize (Hw x Hx). lia. }
    repeat split; auto.
  - assert (B : ~ forall x, In x (pa ++ pb) -> ~ sc t x < link_score e).
    { intros G. apply (G (up (par t) pos (link_a e))); [|apply (ac_weak _ _ _ _ _ _ _ _ _ _ _ _ A)].
      apply in_app_iff. left. rewrite (rp_a _ _ _ _ _ _ Rp). apply chain_In.
      exists pos. split; [apply (ac_pos _ _ _ _ _ _ _ _ _ _ _ _ A)|auto]. }
    exists t', true, c, pa, pb. split; [exact E'|]. split; [exact Rp|].
    split; [now apply (K c)|].
    split; [split; [intros [D _]; discriminate|intros G; now destruct B]|].
    split; [split; [discriminate|intros G; now destruct B]|].
    intros G. destruct B. intros x Hx. specialize (G x Hx). lia.
  - assert (B : ~ forall x, In x (pa ++ pb) -> ~ sc t x < link_score e).
    { intros G. apply (G (up (par t) pos (link_b e))); [|apply (ac_weak _ _ _ _ _ _ _ _ _ _ _ _ A)].
      apply in_app_iff. right. rewrite (rp_b _ _ _ _ _ _ Rp). apply chain_In.
      exists pos. split; [apply (ac_pos _ _ _ _ _ _ _ _ _ _ _ _ A)|auto]. }
    exists t', true, c, pa, pb. split; [exact E'|]. split; [exact Rp|].
    split; [now apply (K c)|].
    split; [split; [intros [D _]; discriminate|intros G; now destruct B]|].
    split; [split; [discriminate|intros G; now destruct B]|].
    intros G. destruct B. intros x Hx. specialize (G x Hx). lia.
Qed.

(** *** What a call that returns [false] leaves alone, on any builder *)

Definition tree_of (m : meeting) : MaxSpanningTree :=
  match m with
  | Meeting t _ _ _ => t
  | NoMeeting t _ _ => t
  end.

Definition step_tree (r : walk + meeting) : MaxSpanningTree :=
  match r with
  | inl w => w_tree w
  | inr m => tree_of m
  end.

Lemma unchanged_links_refl (t : MaxSpanningTree) : unchanged_links t t.
Proof. unfold unchanged_links. tauto. Qed.

Lemma unchanged_links_trans (t1 t2 t3 : MaxSpanningTree) :
  unchanged_links t1 t2 -> unchanged_links t2 t3 -> unchanged_links t1 t3.
Proof. unfold unchanged_links. intuition congruence. Qed.

Lemma walk_a_links (w : walk) (r : walk + meeting) :
  walk_a w = Ok r -> unchanged_links (w_tree w) (step_tree r).
Proof.
  unfold walk_a. destruct (a_active w).
  2:{ intros H. inversion H. apply unchanged_links_refl. }
  intros H. inv_bind H.
  destruct (x =? search_id (w_tree w)).
  - inv_bind H. inversion H. apply unchanged_links_refl.
  - inv_bind H. inv_bind H.
    destruct (current_a w =? 0).
    + inversion H. cbn. unfold unchanged_links. cbn. tauto.
    + inv_bind H. inversion H. cbn. unfold unchanged_links. cbn. tauto.
Qed.

Lemma walk_b_links (w : walk) (r : walk + meeting) :
  walk_b w = Ok r -> unchanged_links (w_tree w) (step_tree r).
Proof.
  rewrite walk_b_swap. intros H. inv_bind H. inversion H.
  apply walk_a_links in E. destruct x as [w'|[t c pa pb|t pa pb]]; exact E.
Qed.

Lemma walk_loop_links (fuel : nat) (w : walk) (m : meeting) :
  walk_loop fuel w = Ok m -> unchanged_links (w_tree w) (tree_of m).
Proof.
  revert w. induction fuel as [|fuel IH]; intros w H; [discriminate|].
  cbn [walk_loop] in H. inv_bind H. apply walk_a_links in E.
  destruct x as [w1|m1]; [|inversion H; now subst].
  inv_bind H. apply walk_b_links in E0.
  destruct x as [w2|m2]; [|inversion H; subst; eapply unchanged_links_trans; eauto].
  cbn in E, E0.
  destruct (negb (a_active w2) && negb (b_active w2)).
  - inversion H. cbn. eapply unchanged_links_trans; eauto.
  - apply IH in H. eapply unchanged_links_trans; [|exact H].
    eapply unchanged_links_trans; eauto.
Qed.

Lemma relink_true (t t' : MaxSpanningTree) (path : list Z) (pos x y w rw loc len : Z)
    (r : bool) :
  relink t path pos x y w rw loc len = Ok (t', r) -> r = true.
Proof.
  unfold relink. intros H. inv_bind H. inv_bind H. inv_bind H. now inversion H.
Qed.

(** A call that returns [false] has written none of the five link
    arrays, whatever the builder it ran on. *)
Lemma add_link_false_unchanged (fuel : nat) (t t' : MaxSpanningTree)
    (a b w rw loc len : Z) :
  add_link fuel t a b w rw loc len = Ok (t', false) -> unchanged_links t t'.
Proof.
  rewrite add_link_eq. intros H. inv_bind H. cbv zeta in H.
  destruct (prelude_links t x a b) as (L & _).
  destruct (a =? b); [inversion H; now subst|].
  inv_bind H. unfold find_meeting_point in E0. inv_bind E0.
  apply walk_loop_links in E0. cbn [w_tree] in E0.
  assert (L1 : unchanged_links t (tree_of x0)).
  { eapply unchanged_links_trans; [exact L|]. exact E0. }
  destruct x0 as [t2 c pa pb|t2 pa pb]; cbn [tree_of] in L1; [|inversion H; now subst].
  unfold after_meeting in H. inv_bind H.
  destruct (which_path x0).
  - apply relink_true in H. discriminate.
  - apply relink_true in H. discriminate.
  - inv_bind H. inversion H. subst. exact L1.
Qed.

(** *** The three outcomes *)

(** The tree holds a link between [u] and [v] with the attributes
    [q], stored at one of its two ends. *)
Definition has_link (t : MaxSpanningTree) (u v : Z) (q : Z * Z * Z * Z) : Prop :=
  (par t u = v /\ attrs t u = q) \/ (par t v = u /\ attrs t v = q).

(** The call put its link in the place of the one stored at [d], the
    weakest of the tree path between its ends; every other link of
    the old tree is a link of the new one. *)
Definition displaces (N : Z) (t t' : MaxSpanningTree) (e : link) (d : Z) : Prop :=
  on_tree_path (par t) (link_a e) (link_b e) d /\
  sc t d < link_score e /\
  (forall v, on_tree_path (par t) (link_a e) (link_b e) v -> sc t d <= sc t v) /\
  has_link t' (link_a e) (link_b e)
    (link_score e, link_raw_score e, link_location e, link_length e) /\
  (forall v, 0 <= v < N -> v <> d -> has_link t' v (par t v) (attrs t v)).

Definition rejected (t t' : MaxSpanningTree) (r : bool) : Prop :=
  r = false /\ unchanged_links t t'.

(** Accepted, and the displaced slot held no link (score [-1]). *)
Definition accepted_new (N : Z) (t t' : MaxSpanningTree) (e : link) (r : bool) : Prop :=
  r = true /\ exists d, displaces N t t' e d /\ sc t d < 0.

(** Accepted, and a link of the tree was displaced. *)
Definition accepted_replacing (N : Z) (t t' : MaxSpanningTree) (e : link) (r : bool)
  : Prop :=
  r = true /\ exists d, displaces N t t' e d /\ 0 <= sc t d.

Definition exactly_one (P Q R : Prop) : Prop :=
  (P /\ ~ Q /\ ~ R) \/ (~ P /\ Q /\ ~ R) \/ (~ P /\ ~ Q /\ R).

Lemma on_tree_path_sym (p : Z -> Z) (a b x : Z) :
  on_tree_path p a b x <-> on_tree_path p b a x.
Proof. unfold on_tree_path. tauto. Qed.

Lemma accepted_displaces (N : Z) (t t' : MaxSpanningTree) (x y c : Z)
    (px py : list Z) (w rw loc len : Z) (pos : nat) :
  forest N (par t) -> 0 <= x < N -> 0 <= y < N ->
  rootward_paths (par t) x y c px py ->
  accepted N t t' x y w rw loc len px py pos ->
  let d := up (par t) pos x in
  on_tree_path (par t) x y d /\ sc t d < w /\
  (forall v, on_tree_path (par t) x y v -> sc t d <= sc t v) /\
  (par t' x = y /\ attrs t' x = (w, rw, loc, len)) /\
  (forall v, 0 <= v < N -> v <> d -> has_link t' v (par t v) (attrs t v)).
Proof.
  intros F Hx Hy R [A1 A2 A3 A4 A5 A6 A7] d.
  pose proof (rootward_tree_path N (par t) x y c px py) as K.
  assert (Hd : In d (px ++ py)).
  { apply in_app_iff. left. rewrite (rp_a _ _ _ _ _ _ R). apply chain_In.
    now exists pos. }
  split; [now apply K|]. split; [exact A2|].
  split; [intros v Hv; apply A3; now apply K|].
  split; [split; [apply (rl_new _ _ _ _ _ _ _ _ _ A4)|exact A5]|].
  intros v Hv Hne.
  destruct (prefix_dec (par t) x (length px) pos A1 v) as [[k [Hk ->]]|O].
  - right. assert (k <> pos) by (intros ->; now apply Hne).
    destruct (rl_rev _ _ _ _ _ _ _ _ _ A4 (S k)) as [E _]; [lia|].
    specialize (A6 (S k)). replace (S k - 1)%nat with k in * by lia.
    split; [exact E|apply A6; lia].
  - left. destruct (rl_other _ _ _ _ _ _ _ _ _ A4 v Hv O) as [E _].
    split; [exact E|apply A7; [lia|exact O]].
Qed.

Lemma displaces_same_score (N : Z) (t t' : MaxSpanningTree) (e : link) (d d' : Z) :
  displaces N t t' e d -> displaces N t t' e d' -> sc t d = sc t d'.
Proof.
  intros (D1 & _ & D3 & _) (D1' & _ & D3' & _).
  specialize (D3 d' D1'). specialize (D3' d D1). lia.
Qed.

(** C7, atomicity of rejection.  First part: whenever [add_link]
    returns [false], on any builder and for any arguments, the arrays
    [parents], [scores], [raw_scores], [locations] and [lengths] are
    what they were before the call.  Second part: on a builder reached
    by calls with ids in range, a call with ids in range returns, in
    exactly one of three ways: rejected (the five arrays unchanged),
    accepted-new (its link is in the tree, in a slot that held no
    link, and all earlier links are kept) or accepted-replacing (its
    link is in the tree in place of the weakest link of the tree path
    between its ends, and all other links are kept). *)
Theorem rejection_atomic :
  (forall fuel t t' a b w rw loc len,
     add_link fuel t a b w rw loc len = Ok (t', false) -> unchanged_links t t') /\
  (forall n es t e,
     0 <= n <= INT_MAX -> Forall (in_range n) es -> in_range n e ->
     Z.of_nat (length es) < INT_MAX -> build n es = Ok t ->
     exists t' r, offer (enough n) t e = Ok (t', r) /\
       exactly_one (rejected t t' r) (accepted_new n t t' e r)
                   (accepted_replacing n t t' e r)).
Proof.
  split; [intros; eapply add_link_false_unchanged; eauto|].
  intros n es t e Hn R Re L E.
  assert (I : inv n es t) by (apply build_reached; auto; lia).
  destruct (offer_step n es t e I Re L) as [t' [r [E' [_ O]]]].
  pose proof (wf_forest n t (inv_wf n es t I)) as F.
  destruct Re as [Ha Hb].
  exists t', r. split; [exact E'|].
  assert (X : forall d, displaces n t t' e d ->
                (sc t d < 0 -> exactly_one (rejected t t' true) (accepted_new n t t' e true)
                                 (accepted_replacing n t t' e true)) /\
                (0 <= sc t d -> exactly_one (rejected t t' true) (accepted_new n t t' e true)
                                 (accepted_replacing n t t' e true))).
  { intros d D. split; intros Hd.
    - right. left. split; [intros [? _]; discriminate|].
      split; [split; [auto|now exists d]|].
      intros [_ [d' [D' Hd']]]. rewrite (displaces_same_score n t t' e d d') in Hd; auto. lia.
    - right. right. split; [intros [? _]; discriminate|].
      split; [|split; [auto|now exists d]].
      intros [_ [d' [D' Hd']]]. rewrite (displaces_same_score n t t' e d d') in Hd; auto. lia. }
  destruct O as [E1 U _ _|c pa pb _ Rp Hw U _ Q2|c pa pb pos _ Rp A _ _
                 |c pa pb pos _ Rp A _ _].
  - left. split; [split; auto|]. split; intros [? _]; discriminate.
  - left. split; [split; auto|]. split; intros [? _]; discriminate.
  - destruct (accepted_displaces n t t' _ _ c pa pb _ _ _ _ pos F Ha Hb Rp A)
      as (D1 & D2 & D3 & D4 & D5).
    assert (D : displaces n t t' e (up (par t) pos (link_a e))).
    { split; [exact D1|]. split; [exact D2|]. split; [exact D3|].
      split; [now left|exact D5]. }
    destruct (X _ D) as [X1 X2].
    destruct (Z_lt_le_dec (sc t (up (par t) pos (link_a e))) 0); auto.
  - destruct (accepted_displaces n t t' _ _ c pb pa _ _ _ _ pos F Hb Ha
                (rootward_sym _ _ _ _ _ _ Rp) A) as (D1 & D2 & D3 & D4 & D5).
    assert (D : displaces n t t' e (up (par t) pos (link_b e))).
    { split; [now apply on_tree_path_sym|]. split; [exact D2|].
      split; [intros v Hv; apply D3; now apply on_tree_path_sym|].
      split; [now right|exact D5]. }
    destruct (X _ D) as [X1 X2].
    destruct (Z_lt_le_dec (sc t (up (par t) pos (link_b e))) 0); auto.
Qed.

(** *** A concrete run *)

(** Capacity 5; the links [(1,2,5)], [(2,3,20)], then [(1,3,10)],
    which closes the cycle 1-2-3 and displaces [(1,2,5)]. *)
Definition two_links : list link :=
  [mkLink 1 2 5 5 0 0; mkLink 2 3 20 20 0 0].

Definition closing_link : link := mkLink 1 3 10 10 0 0.

Definition three_links : list link := two_links ++ [closing_link].

Lemma maximality_witness :
  exists t, build 5 three_links = Ok t /\ 10 <= sc t 1.
Proof.
  destruct (maximality 5 three_links) as [t [E H]].
  - unfold INT_MAX. lia.
  - repeat constructor; cbn; lia.
  - cbn. unfold INT_MAX. lia.
  - exists t. split; [exact E|].
    apply (H closing_link).
    + cbn. auto.
    + cbn. lia.
    + vm_compute in E. inversion E. left. split.
      * exists 0%nat. reflexivity.
      * intros [k Hk]. destruct k as [|k]; [discriminate|].
        rewrite up_S_r in Hk. rewrite up_fix in Hk by reflexivity.
        discriminate.
Defined.

Lemma forest_invariant_witness :
  exists t, build 5 three_links = Ok t /\
    exists k, Z.of_nat k <= 5 /\
      (up (par t) k 1 = 0 \/ par t (up (par t) k 1) = up (par t) k 1).
Proof.
  destruct (forest_invariant 5 three_links) as [t [E H]].
  - unfold INT_MAX. lia.
  - repeat constructor; cbn; lia.
  - cbn. unfold INT_MAX. lia.
  - exists t. split; [exact E|]. apply H. lia.
Defined.

Lemma counter_law_witness :
  exists t t', build 5 two_links = Ok t /\ build 5 three_links = Ok t' /\
    links_processed t' = links_processed t + 1 /\
    links_added t + links_rejected t + self_loops two_links = links_processed t.
Proof.
  destruct (counter_law 5 two_links closing_link)
    as [t [t' [r [E [_ [E' [C [_ [_ [_ [P _]]]]]]]]]]].
  - unfold INT_MAX. lia.
  - repeat constructor; cbn; lia.
  - split; cbn; lia.
  - cbn. unfold INT_MAX. lia.
  - exists t, t'. auto.
Defined.

Lemma sentinel_root_witness :
  exists t, build 5 three_links = Ok t /\
    at_ (parents t) 0 = 0 /\ at_ (scores t) 0 = -1 /\ at_ (parents t) 1 <> 1.
Proof.
  destruct (sentinel_root 5 three_links) as [t [E [H1 [H2 [_ [_ [_ [H3 _]]]]]]]].
  - unfold INT_MAX. lia.
  - repeat constructor; cbn; lia.
  - cbn. unfold INT_MAX. lia.
  - exists t. repeat split; auto. apply H3. lia.
Defined.

Lemma rejection_condition_witness :
  exists t t' r c pa pb,
    build 5 two_links = Ok t /\
    offer (enough 5) t (mkLink 1 3 5 5 0 0) = Ok (t', r) /\
    rootward_paths (par t) 1 3 c pa pb /\
    (r = false <-> (forall x, In x (pa ++ pb) -> ~ sc t x < 5)).
Proof.
  destruct (build 5 two_links) as [t|f] eqn:E;
    [|exfalso; vm_compute in E; discriminate].
  assert (H1 : 0 <= 5 <= INT_MAX) by (unfold INT_MAX; lia).
  assert (H2 : Forall (in_range 5) two_links) by (repeat constructor; cbn; lia).
  assert (H3 : in_range 5 (mkLink 1 3 5 5 0 0)) by (split; cbn; lia).
  assert (H4 : Z.of_nat (length two_links) < INT_MAX) by (cbn; unfold INT_MAX; lia).
  assert (H5 : link_a (mkLink 1 3 5 5 0 0) <> link_b (mkLink 1 3 5 5 0 0))
    by (cbn; lia).
  destruct (rejection_condition 5 two_links t (mkLink 1 3 5 5 0 0) H1 H2 H3 H4 E H5)
    as [t' [r [c [pa [pb [E' [R [_ [_ [H _]]]]]]]]]].
  exists t, t', r, c, pa, pb. auto.
Defined.

Lemma rejection_atomic_witness :
  exists t t' r,
    build 5 two_links = Ok t /\
    offer (enough 5) t closing_link = Ok (t', r) /\
    exactly_one (rejected t t' r) (accepted_new 5 t t' closing_link r)
                (accepted_replacing 5 t t' closing_link r).
Proof.
  destruct (build 5 two_links) as [t|f] eqn:E;
    [|exfalso; vm_compute in E; discriminate].
  assert (H1 : 0 <= 5 <= INT_MAX) by (unfold INT_MAX; lia).
  assert (H2 : Forall (in_range 5) two_links) by (repeat constructor; cbn; lia).
  assert (H3 : in_range 5 closing_link) by (split; cbn; lia).
  assert (H4 : Z.of_nat (length two_links) < INT_MAX) by (cbn; unfold INT_MAX; lia).
  destruct (proj2 rejection_atomic 5 two_links t closing_link H1 H2 H3 H4 E)
    as [t' [r [E' H]]].
  exists t, t', r. auto.
Defined.

(** * Post-processing: [get_twilight_nodes] *)

(** What the C++ standard promises of [std::sort(first, last, comp)]
    when [comp] is a strict weak ordering: the range is permuted so
    that no element is [comp]-before an earlier one.  The order of
    equivalent elements is not specified. *)
Definition strict_weak (comp : Z -> Z -> bool) : Prop :=
  (forall a, comp a a = false) /\
  (forall a b c, comp a b = true -> comp b c = true -> comp a c = true) /\
  (forall a b c, comp a b = false -> comp b c = false -> comp a c = false).

Definition sorted_by (comp : Z -> Z -> bool) (l : list Z) : Prop :=
  StronglySorted (fun x y => comp y x = false) l.

Definition sorts (sort : (Z -> Z -> bool) -> list Z -> list Z) : Prop :=
  forall comp l, strict_weak comp ->
    Permutation l (sort comp l) /\ sorted_by comp (sort comp l).

Section Twilight.
Variable std_sort : (Z -> Z -> bool) -> list Z -> list Z.

(** The [for] loop of [get_twilight_nodes] over the ids [ids]. *)
Fixpoint twilight_loop (t : MaxSpanningTree) (ids : list Z) (twilight : list Z)
: res (list Z) :=
match ids with
| [] => Ok twilight
| i :: rest =>
    s <- vget (scores t) i ;;
    twilight_loop t rest
      (if (0 <=? s) && (s <? 300) then twilight ++ [i] else twilight)
end.

Definition get_twilight_nodes (t : MaxSpanningTree) : res (list Z) :=
let limit := Z.min (max_seen_id t + 1) (num_nodes t) in
twilight <- twilight_loop t (map Z.of_nat (seq 0 (Z.to_nat limit))) [] ;;
Ok (std_sort (fun a b => at_ (scores t) b <? at_ (scores t) a) twilight).
End Twilight.

Definition is_twilight (t : MaxSpanningTree) (v : Z) : bool :=
  (0 <=? sc t v) && (sc t v <? 300).

Lemma twilight_loop_ok (N : Z) (t : MaxSpanningTree) (ids acc : list Z) :
  vsize (scores t) = N -> (forall i, In i ids -> 0 <= i < N) ->
  twilight_loop t ids acc = Ok (acc ++ filter (is_twilight t) ids).
Proof.
  intros Hs. revert acc. induction ids as [|i ids IH]; intros acc R.
  - cbn. now rewrite app_nil_r.
  - cbn [twilight_loop filter].
    rewrite vget_ok by (rewrite Hs; apply R; now left). cbn [bind].
    rewrite IH by (intros j Hj; apply R; now right).
    unfold is_twilight at 2. unfold sc.
    destruct ((0 <=? at_ (scores t) i) && (at_ (scores t) i <? 300)); auto.
    now rewrite <- app_assoc.
Qed.

Lemma score_order_strict_weak (key : Z -> Z) :
  strict_weak (fun a b => key b <? key a).
Proof.
  repeat split.
  - intros a. apply Z.ltb_irrefl.
  - intros a b c H1 H2. apply Z.ltb_lt in H1, H2. apply Z.ltb_lt. lia.
  - intros a b c H1 H2. apply Z.ltb_ge in H1, H2. apply Z.ltb_ge. lia.
Qed.

Lemma NoDup_ids (k : nat) : NoDup (map Z.of_nat (seq 0 k)).
Proof.
  apply Injective_map_NoDup; [|apply seq_NoDup].
  intros x y H. lia.
Qed.

(** C6 as the code has it.  Whatever sorting function [std::sort] is,
    as long as it keeps the standard's promise: on a builder reached by
    calls with ids in range, [get_twilight_nodes] returns the ids [v]
    with [0 <= scores[v] < 300], each once, in an order in which the
    scores never go up.  Nothing is promised about the order of ids
    with equal scores. *)
Theorem twilight_contract (sort : (Z -> Z -> bool) -> list Z -> list Z)
    (n : Z) (es : list link) :
  sorts sort ->
  0 <= n <= INT_MAX -> Forall (in_range n) es -> Z.of_nat (length es) <= INT_MAX ->
  exists t out, build n es = Ok t /\ get_twilight_nodes sort t = Ok out /\
    (forall v, In v out <-> 0 <= v < n /\ 0 <= sc t v < 300) /\
    NoDup out /\
    StronglySorted (fun a b => sc t b <= sc t a) out.
Proof.
  intros S Hn R L. destruct (build_inv n es Hn R L) as [t [E I]].
  pose proof (inv_wf n es t I) as W.
  set (ids := map Z.of_nat (seq 0 (Z.to_nat (Z.min (max_seen_id t + 1) n)))).
  assert (Rids : forall i, In i ids <-> 0 <= i < Z.min (max_seen_id t + 1) n).
  { intros i. unfold ids. rewrite in_map_iff. split.
    - intros [j [<- Hj]]. apply in_seq in Hj. lia.
    - intros Hi. exists (Z.to_nat i). split; [lia|apply in_seq; lia]. }
  destruct (S (fun a b => at_ (scores t) b <? at_ (scores t) a) (filter (is_twilight t) ids)
              (score_order_strict_weak (at_ (scores t)))) as [P Q].
  exists t. eexists. split; [exact E|]. split.
  { unfold get_twilight_nodes. rewrite (wf_num n t W). cbv zeta. fold ids.
    rewrite (twilight_loop_ok n t ids []) by
      (try apply (wf_scores n t W); intros i Hi; apply Rids in Hi; lia).
    reflexivity. }
  split; [|split].
  - intros v. rewrite <- (Permutation_in' (eq_refl v) P).
    rewrite filter_In, Rids. unfold is_twilight.
    rewrite andb_true_iff, Z.leb_le, Z.ltb_lt.
    destruct (wf_seen n t W) as [S1 S2].
    split; [lia|]. intros [Hv Hs]. split; [|exact Hs].
    destruct (Z_lt_le_dec (max_seen_id t) v) as [G|G]; [|lia].
    rewrite S2 in Hs; lia.
  - apply (Permutation_NoDup P). apply NoDup_filter. apply NoDup_ids.
  - unfold sorted_by in Q. revert Q. apply StronglySorted_ind.
    + constructor.
    + intros a l _ IH H. constructor; [exact IH|].
      eapply Forall_impl; [|exact H]. cbn. intros b Hb.
      apply Z.ltb_ge in Hb. exact Hb.
Qed.

(** *** A sort that keeps the standard's promise *)

(** Insertion in front of the equivalent elements: an instance of
    [sorts] on which the theorems can be run. *)
Fixpoint front_insert (comp : Z -> Z -> bool) (x : Z) (l : list Z) : list Z :=
  match l with
  | [] => [x]
  | y :: r => if comp y x then y :: front_insert comp x r else x :: y :: r
  end.

Definition front_sort (comp : Z -> Z -> bool) (l : list Z) : list Z :=
  fold_left (fun acc x => front_insert comp x acc) l [].

Lemma front_insert_perm (comp : Z -> Z -> bool) (x : Z) (l : list Z) :
  Permutation (x :: l) (front_insert comp x l).
Proof.
  induction l as [|y r IH]; cbn; auto.
  destruct (comp y x); auto.
  apply perm_trans with (l' := y :: x :: r); [apply perm_swap|].
  now apply perm_skip.
Qed.

Lemma front_insert_sorted (comp : Z -> Z -> bool) (x : Z) (l : list Z) :
  strict_weak comp -> sorted_by comp l -> sorted_by comp (front_insert comp x l).
Proof.
  intros (Irr & Tr & NTr). unfold sorted_by.
  induction l as [|y r IH]; intros H; cbn.
  - repeat constructor.
  - apply StronglySorted_inv in H. destruct H as [H1 H2].
    destruct (comp y x) eqn:C.
    + constructor; [now apply IH|].
      apply (Permutation_Forall (front_insert_perm comp x r)).
      constructor; [|exact H2].
      destruct (comp x y) eqn:C'; auto.
      rewrite <- (Irr x). symmetry. now apply (Tr x y x).
    + constructor; [now constructor|].
      constructor; [exact C|].
      eapply Forall_impl; [|exact H2]. cbn. intros z Hz. now apply (NTr z y x).
Qed.

Lemma front_sort_sorts : sorts front_sort.
Proof.
  intros comp l SW. unfold front_sort.
  assert (G : forall acc, sorted_by comp acc ->
            Permutation (l ++ acc) (fold_left (fun acc x => front_insert comp x acc) l acc) /\
            sorted_by comp (fold_left (fun acc x => front_insert comp x acc) l acc)).
  { induction l as [|x l IH]; intros acc Hacc; cbn [fold_left app].
    - split; auto.
    - destruct (IH (front_insert comp x acc)) as [P Q].
      + now apply front_insert_sorted.
      + split; [|exact Q].
        eapply perm_trans; [|exact P].
        eapply perm_trans; [apply Permutation_middle|].
        apply Permutation_app_head. apply front_insert_perm. }
  destruct (G []) as [P Q]; [constructor|].
  rewrite app_nil_r in P. auto.
Qed.

(** Ids with equal scores stand in ascending order: what a stable sort
    of the scan would give. *)
Definition ties_ascending (t : MaxSpanningTree) (out : list Z) : Prop :=
  forall i j, (i < j < length out)%nat ->
    sc t (nth i out 0) = sc t (nth j out 0) -> nth i out 0 < nth j out 0.

Definition tied_links : list link := [mkLink 1 0 5 5 0 0; mkLink 2 0 5 5 0 0].

(** *** The [std::sort] of libstdc++ *)

(** The [std::sort] that [get_twilight_nodes] calls is the one of the
    C++ library the program is built with; with GCC that is libstdc++,
    whose [std::sort] is the introsort of [bits/stl_algo.h] and
    [bits/stl_heap.h] (GCC 12): partitioning around a median of three
    while a range has more than 16 elements, heap sort when the depth
    limit is used up, and one insertion sort at the end.  It is
    embedded here function by function.  An iterator is an index into
    the vector being sorted; a read or write outside the vector is the
    fault [OutOfBounds].  The [while] loops of the library are given
    more fuel than the vector has elements; running out of it is the
    fault [OutOfFuel]. *)
Module libstdcxx.
Section Sort.
Variable comp : Z -> Z -> bool.

Definition S_threshold : Z := 16.

Definition iter_swap (v : list Z) (a b : Z) : res (list Z) :=
  x <- vget v a ;;
  y <- vget v b ;;
  v1 <- vset v a y ;;
  vset v1 b x.

Definition move_median_to_first (v : list Z) (result a b c : Z) : res (list Z) :=
  xa <- vget v a ;;
  xb <- vget v b ;;
  xc <- vget v c ;;
  if comp xa xb then
    if comp xb xc then iter_swap v result b
    else if comp xa xc then iter_swap v result c
    else iter_swap v result a
  else if comp xa xc then iter_swap v result a
  else if comp xb xc then iter_swap v result c
  else iter_swap v result b.

(** The [while] loop of [__unguarded_linear_insert]. *)
Fixpoint linear_insert_loop (fuel : nat) (v : list Z) (val last next : Z)
: res (list Z) :=
match fuel with
| O => Err OutOfFuel
| S k =>
    x <- vget v next ;;
    if comp val x then
      v1 <- vset v last x ;;
      linear_insert_loop k v1 val next (next - 1)
    else vset v last val
end.

Definition unguarded_linear_insert (v : list Z) (last : Z) : res (list Z) :=
  val <- vget v last ;;
  linear_insert_loop (S (length v)) v val last (last - 1).

(** [std::move_backward(first, last, result)], [n] elements. *)
Fixpoint move_backward (n : nat) (v : list Z) (last result : Z) : res (list Z) :=
match n with
| O => Ok v
| S k =>
    x <- vget v (last - 1) ;;
    v1 <- vset v (result - 1) x ;;
    move_backward k v1 (last - 1) (result - 1)
end.

(** The [for] loop of [__insertion_sort], [n] rounds from [i]. *)
Fixpoint insertion_loop (n : nat) (v : list Z) (first i : Z) : res (list Z) :=
match n with
| O => Ok v
| S k =>
    xi <- vget v i ;;
    xf <- vget v first ;;
    v1 <- (if comp xi xf then
             v' <- move_backward (Z.to_nat (i - first)) v i (i + 1) ;;
             vset v' first xi
           else unguarded_linear_insert v i) ;;
    insertion_loop k v1 first (i + 1)
end.

Definition insertion_sort (v : list Z) (first last : Z) : res (list Z) :=
  if first =? last then Ok v
  else insertion_loop (Z.to_nat (last - (first + 1))) v first (first + 1).

(** The [for] loop of [__unguarded_insertion_sort], [n] rounds from [i]. *)
Fixpoint unguarded_insertion_loop (n : nat) (v : list Z) (i : Z) : res (list Z) :=
match n with
| O => Ok v
| S k =>
    v1 <- unguarded_linear_insert v i ;;
    unguarded_insertion_loop k v1 (i + 1)
end.

Definition unguarded_insertion_sort (v : list Z) (first last : Z) : res (list Z) :=
  unguarded_insertion_loop (Z.to_nat (last - first)) v first.

Definition final_insertion_sort (v : list Z) (first last : Z) : res (list Z) :=
  if last - first >? S_threshold then
    v1 <- insertion_sort v first (first + S_threshold) ;;
    unguarded_insertion_sort v1 (first + S_threshold) last
  else insertion_sort v first last.

(** [while (comp(first, pivot)) ++first;] *)
Fixpoint scan_up (fuel : nat) (v : list Z) (first pivot : Z) : res Z :=
match fuel with
| O => Err OutOfFuel
| S k =>
    x <- vget v first ;;
    p <- vget v pivot ;;
    if comp x p then scan_up k v (first + 1) pivot else Ok first
end.

(** [while (comp(pivot, last)) --last;] *)
Fixpoint scan_down (fuel : nat) (v : list Z) (pivot last : Z) : res Z :=
match fuel with
| O => Err OutOfFuel
| S k =>
    p <- vget v pivot ;;
    x <- vget v last ;;
    if comp p x then scan_down k v pivot (last - 1) else Ok last
end.

Fixpoint unguarded_partition (fuel : nat) (v : list Z) (first last pivot : Z)
: res (list Z * Z) :=
match fuel with
| O => Err OutOfFuel
| S k =>
    first1 <- scan_up (S (length v)) v first pivot ;;
    last1 <- scan_down (S (length v)) v pivot (last - 1) ;;
    if first1 <? last1 then
      v1 <- iter_swap v first1 last1 ;;
      unguarded_partition k v1 (first1 + 1) last1 pivot
    else Ok (v, first1)
end.

Definition unguarded_partition_pivot (v : list Z) (first last : Z)
: res (list Z * Z) :=
  let mid := first + Z.quot (last - first) 2 in
  v1 <- move_median_to_first v first (first + 1) mid (last - 1) ;;
  unguarded_partition (S (length v)) v1 (first + 1) last first.

(** The [while] loop of [__push_heap]. *)
Fixpoint push_heap (fuel : nat) (v : list Z) (first holeIndex topIndex value : Z)
: res (list Z) :=
match fuel with
| O => Err OutOfFuel
| S k =>
    let parent := Z.quot (holeIndex - 1) 2 in
    if topIndex <? holeIndex then
      p <- vget v (first + parent) ;;
      if comp p value then
        v1 <- vset v (first + holeIndex) p ;;
        push_heap k v1 first parent topIndex value
      else vset v (first + holeIndex) value
    else vset v (first + holeIndex) value
end.

(** The [while] loop of [__adjust_heap]: the vector, [holeIndex] and
    [secondChild] when it ends. *)
Fixpoint adjust_loop (fuel : nat) (v : list Z) (first holeIndex secondChild len : Z)
: res (list Z * Z * Z) :=
match fuel with
| O => Err OutOfFuel
| S k =>
    if secondChild <? Z.quot (len - 1) 2 then
      let c := 2 * (secondChild + 1) in
      x <- vget v (first + c) ;;
      y <- vget v (first + (c - 1)) ;;
      let c' := if comp x y then c - 1 else c in
      z <- vget v (first + c') ;;
      v1 <- vset v (first + holeIndex) z ;;
      adjust_loop k v1 first c' c' len
    else Ok (v, holeIndex, secondChild)
end.

Definition adjust_heap (v : list Z) (first holeIndex len value : Z) : res (list Z) :=
  let topIndex := holeIndex in
  r <- adjust_loop (S (length v)) v first holeIndex holeIndex len ;;
  let '(v1, hole1, secondChild) := r in
  r2 <- (if (Z.land len 1 =? 0) && (secondChild =? Z.quot (len - 2) 2) then
           let c := 2 * (secondChild + 1) in
           z <- vget v1 (first + (c - 1)) ;;
           v2 <- vset v1 (first + hole1) z ;;
           Ok (v2, c - 1)
         else Ok (v1, hole1)) ;;
  let '(v2, hole2) := r2 in
  push_heap (S (length v)) v2 first hole2 topIndex value.

Definition pop_heap (v : list Z) (first last result : Z) : res (list Z) :=
  value <- vget v result ;;
  x <- vget v first ;;
  v1 <- vset v result x ;;
  adjust_heap v1 first 0 (last - first) value.

(** The [while (true)] loop of [__make_heap], from [parent] down to 0. *)
Fixpoint make_heap_loop (parent : nat) (v : list Z) (first len : Z) : res (list Z) :=
  value <- vget v (first + Z.of_nat parent) ;;
  v1 <- adjust_heap v first (Z.of_nat parent) len value ;;
  match parent with
  | O => Ok v1
  | S p => make_heap_loop p v1 first len
  end.

Definition make_heap (v : list Z) (first last : Z) : res (list Z) :=
  if last - first <? 2 then Ok v
  else
    let len := last - first in
    make_heap_loop (Z.to_nat (Z.quot (len - 2) 2)) v first len.

(** The [while] loop of [__sort_heap], [n] rounds. *)
Fixpoint sort_heap_loop (n : nat) (v : list Z) (first last : Z) : res (list Z) :=
match n with
| O => Ok v
| S k =>
    v1 <- pop_heap v first (last - 1) (last - 1) ;;
    sort_heap_loop k v1 first (last - 1)
end.

Definition sort_heap (v : list Z) (first last : Z) : res (list Z) :=
  sort_heap_loop (Z.to_nat (last - first - 1)) v first last.

(** The [for] loop of [__heap_select], [n] rounds from [i]. *)
Fixpoint heap_select_loop (n : nat) (v : list Z) (first middle i : Z) : res (list Z) :=
match n with
| O => Ok v
| S k =>
    x <- vget v i ;;
    f <- vget v first ;;
    v1 <- (if comp x f then pop_heap v first middle i else Ok v) ;;
    heap_select_loop k v1 first middle (i + 1)
end.

Definition heap_select (v : list Z) (first middle last : Z) : res (list Z) :=
  v1 <- make_heap v first middle ;;
  heap_select_loop (Z.to_nat (last - middle)) v1 first middle middle.

Definition partial_sort (v : list Z) (first middle last : Z) : res (list Z) :=
  v1 <- heap_select v first middle last ;;
  sort_heap v1 first middle.

(** [__introsort_loop].  Each round of its [while] loop lowers
    [depth_limit] by one, sorts the upper part by a call of its own and
    goes on with the lower part: the second call below. *)
Fixpoint introsort_loop (depth_limit : nat) (v : list Z) (first last : Z)
: res (list Z) :=
  if last - first >? S_threshold then
    match depth_limit with
    | O => partial_sort v first last last
    | S d =>
        r <- unguarded_partition_pivot v first last ;;
        let '(v1, cut) := r in
        v2 <- introsort_loop d v1 cut last ;;
        introsort_loop d v2 first cut
    end
  else Ok v.

(** [std::__lg]: the position of the highest bit set. *)
Definition lg (n : Z) : Z := Z.log2 n.

(** [std::sort(v.begin(), v.end(), comp)]. *)
Definition sort (v : list Z) : res (list Z) :=
  let first := 0 in
  let last := vsize v in
  if first =? last then Ok v
  else
    v1 <- introsort_loop (Z.to_nat (lg (last - first) * 2)) v first last ;;
    final_insertion_sort v1 first last.

(** The vector after the call, for [get_twilight_nodes]. *)
Definition std_sort (v : list Z) : list Z :=
  match sort v with
  | Ok v1 => v1
  | Err _ => v
  end.

End Sort.
End libstdcxx.

(** Seventeen nodes attached to node 0, each by a link of score 5. *)
Definition seventeen_tied : list link :=
  map (fun i => mkLink (Z.of_nat i) 0 5 5 0 0) (seq 1 17).

Definition reordered : list Z :=
  [9; 17; 16; 15; 14; 13; 12; 11; 10; 1; 8; 7; 6; 5; 4; 3; 2].

(** C6 as the document words it fails: the sort is not stable.  After
    the calls [add_link(i, 0, 5, 5, 0, 0)] for [i] from 1 to 17 on a
    builder of capacity 18, the scan of [get_twilight_nodes] collects
    the seventeen ids 1 to 17, all of score 5, in ascending order, and
    the [std::sort] of libstdc++ runs on them without a fault and
    leaves them as [9 17 16 15 14 13 12 11 10 1 8 7 6 5 4 3 2]: the
    range has more than 16 elements, so it is partitioned once, which
    swaps the first element with the middle one and then the elements
    of the rest pairwise from both ends. *)
Lemma twilight_ties_reordered :
  exists t, build 18 seventeen_tied = Ok t /\
    libstdcxx.sort (fun a b => at_ (scores t) b <? at_ (scores t) a)
                   (map Z.of_nat (seq 1 17)) = Ok reordered /\
    get_twilight_nodes libstdcxx.std_sort t = Ok reordered /\
    (forall v, In v reordered -> sc t v = 5) /\
    ~ ties_ascending t reordered.
Proof.
  destruct (build 18 seventeen_tied) as [t|f] eqn:E;
    [|exfalso; vm_compute in E; discriminate].
  exists t. split; [reflexivity|].
  vm_compute in E. inversion E. subst t. clear E.
  split; [vm_compute; reflexivity|].
  split; [vm_compute; reflexivity|].
  split.
  - intros v Hv. unfold reordered in Hv. cbn [In] in Hv.
    repeat (destruct Hv as [<-|Hv]; [reflexivity|]). destruct Hv.
  - intros H. specialize (H 0%nat 9%nat).
    assert (9 < 1); [apply H; [cbn; lia|reflexivity]|lia].
Qed.

Lemma twilight_contract_witness :
  exists t out, build 3 tied_links = Ok t /\
    get_twilight_nodes front_sort t = Ok out /\
    (In 1 out <-> 0 <= 1 < 3 /\ 0 <= sc t 1 < 300) /\
    StronglySorted (fun a b => sc t b <= sc t a) out.
Proof.
  destruct (twilight_contract front_sort 3 tied_links front_sort_sorts)
    as [t [out [E [G [H1 [_ H2]]]]]].
  - unfold INT_MAX. lia.
  - repeat constructor; cbn; lia.
  - cbn. unfold INT_MAX. lia.
  - exists t, out. split; [exact E|]. split; [exact G|].
    split; [apply H1|exact H2].
Defined.

(** * The driver: the record loop of [main] *)

(** The five fields of a record, as [std::stoi] read them. *)
Record record : Type := mkRecord {
  query : Z;
  target : Z;
  rec_score : Z;
  rec_location : Z;
  rec_length : Z
}.

(** The tail of the loop body for a record whose five fields parsed:
    [None] for [continue], else the call it makes.  [n] is the local
    [num_nodes], which is also the capacity given to the builder. *)
Definition record_call (n : Z) (r : record) : option link :=
  if (query r >=? n) || (target r >=? n) then None
  else Some (mkLink (query r) (target r) (rec_score r) (rec_score r)
                    (rec_location r) (rec_length r)).

Definition process_record (fuel : nat) (t : MaxSpanningTree) (r : record)
  : res MaxSpanningTree :=
  match record_call (num_nodes t) r with
  | None => Ok t
  | Some e => x <- offer fuel t e ;; Ok (fst x)
  end.

(** The part of C9 that holds: a record with an id [>= n] is skipped,
    nothing is called and the builder is left as it was. *)
Lemma large_id_skipped (fuel : nat) (t : MaxSpanningTree) (r : record) :
  num_nodes t <= query r \/ num_nodes t <= target r ->
  record_call (num_nodes t) r = None /\ process_record fuel t r = Ok t.
Proof.
  intros H. unfold process_record, record_call.
  assert (E : (query r >=? num_nodes t) || (target r >=? num_nodes t) = true).
  { apply orb_true_iff. rewrite !Z.geb_le. exact H. }
  rewrite E. auto.
Qed.

(** C9 fails on negative ids: for the record [-1,2,10,0,0] and a fresh
    builder of capacity 5 the loop does call [add_link(-1, 2, 10, 10,
    0, 0)], which indexes the vectors at [-1]. *)
Theorem negative_id_not_skipped :
  exists t, new_tree 5 = Ok t /\
    record_call (num_nodes t) (mkRecord (-1) 2 10 0 0)
      = Some (mkLink (-1) 2 10 10 0 0) /\
    process_record (enough 5) t (mkRecord (-1) 2 10 0 0) = Err OutOfBounds.
Proof.
  eexists. split; [reflexivity|]. split; reflexivity.
Qed.

(** * The local aligner: [align_local_core] *)

(** ** Binary32 *)

Definition float : Type := spec_float.

(** [x + y], [x > y], [x <= y] and [x == y] on [float]. *)
Definition fadd (x y : float) : float := SFadd 24 128 x y.
Definition fgt (x y : float) : bool := SFltb y x.
Definition fle (x y : float) : bool := SFleb x y.
Definition feq (x y : float) : bool := SFeqb x y.

(** [0.0f] and [-1.0f]. *)
Definition fzero : float := S754_zero false.
Definition fminus_one : float := S754_finite true 8388608 (-23).

(** The values a cell of [H] takes: [+0] or a number above it. *)
Definition fpos (x : float) : Prop := fgt x fzero = true.
Definition fval (x : float) : Prop := x = fzero \/ fpos x.

Lemma fpos_shape (x : float) :
  fpos x -> x = S754_infinity false \/ exists m e, x = S754_finite false m e.
Proof.
  unfold fpos, fgt, SFltb. destruct x as [s|s| |s m e]; cbn; try discriminate.
  - destruct s; [discriminate|auto].
  - destruct s; [discriminate|]. right. now exists m, e.
Qed.

Ltac fshape H :=
  let m := fresh "m" in let e := fresh "e" in
  destruct H as [H|H];
  [ subst | apply fpos_shape in H; destruct H as [H|[m [e H]]]; subst ].

Ltac fcmp :=
  unfold fgt, fle, feq, SFltb, SFleb, SFeqb, fzero in *; cbn [SFcompare] in *;
  repeat match goal with
  | |- context [Pos.compare_cont Eq ?a ?b] =>
      change (Pos.compare_cont Eq a b) with (Pos.compare a b)
  | H : context [Pos.compare_cont Eq ?a ?b] |- _ =>
      change (Pos.compare_cont Eq a b) with (Pos.compare a b) in H
  end;
  repeat match goal with
  | |- context [Z.compare ?a ?b] => destruct (Z.compare_spec a b)
  | H : context [Z.compare ?a ?b] |- _ => destruct (Z.compare_spec a b)
  | |- context [Pos.compare ?a ?b] => destruct (Pos.compare_spec a b)
  | H : context [Pos.compare ?a ?b] |- _ => destruct (Pos.compare_spec a b)
  end;
  subst; try reflexivity; try discriminate; try lia.

Lemma fgt_trans (a b c : float) :
  fval a -> fval b -> fval c -> fgt a b = true -> fgt b c = true -> fgt a c = true.
Proof.
  intros Ha Hb Hc. fshape Ha; fshape Hb; fshape Hc; intros H1 H2; fcmp.
Qed.

Lemma fgt_false_fle (a b : float) :
  fval a -> fval b -> fgt a b = false -> fle a b = true.
Proof.
  intros Ha Hb. fshape Ha; fshape Hb; intros H1; fcmp.
Qed.

Lemma fle_fgt_trans (a b c : float) :
  fval a -> fval b -> fval c -> fle a b = true -> fgt c b = true -> fgt c a = true.
Proof.
  intros Ha Hb Hc. fshape Ha; fshape Hb; fshape Hc; intros H1 H2; fcmp.
Qed.

Lemma fgt_fle (a b : float) : fval a -> fval b -> fgt b a = true -> fle a b = true.
Proof.
  intros Ha Hb. fshape Ha; fshape Hb; intros H1; fcmp.
Qed.

Lemma fle_refl (a : float) : fval a -> fle a a = true.
Proof. intros Ha. fshape Ha; fcmp. Qed.

Lemma feq_refl (a : float) : fval a -> feq a a = true.
Proof. intros Ha. fshape Ha; fcmp. Qed.

Lemma feq_pos (a b : float) : fpos a -> feq a b = true -> a = b.
Proof.
  intros Ha. apply fpos_shape in Ha. destruct Ha as [->|[m [e ->]]];
    destruct b as [s|s| |s m' e']; try destruct s; intros H; fcmp.
Qed.

Lemma fle_zero_val (a : float) : fval a -> fle a fzero = true -> a = fzero.
Proof. intros Ha. fshape Ha; intros H; fcmp. Qed.

Lemma fpos_not_le (a : float) : fpos a -> fle a fzero = false.
Proof.
  intros Ha. apply fpos_shape in Ha. destruct Ha as [->|[m [e ->]]]; reflexivity.
Qed.

(** ** Arrays of [float] and [int] index arithmetic *)

Definition hsize (h : list float) : Z := Z.of_nat (length h).

Definition hat (h : list float) (k : Z) : float := nth (Z.to_nat k) h S754_nan.

Fixpoint hupd (k : nat) (x : float) (h : list float) : list float :=
  match h with
  | [] => []
  | y :: r =>
      match k with
      | O => x :: r
      | S k' => y :: hupd k' x r
      end
  end.

Definition hget (h : list float) (k : Z) : res float :=
  if (0 <=? k) && (k <? hsize h) then Ok (hat h k) else Err OutOfBounds.

Definition hset (h : list float) (k : Z) (x : float) : res (list float) :=
  if (0 <=? k) && (k <? hsize h) then Ok (hupd (Z.to_nat k) x h)
  else Err OutOfBounds.

(** The value of an [int] expression: a fault outside [int]. *)
Definition int_ok (z : Z) : res Z :=
  if (INT_MIN <=? z) && (z <=? INT_MAX) then Ok z else Err IntOverflow.

(** [i * (n + 1) + j] *)
Definition idx (n i j : Z) : res Z :=
  w <- int_ok (n + 1) ;;
  r <- int_ok (i * w) ;;
  int_ok (r + j).

(** ** [align_local_core] *)

(** The variables the fill loop updates. *)
Record fill_state : Type := mkFill {
  H : list float;
  max_score_val : float;
  max_i : Z;
  max_j : Z
}.

Section Aligner.
Variables (seq_a seq_b : list Z) (matrix : list float) (gap_extend : float).

(** [m] and [n]: the sequences are the [len_a] and [len_b] characters
    the two pointers give. *)
Definition len_of (s : list Z) : Z := Z.of_nat (length s).

(** [matrix[(seq_a[i - 1] & 31) * 32 + (seq_b[j - 1] & 31)]] *)
Definition score_match_at (i j : Z) : res float :=
  char_a <- vget seq_a (i - 1) ;;
  char_b <- vget seq_b (j - 1) ;;
  let idx_a := Z.land char_a 31 in
  let idx_b := Z.land char_b 31 in
  hget matrix (idx_a * 32 + idx_b).

(** [max(0, match, delete, insert)] by the three [if]s. *)
Definition best_of (match_ delete_val insert_val : float) : float :=
  let score := fzero in
  let score := if fgt match_ score then match_ else score in
  let score := if fgt delete_val score then delete_val else score in
  if fgt insert_val score then insert_val else score.

(** The body of the inner loop. *)
Definition fill_cell (n : Z) (st : fill_state) (i j : Z) : res fill_state :=
  score_match <- score_match_at i j ;;
  kd <- idx n (i - 1) (j - 1) ;;
  d <- hget (H st) kd ;;
  let match_ := fadd d score_match in
  ku <- idx n (i - 1) j ;;
  u <- hget (H st) ku ;;
  let delete_val := fadd u gap_extend in
  kl <- idx n i (j - 1) ;;
  l <- hget (H st) kl ;;
  let insert_val := fadd l gap_extend in
  let score := best_of match_ delete_val insert_val in
  k <- idx n i j ;;
  h <- hset (H st) k score ;;
  Ok (if fgt score (max_score_val st)
      then mkFill h score i j
      else mkFill h (max_score_val st) (max_i st) (max_j st)).

(** [for (int j = ...; j <= n; j++)], [count] iterations left. *)
Fixpoint fill_cols (n : Z) (st : fill_state) (i j : Z) (count : nat)
  : res fill_state :=
  match count with
  | O => Ok st
  | S c => st' <- fill_cell n st i j ;; fill_cols n st' i (j + 1) c
  end.

(** [for (int i = ...; i <= m; i++)], [count] iterations left. *)
Fixpoint fill_rows (n : Z) (st : fill_state) (i : Z) (count : nat)
  : res fill_state :=
  match count with
  | O => Ok st
  | S c => st' <- fill_cols n st i 1 (Z.to_nat n) ;; fill_rows n st' (i + 1) c
  end.

(** The traceback loop; [out_a] and [out_b] are the entries written so
    far to [out_indices_a] and [out_indices_b], so that [k] is their
    length. *)
Fixpoint traceback (fuel : nat) (n : Z) (h : list float) (i j : Z)
    (out_a out_b : list Z) : res (list Z * list Z) :=
  match fuel with
  | O => Err OutOfFuel
  | S fuel' =>
      if (0 <? i) && (0 <? j) then
        k <- idx n i j ;;
        current_score <- hget h k ;;
        if fgt current_score fzero then
          kd <- idx n (i - 1) (j - 1) ;;
          diagonal <- hget h kd ;;
          ku <- idx n (i - 1) j ;;
          up_ <- hget h ku ;;
          score_match <- score_match_at i j ;;
          if feq current_score (fadd diagonal score_match) then
            traceback fuel' n h (i - 1) (j - 1) (out_a ++ [i - 1]) (out_b ++ [j - 1])
          else if feq current_score (fadd up_ gap_extend) then
            traceback fuel' n h (i - 1) j (out_a ++ [i - 1]) (out_b ++ [-1])
          else
            traceback fuel' n h i (j - 1) (out_a ++ [-1]) (out_b ++ [j - 1])
        else Ok (out_a, out_b)
      else Ok (out_a, out_b)
  end.

(** What the caller finds in the four output slots.  When [calloc]
    fails only [*out_score] is written. *)
Inductive alignment : Type :=
| AllocFailed (out_score : float)
| Aligned (out_score : float) (out_len : Z) (out_indices_a out_indices_b : list Z).

(** [calloc_ok] tells whether [calloc] returned a block. *)
Definition align_local_core (calloc_ok : bool) : res alignment :=
  let m := len_of seq_a in
  let n := len_of seq_b in
  m1 <- int_ok (m + 1) ;;
  n1 <- int_ok (n + 1) ;;
  if negb calloc_ok then Ok (AllocFailed fminus_one)
  else
    let h := repeat fzero (Z.to_nat (m1 * n1)) in
    st <- fill_rows n (mkFill h fzero 0 0) 1 (Z.to_nat m) ;;
    if fle (max_score_val st) fzero then Ok (Aligned (max_score_val st) 0 [] [])
    else
      p <- traceback (S (Z.to_nat (max_i st + max_j st))) n (H st)
             (max_i st) (max_j st) [] [] ;;
      Ok (Aligned (max_score_val st) (Z.of_nat (length (fst p))) (fst p) (snd p)).
End Aligner.


(** Same sequence of [float] operations as runs before a cell is
    stored: the value the fill gives a cell with neighbours [d]
    (diagonal), [u] (up), [l] (left) and substitution score [s]. *)
Definition cell_value (gap_extend d u l s : float) : float :=
  best_of (fadd d s) (fadd u gap_extend) (fadd l gap_extend).

(** ** Float vectors and indices *)

Lemma hupd_length (k : nat) (x : float) (h : list float) :
  length (hupd k x h) = length h.
Proof. revert k. induction h as [|y r IH]; intros [|k]; cbn; auto. Qed.

Lemma hupd_same (k : nat) (x : float) (h : list float) :
  (k < length h)%nat -> nth k (hupd k x h) S754_nan = x.
Proof.
  revert k. induction h as [|y r IH]; intros [|k] Hk; cbn in *; try lia; auto.
  apply IH. lia.
Qed.

Lemma hupd_other (k k' : nat) (x : float) (h : list float) :
  k <> k' -> nth k' (hupd k x h) S754_nan = nth k' h S754_nan.
Proof.
  revert k k'. induction h as [|y r IH]; intros [|k] [|k'] Hk; cbn; auto; try lia.
Qed.

Lemma hget_ok (h : list float) (k : Z) :
  0 <= k < hsize h -> hget h k = Ok (hat h k).
Proof.
  intros Hk. unfold hget.
  destruct (Z.leb_spec 0 k); [|lia]. destruct (Z.ltb_spec k (hsize h)); [|lia].
  reflexivity.
Qed.

Lemma hset_ok (h : list float) (k : Z) (x : float) :
  0 <= k < hsize h -> hset h k x = Ok (hupd (Z.to_nat k) x h).
Proof.
  intros Hk. unfold hset.
  destruct (Z.leb_spec 0 k); [|lia]. destruct (Z.ltb_spec k (hsize h)); [|lia].
  reflexivity.
Qed.

Lemma int_ok_ok (z : Z) : 0 <= z <= INT_MAX -> int_ok z = Ok z.
Proof.
  intros Hz. unfold int_ok, INT_MIN, INT_MAX in *.
  destruct (Z.leb_spec (-2147483648) z); [|lia].
  destruct (Z.leb_spec z 2147483647); [|lia]. reflexivity.
Qed.

(** The lengths for which every index of the matrix is an [int]. *)
Definition fits (m n : Z) : Prop := (m + 1) * (n + 1) <= INT_MAX.

Section Index.
Variables (m n : Z).
Hypothesis Hm : 0 <= m.
Hypothesis Hn : 0 <= n.
Hypothesis Hfit : fits m n.

Lemma idx_bound (i j : Z) :
  0 <= i <= m -> 0 <= j <= n -> 0 <= i * (n + 1) + j < (m + 1) * (n + 1).
Proof. intros Hi Hj. nia. Qed.

Lemma idx_ok (i j : Z) :
  0 <= i <= m -> 0 <= j <= n -> idx n i j = Ok (i * (n + 1) + j).
Proof.
  intros Hi Hj. unfold idx. unfold fits in Hfit.
  pose proof (idx_bound i j Hi Hj) as B.
  assert (B1 : 0 <= i * (n + 1) <= i * (n + 1) + j) by nia.
  assert (B2 : n + 1 <= (m + 1) * (n + 1)) by nia.
  rewrite int_ok_ok by lia. cbn [bind].
  rewrite int_ok_ok by lia. cbn [bind].
  apply int_ok_ok. lia.
Qed.

Lemma idx_inj (i j i' j' : Z) :
  0 <= j <= n -> 0 <= j' <= n ->
  i * (n + 1) + j = i' * (n + 1) + j' -> i = i' /\ j = j'.
Proof.
  intros Hj Hj' E.
  assert (i = i').
  { destruct (Z.lt_trichotomy i i') as [L|[L|L]]; auto; exfalso.
    - assert ((i + 1) * (n + 1) <= i' * (n + 1)) by (apply Z.mul_le_mono_nonneg_r; lia).
      lia.
    - assert ((i' + 1) * (n + 1) <= i * (n + 1)) by (apply Z.mul_le_mono_nonneg_r; lia).
      lia. }
  subst. lia.
Qed.
End Index.

(** ** The filled matrix *)

Lemma fgt_pos (a b : float) : fval b -> fgt a b = true -> fpos a.
Proof.
  intros Hb. fshape Hb; destruct a as [s|s| |s m' e']; try destruct s;
    intros H1; unfold fpos; fcmp.
Qed.

Lemma fzero_not_pos : ~ fpos fzero.
Proof. unfold fpos. cbn. discriminate. Qed.

Lemma fle_zero (a : float) : fval a -> fle fzero a = true.
Proof. intros Ha. fshape Ha; fcmp. Qed.

Lemma best_of_val (a b c : float) : fval (best_of a b c).
Proof.
  unfold best_of.
  assert (V1 : fval (if fgt a fzero then a else fzero)).
  { destruct (fgt a fzero) eqn:E; [right; exact E|now left]. }
  assert (V2 : fval (if fgt b (if fgt a fzero then a else fzero) then b
                     else if fgt a fzero then a else fzero)).
  { destruct (fgt b _) eqn:E; [right; eapply fgt_pos; eauto|exact V1]. }
  destruct (fgt c _) eqn:E; [right; eapply fgt_pos; eauto|exact V2].
Qed.

Lemma best_of_cases (a b c : float) :
  fpos (best_of a b c) ->
  best_of a b c = a \/ best_of a b c = b \/ best_of a b c = c.
Proof.
  unfold best_of. intros P.
  destruct (fgt c _); [auto|]. destruct (fgt b _); [auto|].
  destruct (fgt a fzero); [auto|]. now apply fzero_not_pos in P.
Qed.

Lemma land31_range (c : Z) : 0 <= Z.land c 31 < 32.
Proof.
  change 31 with (Z.ones 5). rewrite Z.land_ones by lia.
  apply Z.mod_pos_bound. lia.
Qed.

Section Fill.
Variables (seq_a seq_b : list Z) (matrix : list float) (gap_extend : float).
Let m := len_of seq_a.
Let n := len_of seq_b.
Hypothesis Hmat : hsize matrix = 1024.
Hypothesis Hfit : fits m n.

(** [H[i * (n + 1) + j]] *)
Definition cellv (h : list float) (i j : Z) : float :=
  hat h (i * (len_of seq_b + 1) + j).

(** The substitution score of the characters [seq_a[i-1]], [seq_b[j-1]]. *)
Definition smatch (i j : Z) : float :=
  hat matrix (Z.land (at_ seq_a (i - 1)) 31 * 32 + Z.land (at_ seq_b (j - 1)) 31).

(** The cell [(i, j)] holds what the recurrence gives. *)
Definition recurrence (h : list float) (i j : Z) : Prop :=
  cellv h i j =
  cell_value gap_extend (cellv h (i - 1) (j - 1)) (cellv h (i - 1) j)
             (cellv h i (j - 1)) (smatch i j).

(** Row-major order of the cells. *)
Definition lexle (i j pi pj : Z) : Prop := i < pi \/ (i = pi /\ j <= pj).
Definition lexlt (i j pi pj : Z) : Prop := i < pi \/ (i = pi /\ j < pj).

Lemma m_nonneg : 0 <= m.
Proof. unfold m, len_of. lia. Qed.

Lemma n_nonneg : 0 <= n.
Proof. unfold n, len_of. lia. Qed.

Lemma score_match_at_ok (i j : Z) :
  1 <= i <= m -> 1 <= j <= n ->
  score_match_at seq_a seq_b matrix i j = Ok (smatch i j).
Proof.
  intros Hi Hj. unfold score_match_at.
  rewrite !vget_ok by (unfold vsize; unfold m, n, len_of in *; lia).
  cbn [bind]. apply hget_ok. rewrite Hmat.
  pose proof (land31_range (at_ seq_a (i - 1))).
  pose proof (land31_range (at_ seq_b (j - 1))). lia.
Qed.

Lemma cellv_upd (h : list float) (i j i' j' : Z) (x : float) :
  hsize h = (m + 1) * (n + 1) ->
  0 <= i <= m -> 0 <= j <= n -> 0 <= i' <= m -> 0 <= j' <= n ->
  cellv (hupd (Z.to_nat (i * (n + 1) + j)) x h) i' j' =
  if (i' =? i) && (j' =? j) then x else cellv h i' j'.
Proof.
  intros Hs Hi Hj Hi' Hj'. unfold cellv, hat. fold n.
  pose proof (idx_bound m n n_nonneg i j Hi Hj) as B.
  pose proof (idx_bound m n n_nonneg i' j' Hi' Hj') as B'.
  destruct (Z.eqb_spec i' i) as [->|Ni]; cbn [andb].
  - destruct (Z.eqb_spec j' j) as [->|Nj].
    + apply hupd_same. unfold hsize in Hs. lia.
    + apply hupd_other. intros E.
      assert (i * (n + 1) + j = i * (n + 1) + j') by lia.
      lia.
  - apply hupd_other. intros E.
    assert (E' : i * (n + 1) + j = i' * (n + 1) + j') by lia.
    apply (idx_inj n n_nonneg) in E'; lia.
Qed.

(** What holds of the loop variables once the cells up to [(pi, pj)],
    in row-major order, are filled. *)
Record fill_inv (st : fill_state) (pi pj : Z) : Prop := mkFillInv {
  fi_size : hsize (H st) = (m + 1) * (n + 1);
  fi_val : forall i j, 0 <= i <= m -> 0 <= j <= n -> fval (cellv (H st) i j);
  fi_rec : forall i j, 1 <= i <= m -> 1 <= j <= n -> lexle i j pi pj ->
    recurrence (H st) i j;
  fi_zero : forall i j, 0 <= i <= m -> 0 <= j <= n ->
    ~ (1 <= i /\ 1 <= j /\ lexle i j pi pj) -> cellv (H st) i j = fzero;
  fi_max_val : fval (max_score_val st);
  fi_best_range : 0 <= max_i st <= m /\ 0 <= max_j st <= n;
  fi_best : cellv (H st) (max_i st) (max_j st) = max_score_val st;
  fi_best_kind :
    (max_i st = 0 /\ max_j st = 0 /\ max_score_val st = fzero) \/
    (1 <= max_i st /\ 1 <= max_j st /\ lexle (max_i st) (max_j st) pi pj /\
     fpos (max_score_val st));
  fi_le : forall i j, 1 <= i <= m -> 1 <= j <= n -> lexle i j pi pj ->
    fle (cellv (H st) i j) (max_score_val st) = true;
  fi_first : forall i j, 1 <= i <= m -> 1 <= j <= n ->
    lexlt i j (max_i st) (max_j st) ->
    fgt (max_score_val st) (cellv (H st) i j) = true
}.

Lemma fill_inv_ext (st : fill_state) (pi pj pi' pj' : Z) :
  (forall i j, 1 <= i <= m -> 1 <= j <= n -> (lexle i j pi pj <-> lexle i j pi' pj')) ->
  fill_inv st pi pj -> fill_inv st pi' pj'.
Proof.
  intros X [I1 I2 I3 I4 I5 I6 I7 I8 I9 I10].
  constructor; auto.
  - intros i j Hi Hj L. apply I3; auto. now apply X.
  - intros i j Hi Hj L. apply I4; auto. intros (A & B & C). apply L.
    split; [auto|]. split; [auto|]. apply X; auto; lia.
  - destruct I8 as [I8|(A & B & C & D)]; [now left|right].
    split; [auto|]. split; [auto|]. split; [|auto]. apply X; auto; lia.
  - intros i j Hi Hj L. apply I9; auto. now apply X.
Qed.

Lemma fill_cell_ok (st : fill_state) (i j : Z) :
  1 <= i <= m -> 1 <= j <= n -> fill_inv st i (j - 1) ->
  exists st', fill_cell seq_a seq_b matrix gap_extend n st i j = Ok st' /\
              fill_inv st' i j.
Proof.
  intros Hi Hj [I1 I2 I3 I4 I5 I6 I7 I8 I9 I10].
  pose proof m_nonneg as M0. pose proof n_nonneg as N0.
  unfold fill_cell.
  rewrite score_match_at_ok by auto. cbn [bind].
  rewrite (idx_ok m n M0 N0 Hfit (i - 1) (j - 1)) by lia. cbn [bind].
  rewrite hget_ok by (rewrite I1; apply idx_bound; lia). cbn [bind].
  rewrite (idx_ok m n M0 N0 Hfit (i - 1) j) by lia. cbn [bind].
  rewrite hget_ok by (rewrite I1; apply idx_bound; lia). cbn [bind].
  rewrite (idx_ok m n M0 N0 Hfit i (j - 1)) by lia. cbn [bind].
  rewrite hget_ok by (rewrite I1; apply idx_bound; lia). cbn [bind].
  rewrite (idx_ok m n M0 N0 Hfit i j) by lia. cbn [bind].
  rewrite hset_ok by (rewrite I1; apply idx_bound; lia). cbn [bind].
  cbv zeta.
  set (score := best_of _ _ _).
  assert (Escore : score = cell_value gap_extend (cellv (H st) (i - 1) (j - 1))
                             (cellv (H st) (i - 1) j) (cellv (H st) i (j - 1))
                             (smatch i j)) by reflexivity.
  set (h' := hupd (Z.to_nat (i * (n + 1) + j)) score (H st)).
  assert (Vs : fval score) by apply best_of_val.
  assert (C : forall i' j', 0 <= i' <= m -> 0 <= j' <= n ->
                cellv h' i' j' = if (i' =? i) && (j' =? j) then score
                                 else cellv (H st) i' j').
  { intros i' j' Hi' Hj'. apply cellv_upd; auto; lia. }
  assert (Cne : forall i' j', 0 <= i' <= m -> 0 <= j' <= n ->
                  lexle i' j' i (j - 1) \/ i' = 0 \/ j' = 0 ->
                  cellv h' i' j' = cellv (H st) i' j').
  { intros i' j' Hi' Hj' L. rewrite C by auto.
    destruct (Z.eqb_spec i' i); destruct (Z.eqb_spec j' j); cbn [andb]; auto.
    exfalso. unfold lexle in L. lia. }
  assert (Csame : cellv h' i j = score).
  { rewrite C by lia. now rewrite !Z.eqb_refl. }
  assert (Size : hsize h' = (m + 1) * (n + 1)).
  { unfold h', hsize. rewrite hupd_length. exact I1. }
  assert (Val : forall i' j', 0 <= i' <= m -> 0 <= j' <= n -> fval (cellv h' i' j')).
  { intros i' j' Hi' Hj'. rewrite C by auto.
    destruct ((i' =? i) && (j' =? j)); auto. }
  assert (Rec : forall i' j', 1 <= i' <= m -> 1 <= j' <= n -> lexle i' j' i j ->
                  recurrence h' i' j').
  { intros i' j' Hi' Hj' L. unfold recurrence.
    rewrite (Cne (i' - 1) (j' - 1)), (Cne (i' - 1) j'), (Cne i' (j' - 1));
      try lia; try (unfold lexle in *; lia).
    destruct (Z.eq_dec i' i) as [->|Ni].
    - destruct (Z.eq_dec j' j) as [->|Nj].
      + rewrite Csame. exact Escore.
      + rewrite Cne by (try lia; unfold lexle in *; lia).
        apply I3; auto. unfold lexle in *. lia.
    - rewrite Cne by (try lia; unfold lexle in *; lia).
      apply I3; auto. unfold lexle in *. lia. }
  assert (Zero : forall i' j', 0 <= i' <= m -> 0 <= j' <= n ->
                   ~ (1 <= i' /\ 1 <= j' /\ lexle i' j' i j) -> cellv h' i' j' = fzero).
  { intros i' j' Hi' Hj' L. rewrite C by auto.
    destruct (Z.eqb_spec i' i); destruct (Z.eqb_spec j' j); cbn [andb];
      try (apply I4; auto; unfold lexle in *; lia).
    exfalso. apply L. unfold lexle. lia. }
  assert (Old : forall i' j', 1 <= i' <= m -> 1 <= j' <= n -> lexle i' j' i j ->
                  (i' = i /\ j' = j) \/ lexle i' j' i (j - 1)).
  { intros i' j' _ _ L. unfold lexle in *. lia. }
  destruct (fgt score (max_score_val st)) eqn:G.
  - eexists. split; [reflexivity|].
    assert (Ps : fpos score) by exact (fgt_pos score (max_score_val st) I5 G).
    assert (Less : forall i' j', 1 <= i' <= m -> 1 <= j' <= n ->
                     lexle i' j' i (j - 1) -> fgt score (cellv (H st) i' j') = true).
    { intros i' j' Hi' Hj' L.
      apply (fle_fgt_trans _ (max_score_val st)); auto.
      apply I2; lia. }
    constructor; cbn [H max_score_val max_i max_j]; auto.
    + lia.
    + right. unfold lexle. repeat split; auto; lia.
    + intros i' j' Hi' Hj' L. destruct (Old i' j' Hi' Hj' L) as [[-> ->]|O].
      * rewrite Csame. now apply fle_refl.
      * rewrite Cne by (auto; lia). apply fgt_fle; auto. apply I2; lia.
    + intros i' j' Hi' Hj' L.
      rewrite Cne by (try lia; unfold lexlt, lexle in *; lia).
      apply Less; auto. unfold lexlt, lexle in *. lia.
  - eexists. split; [reflexivity|].
    assert (Bne : cellv h' (max_i st) (max_j st) = cellv (H st) (max_i st) (max_j st)).
    { apply Cne; try lia.
      destruct I8 as [(A & B & _)|(A & B & L & _)]; [lia|now left]. }
    constructor; cbn [H max_score_val max_i max_j]; auto.
    + now rewrite Bne.
    + destruct I8 as [I8|(A & B & L & D)]; [now left|right].
      repeat split; auto. unfold lexle in *. lia.
    + intros i' j' Hi' Hj' L. destruct (Old i' j' Hi' Hj' L) as [[-> ->]|O].
      * rewrite Csame. now apply fgt_false_fle.
      * rewrite Cne by (auto; lia). now apply I9.
    + intros i' j' Hi' Hj' L.
      assert (L' : lexle i' j' i (j - 1)).
      { destruct I8 as [(A & B & _)|(A & B & L0 & _)];
          unfold lexlt, lexle in *; lia. }
      rewrite Cne by (auto; lia). now apply I10.
Qed.

Lemma fill_cols_ok (count : nat) (st : fill_state) (i j : Z) :
  1 <= i <= m -> 1 <= j -> j + Z.of_nat count = n + 1 -> fill_inv st i (j - 1) ->
  exists st', fill_cols seq_a seq_b matrix gap_extend n st i j count = Ok st' /\
              fill_inv st' i n.
Proof.
  revert st j. induction count as [|c IH]; intros st j Hi Hj E I.
  - exists st. split; [reflexivity|]. replace n with (j - 1) by lia. exact I.
  - cbn [fill_cols].
    destruct (fill_cell_ok st i j Hi) as [st1 [E1 I1]]; [lia|exact I|].
    rewrite E1. cbn [bind]. apply IH; auto; try lia.
    replace (j + 1 - 1) with j by lia. exact I1.
Qed.

Lemma fill_rows_ok (count : nat) (st : fill_state) (i : Z) :
  1 <= i -> i + Z.of_nat count = m + 1 -> fill_inv st (i - 1) n ->
  exists st', fill_rows seq_a seq_b matrix gap_extend n st i count = Ok st' /\
              fill_inv st' m n.
Proof.
  revert st i. induction count as [|c IH]; intros st i Hi E I.
  - exists st. split; [reflexivity|]. replace m with (i - 1) by lia. exact I.
  - cbn [fill_rows].
    destruct (fill_cols_ok (Z.to_nat n) st i 1) as [st1 [E1 I1]]; try lia.
    { pose proof n_nonneg. lia. }
    { apply (fill_inv_ext st (i - 1) n); [|exact I].
      intros i' j' Hi' Hj'. unfold lexle. lia. }
    rewrite E1. cbn [bind]. apply IH; auto; try lia.
    replace (i + 1 - 1) with i by lia. exact I1.
Qed.

(** The loop variables before the first iteration. *)
Definition fill_start : fill_state :=
  mkFill (repeat fzero (Z.to_nat ((m + 1) * (n + 1)))) fzero 0 0.

Lemma fill_start_inv : fill_inv fill_start 0 n.
Proof.
  pose proof m_nonneg as M0. pose proof n_nonneg as N0.
  assert (C : forall i j, 0 <= i <= m -> 0 <= j <= n -> cellv (H fill_start) i j = fzero).
  { intros i j Hi Hj. unfold cellv, hat, fill_start. cbn [H]. fold n.
    apply nth_repeat_lt. pose proof (idx_bound m n N0 i j Hi Hj). lia. }
  constructor.
  - unfold hsize, fill_start. cbn [H]. rewrite repeat_length. nia.
  - intros i j Hi Hj. left. now apply C.
  - intros i j Hi Hj L. unfold lexle in L. lia.
  - intros i j Hi Hj _. now apply C.
  - now left.
  - cbn [fill_start max_i max_j]. lia.
  - apply C; cbn [fill_start max_i max_j]; lia.
  - left. cbn [fill_start max_score_val max_i max_j]. auto.
  - intros i j Hi Hj L. unfold lexle in L. lia.
  - intros i j Hi Hj L. unfold lexlt in L. cbn [fill_start max_i max_j] in L. lia.
Qed.

(** The fill loops of [align_local_core], run on a zeroed block. *)
Definition filled : res fill_state :=
  fill_rows seq_a seq_b matrix gap_extend (len_of seq_b)
            (mkFill (repeat fzero (Z.to_nat ((len_of seq_a + 1) * (len_of seq_b + 1))))
                    fzero 0 0)
            1 (Z.to_nat (len_of seq_a)).

Lemma filled_ok : exists st, filled = Ok st /\ fill_inv st m n.
Proof.
  unfold filled. fold m n. fold fill_start.
  apply fill_rows_ok; try lia.
  - pose proof m_nonneg. lia.
  - exact fill_start_inv.
Qed.

(** ** The traceback *)

(** The score a column stands for: the gap penalty for a gap column,
    the substitution score of its two characters otherwise. *)
Definition delta (a b : Z) : float :=
  if (a =? -1) || (b =? -1) then gap_extend
  else hat matrix (Z.land (at_ seq_a a) 31 * 32 + Z.land (at_ seq_b b) 31).

Definition deltas (ia ib : list Z) : list float :=
  map (fun c => delta (fst c) (snd c)) (combine ia ib).

(** The deltas summed from the end of the traceback to its start, with
    the additions of the fill. *)
Definition path_sum (ia ib : list Z) : float :=
  fold_left fadd (rev (deltas ia ib)) fzero.

(** A column: a gap in A, a gap in B, or two characters. *)
Definition column_ok (a b : Z) : Prop :=
  (a = -1 /\ 0 <= b < n) \/ (0 <= a < m /\ b = -1) \/ (0 <= a < m /\ 0 <= b < n).

Lemma path_sum_cons (a b : Z) (ia ib : list Z) :
  path_sum (a :: ia) (b :: ib) = fadd (path_sum ia ib) (delta a b).
Proof.
  unfold path_sum, deltas. cbn [combine map rev fst snd].
  now rewrite fold_left_app.
Qed.

Section Traceback.
Variable st : fill_state.
Hypothesis I : fill_inv st m n.

(** A filled cell above zero equals one of its three candidates. *)
Lemma cell_matches (i j : Z) :
  1 <= i <= m -> 1 <= j <= n -> fpos (cellv (H st) i j) ->
  cellv (H st) i j = fadd (cellv (H st) (i - 1) (j - 1)) (smatch i j) \/
  cellv (H st) i j = fadd (cellv (H st) (i - 1) j) gap_extend \/
  cellv (H st) i j = fadd (cellv (H st) i (j - 1)) gap_extend.
Proof.
  intros Hi Hj P.
  assert (R : recurrence (H st) i j).
  { apply (fi_rec st m n I); auto. unfold lexle. lia. }
  unfold recurrence, cell_value in R. rewrite R in P.
  apply best_of_cases in P. rewrite <- R in P. exact P.
Qed.

Lemma traceback_ok (fuel : nat) (i j : Z) (oa ob : list Z) :
  0 <= i <= m -> 0 <= j <= n -> (Z.to_nat (i + j) < fuel)%nat ->
  exists ca cb,
    traceback seq_a seq_b matrix gap_extend fuel n (H st) i j oa ob
      = Ok (oa ++ ca, ob ++ cb) /\
    Forall2 column_ok ca cb /\
    path_sum ca cb = cellv (H st) i j /\
    Z.of_nat (length ca) <= i + j.
Proof.
  pose proof m_nonneg as M0. pose proof n_nonneg as N0.
  revert i j oa ob. induction fuel as [|fuel IH]; intros i j oa ob Hi Hj Hf; [lia|].
  assert (Stop : cellv (H st) i j = fzero ->
            exists ca cb, Ok (oa, ob) = Ok (oa ++ ca, ob ++ cb) /\
              Forall2 column_ok ca cb /\ path_sum ca cb = cellv (H st) i j /\
              Z.of_nat (length ca) <= i + j).
  { intros E. exists [], []. rewrite !app_nil_r, E.
    split; [auto|]. split; [constructor|]. split; [reflexivity|cbn; lia]. }
  cbn [traceback].
  destruct (Z.ltb_spec 0 i) as [Pi|Pi]; destruct (Z.ltb_spec 0 j) as [Pj|Pj];
    cbn [andb]; try (apply Stop; apply (fi_zero st m n I); auto; lia).
  rewrite (idx_ok m n M0 N0 Hfit i j) by lia. cbn [bind].
  rewrite hget_ok by (rewrite (fi_size st m n I); apply idx_bound; lia). cbn [bind].
  change (hat (H st) (i * (n + 1) + j)) with (cellv (H st) i j).
  pose proof (fi_val st m n I i j Hi Hj) as V.
  destruct (fgt (cellv (H st) i j) fzero) eqn:G.
  2:{ apply Stop. destruct V as [V|V]; [exact V|]. unfold fpos in V. congruence. }
  rewrite (idx_ok m n M0 N0 Hfit (i - 1) (j - 1)) by lia. cbn [bind].
  rewrite hget_ok by (rewrite (fi_size st m n I); apply idx_bound; lia). cbn [bind].
  rewrite (idx_ok m n M0 N0 Hfit (i - 1) j) by lia. cbn [bind].
  rewrite hget_ok by (rewrite (fi_size st m n I); apply idx_bound; lia). cbn [bind].
  rewrite score_match_at_ok by lia. cbn [bind].
  change (hat (H st) ((i - 1) * (n + 1) + (j - 1))) with (cellv (H st) (i - 1) (j - 1)).
  change (hat (H st) ((i - 1) * (n + 1) + j)) with (cellv (H st) (i - 1) j).
  assert (D1 : delta (i - 1) (j - 1) = smatch i j).
  { unfold delta, smatch.
    destruct (Z.eqb_spec (i - 1) (-1)); [lia|].
    destruct (Z.eqb_spec (j - 1) (-1)); [lia|]. reflexivity. }
  assert (D2 : delta (i - 1) (-1) = gap_extend).
  { unfold delta. now rewrite Z.eqb_refl, orb_true_r. }
  assert (D3 : delta (-1) (j - 1) = gap_extend).
  { unfold delta. now rewrite Z.eqb_refl. }
  destruct (feq (cellv (H st) i j) (fadd (cellv (H st) (i - 1) (j - 1)) (smatch i j)))
    eqn:E1.
  { apply feq_pos in E1; [|exact G].
    destruct (IH (i - 1) (j - 1) (oa ++ [i - 1]) (ob ++ [j - 1]))
      as [ca [cb [T [C [S L]]]]]; try lia.
    exists ((i - 1) :: ca), ((j - 1) :: cb).
    rewrite T, <- !app_assoc. split; [reflexivity|].
    split; [constructor; [unfold column_ok; lia|exact C]|].
    split; [rewrite path_sum_cons, S, D1; now symmetry|cbn [length]; lia]. }
  destruct (feq (cellv (H st) i j) (fadd (cellv (H st) (i - 1) j) gap_extend)) eqn:E2.
  { apply feq_pos in E2; [|exact G].
    destruct (IH (i - 1) j (oa ++ [i - 1]) (ob ++ [-1]))
      as [ca [cb [T [C [S L]]]]]; try lia.
    exists ((i - 1) :: ca), (-1 :: cb).
    rewrite T, <- !app_assoc. split; [reflexivity|].
    split; [constructor; [unfold column_ok; lia|exact C]|].
    split; [rewrite path_sum_cons, S, D2; now symmetry|cbn [length]; lia]. }
  assert (E3 : cellv (H st) i j = fadd (cellv (H st) i (j - 1)) gap_extend).
  { destruct (cell_matches i j) as [M|[M|M]]; auto; try lia; exfalso.
    - rewrite <- M, feq_refl in E1; [discriminate|exact V].
    - rewrite <- M, feq_refl in E2; [discriminate|exact V]. }
  destruct (IH i (j - 1) (oa ++ [-1]) (ob ++ [j - 1]))
    as [ca [cb [T [C [S L]]]]]; try lia.
  exists (-1 :: ca), ((j - 1) :: cb).
  rewrite T, <- !app_assoc. split; [reflexivity|].
  split; [constructor; [unfold column_ok; lia|exact C]|].
  split; [rewrite path_sum_cons, S, D3; now symmetry|cbn [length]; lia].
Qed.
End Traceback.
End Fill.


(** ** The whole call *)

(** What a call leaves in [*out_score]. *)
Definition out_score_of (r : alignment) : float :=
  match r with
  | AllocFailed s => s
  | Aligned s _ _ _ => s
  end.

(** With a block from [calloc], a call fills the matrix and then either
    stops with an empty alignment or runs the traceback from the best
    cell. *)
Lemma align_run (seq_a seq_b : list Z) (matrix : list float) (gap_extend : float) :
  hsize matrix = 1024 -> fits (len_of seq_a) (len_of seq_b) ->
  exists st,
    filled seq_a seq_b matrix gap_extend = Ok st /\
    fill_inv seq_a seq_b matrix gap_extend st (len_of seq_a) (len_of seq_b) /\
    align_local_core seq_a seq_b matrix gap_extend true =
      if fle (max_score_val st) fzero then Ok (Aligned (max_score_val st) 0 [] [])
      else
        p <- traceback seq_a seq_b matrix gap_extend
               (S (Z.to_nat (max_i st + max_j st))) (len_of seq_b) (H st)
               (max_i st) (max_j st) [] [] ;;
        Ok (Aligned (max_score_val st) (Z.of_nat (length (fst p))) (fst p) (snd p)).
Proof.
  intros Hmat Hfit.
  destruct (filled_ok seq_a seq_b matrix gap_extend Hmat Hfit) as [st [E I]].
  exists st. split; [exact E|]. split; [exact I|].
  assert (M0 : 0 <= len_of seq_a) by (unfold len_of; lia).
  assert (N0 : 0 <= len_of seq_b) by (unfold len_of; lia).
  unfold align_local_core. cbv zeta. unfold fits in Hfit.
  assert (B1 : len_of seq_a + 1 <= (len_of seq_a + 1) * (len_of seq_b + 1)) by nia.
  assert (B2 : len_of seq_b + 1 <= (len_of seq_a + 1) * (len_of seq_b + 1)) by nia.
  rewrite !int_ok_ok by lia. cbn [bind negb].
  unfold filled in E. rewrite E. cbn [bind]. reflexivity.
Qed.

(** Every cell of the filled matrix is at most the running maximum. *)
Lemma filled_le (seq_a seq_b : list Z) (matrix : list float) (gap_extend : float)
    (st : fill_state) (i j : Z) :
  fill_inv seq_a seq_b matrix gap_extend st (len_of seq_a) (len_of seq_b) ->
  0 <= i <= len_of seq_a -> 0 <= j <= len_of seq_b ->
  fle (cellv seq_b (H st) i j) (max_score_val st) = true.
Proof.
  intros I Hi Hj.
  destruct (Z_lt_le_dec 0 i) as [Pi|Pi]; [destruct (Z_lt_le_dec 0 j) as [Pj|Pj]|].
  - apply (fi_le _ _ _ _ _ _ _ I); try lia. unfold lexle. lia.
  - rewrite (fi_zero _ _ _ _ _ _ _ I); try lia.
    apply fle_zero, (fi_max_val _ _ _ _ _ _ _ I).
  - rewrite (fi_zero _ _ _ _ _ _ _ I); try lia.
    apply fle_zero, (fi_max_val _ _ _ _ _ _ _ I).
Qed.

(** Every cell scanned before the best cell is strictly below the
    maximum. *)
Lemma filled_first (seq_a seq_b : list Z) (matrix : list float) (gap_extend : float)
    (st : fill_state) (i j : Z) :
  fill_inv seq_a seq_b matrix gap_extend st (len_of seq_a) (len_of seq_b) ->
  0 <= i <= len_of seq_a -> 0 <= j <= len_of seq_b ->
  lexlt i j (max_i st) (max_j st) ->
  fgt (max_score_val st) (cellv seq_b (H st) i j) = true.
Proof.
  intros I Hi Hj L.
  assert (P : fpos (max_score_val st)).
  { destruct (fi_best_kind _ _ _ _ _ _ _ I) as [[E1 [E2 _]]|[_ [_ [_ P]]]]; [|exact P].
    unfold lexlt in L. lia. }
  destruct (Z_lt_le_dec 0 i) as [Pi|Pi]; [destruct (Z_lt_le_dec 0 j) as [Pj|Pj]|].
  - apply (fi_first _ _ _ _ _ _ _ I); auto; lia.
  - rewrite (fi_zero _ _ _ _ _ _ _ I); try lia. exact P.
  - rewrite (fi_zero _ _ _ _ _ _ _ I); try lia. exact P.
Qed.

(** The traceback from the best cell returns. *)
Lemma traceback_from_best (seq_a seq_b : list Z) (matrix : list float)
    (gap_extend : float) (st : fill_state) :
  hsize matrix = 1024 -> fits (len_of seq_a) (len_of seq_b) ->
  fill_inv seq_a seq_b matrix gap_extend st (len_of seq_a) (len_of seq_b) ->
  exists ia ib,
    traceback seq_a seq_b matrix gap_extend
      (S (Z.to_nat (max_i st + max_j st))) (len_of seq_b) (H st)
      (max_i st) (max_j st) [] [] = Ok (ia, ib) /\
    Forall2 (column_ok seq_a seq_b) ia ib /\
    path_sum seq_a seq_b matrix gap_extend ia ib = max_score_val st /\
    Z.of_nat (length ia) <= max_i st + max_j st.
Proof.
  intros Hmat Hfit I.
  destruct (fi_best_range _ _ _ _ _ _ _ I) as [Ri Rj].
  destruct (traceback_ok seq_a seq_b matrix gap_extend Hmat Hfit st I
              (S (Z.to_nat (max_i st + max_j st))) (max_i st) (max_j st) [] [] Ri Rj)
    as [ia [ib [T [C [S L]]]]]; [lia|].
  exists ia, ib. cbn [app] in T. rewrite (fi_best _ _ _ _ _ _ _ I) in S. auto.
Qed.

(** C8 (best-cell selection).  For sequences whose matrix can be indexed
    in [int] and a substitution matrix of 1024 entries, a call whose
    [calloc] succeeds fills the matrix and returns, and [*out_score] is
    the maximum over all cells of the filled matrix: no cell exceeds it
    and the cell [(max_i, max_j)] holds it.  It is [0.0f] when all cells
    are zero, in particular when a sequence is empty, and the alignment
    is then empty.  Every cell that the row-major scan meets before
    [(max_i, max_j)] is strictly below the maximum, and when the maximum
    is above zero the indices returned are those of the traceback run
    from [(max_i, max_j)].  Comparisons are those of binary32. *)
Theorem best_cell_selection (seq_a seq_b : list Z) (matrix : list float)
    (gap_extend : float) :
  hsize matrix = 1024 -> fits (len_of seq_a) (len_of seq_b) ->
  exists st r,
    filled seq_a seq_b matrix gap_extend = Ok st /\
    align_local_core seq_a seq_b matrix gap_extend true = Ok r /\
    out_score_of r = max_score_val st /\
    (forall i j, 0 <= i <= len_of seq_a -> 0 <= j <= len_of seq_b ->
       fle (cellv seq_b (H st) i j) (max_score_val st) = true) /\
    (0 <= max_i st <= len_of seq_a /\ 0 <= max_j st <= len_of seq_b) /\
    cellv seq_b (H st) (max_i st) (max_j st) = max_score_val st /\
    ((forall i j, 0 <= i <= len_of seq_a -> 0 <= j <= len_of seq_b ->
        cellv seq_b (H st) i j = fzero) -> max_score_val st = fzero) /\
    (len_of seq_a = 0 \/ len_of seq_b = 0 -> max_score_val st = fzero) /\
    (max_score_val st = fzero -> r = Aligned fzero 0 [] []) /\
    (forall i j, 0 <= i <= len_of seq_a -> 0 <= j <= len_of seq_b ->
       lexlt i j (max_i st) (max_j st) ->
       fgt (max_score_val st) (cellv seq_b (H st) i j) = true) /\
    (fpos (max_score_val st) ->
     exists p,
       traceback seq_a seq_b matrix gap_extend
         (S (Z.to_nat (max_i st + max_j st))) (len_of seq_b) (H st)
         (max_i st) (max_j st) [] [] = Ok p /\
       r = Aligned (max_score_val st) (Z.of_nat (length (fst p))) (fst p) (snd p)).
Proof.
  intros Hmat Hfit.
  destruct (align_run seq_a seq_b matrix gap_extend Hmat Hfit) as [st [E [I A]]].
  destruct (traceback_from_best seq_a seq_b matrix gap_extend st Hmat Hfit I)
    as [ia [ib [T _]]].
  pose proof (fi_max_val _ _ _ _ _ _ _ I) as V.
  pose proof (fi_best_range _ _ _ _ _ _ _ I) as R.
  pose proof (fi_best _ _ _ _ _ _ _ I) as B.
  assert (Z0 : (forall i j, 0 <= i <= len_of seq_a -> 0 <= j <= len_of seq_b ->
                cellv seq_b (H st) i j = fzero) -> max_score_val st = fzero).
  { intros Hall. rewrite <- B. apply Hall; apply R. }
  rewrite T in A. cbn [bind fst snd] in A.
  exists st.
  exists (if fle (max_score_val st) fzero then Aligned (max_score_val st) 0 [] []
          else Aligned (max_score_val st) (Z.of_nat (length ia)) ia ib).
  split; [exact E|].
  split; [rewrite A; now destruct (fle (max_score_val st) fzero)|].
  split; [now destruct (fle (max_score_val st) fzero)|].
  split; [intros i j Hi Hj; now apply (filled_le seq_a seq_b matrix gap_extend)|].
  split; [exact R|]. split; [exact B|]. split; [exact Z0|].
  split.
  { intros Hemp. apply Z0. intros i j Hi Hj.
    apply (fi_zero _ _ _ _ _ _ _ I); lia. }
  split.
  { intros Ez. rewrite Ez. reflexivity. }
  split; [intros i j Hi Hj; now apply (filled_first seq_a seq_b matrix gap_extend)|].
  intros P. rewrite (fpos_not_le _ P). exists (ia, ib). split; [exact T|reflexivity].
Qed.

(** C3 (traceback consistency).  For sequences whose matrix can be
    indexed in [int] and a substitution matrix of 1024 entries, a call
    whose [calloc] succeeds returns, and when the score it reports is
    above zero: the two index lists have the same length [out_len], at
    most [len_a + len_b]; every column has a [-1] on exactly one side,
    with an index of the other sequence on the other side, or an index
    of each sequence on both sides; and adding the deltas of the columns
    from the last column to the first, starting from [0.0f] and with the
    additions of the fill, gives back the reported score exactly.  Every
    cell inside the matrix whose value is above zero, hence every cell
    at which the traceback takes a step, equals one of the three
    candidates that the traceback tests. *)
Theorem traceback_consistency (seq_a seq_b : list Z) (matrix : list float)
    (gap_extend : float) :
  hsize matrix = 1024 -> fits (len_of seq_a) (len_of seq_b) ->
  exists st r,
    filled seq_a seq_b matrix gap_extend = Ok st /\
    align_local_core seq_a seq_b matrix gap_extend true = Ok r /\
    (fpos (out_score_of r) ->
     exists ia ib,
       r = Aligned (out_score_of r) (Z.of_nat (length ia)) ia ib /\
       length ia = length ib /\
       Z.of_nat (length ia) <= len_of seq_a + len_of seq_b /\
       Forall2 (column_ok seq_a seq_b) ia ib /\
       path_sum seq_a seq_b matrix gap_extend ia ib = out_score_of r) /\
    (forall i j, 1 <= i <= len_of seq_a -> 1 <= j <= len_of seq_b ->
       fpos (cellv seq_b (H st) i j) ->
       feq (cellv seq_b (H st) i j)
           (fadd (cellv seq_b (H st) (i - 1) (j - 1)) (smatch seq_a seq_b matrix i j))
         = true \/
       feq (cellv seq_b (H st) i j) (fadd (cellv seq_b (H st) (i - 1) j) gap_extend)
         = true \/
       feq (cellv seq_b (H st) i j) (fadd (cellv seq_b (H st) i (j - 1)) gap_extend)
         = true).
Proof.
  intros Hmat Hfit.
  destruct (align_run seq_a seq_b matrix gap_extend Hmat Hfit) as [st [E [I A]]].
  destruct (traceback_from_best seq_a seq_b matrix gap_extend st Hmat Hfit I)
    as [ia [ib [T [C [S L]]]]].
  pose proof (fi_best_range _ _ _ _ _ _ _ I) as R.
  rewrite T in A. cbn [bind fst snd] in A.
  exists st.
  exists (if fle (max_score_val st) fzero then Aligned (max_score_val st) 0 [] []
          else Aligned (max_score_val st) (Z.of_nat (length ia)) ia ib).
  split; [exact E|].
  split; [rewrite A; now destruct (fle (max_score_val st) fzero)|].
  split.
  - intros P.
    assert (P' : fpos (max_score_val st)).
    { now destruct (fle (max_score_val st) fzero). }
    rewrite (fpos_not_le _ P'). cbn [out_score_of].
    exists ia, ib. split; [reflexivity|].
    split; [exact (Forall2_length C)|].
    split; [lia|]. split; [exact C|exact S].
  - intros i j Hi Hj P.
    pose proof (fi_val _ _ _ _ _ _ _ I i j ltac:(lia) ltac:(lia)) as V.
    destruct (cell_matches seq_a seq_b matrix gap_extend st I i j Hi Hj P) as [M|[M|M]].
    + left. rewrite <- M. now apply feq_refl.
    + right. left. rewrite <- M. now apply feq_refl.
    + right. right. rewrite <- M. now apply feq_refl.
Qed.

(** ** A sample call *)

Definition two : float := S754_finite false 8388608 (-22).
Definition twelve : float := S754_finite false 12582912 (-20).

(** [2.0f] for equal letters, [-1.0f] for different ones. *)
Definition identity_matrix : list float :=
  map (fun k => if Nat.eqb (k / 32) (k mod 32) then two else fminus_one) (seq 0 1024).

(** ["ACACACTA"] and ["AGCACACA"] *)
Definition sample_a : list Z := [65; 67; 65; 67; 65; 67; 84; 65].
Definition sample_b : list Z := [65; 71; 67; 65; 67; 65; 67; 65].

Lemma best_cell_selection_witness :
  exists st,
    filled sample_a sample_b identity_matrix fminus_one = Ok st /\
    align_local_core sample_a sample_b identity_matrix fminus_one true
      = Ok (Aligned twelve 9 [7; 6; 5; 4; 3; 2; 1; -1; 0] [7; -1; 6; 5; 4; 3; 2; 1; 0]) /\
    max_score_val st = twelve /\
    cellv sample_b (H st) (max_i st) (max_j st) = twelve /\
    fgt (max_score_val st) (cellv sample_b (H st) 7 7) = true.
Proof.
  destruct (best_cell_selection sample_a sample_b identity_matrix fminus_one)
    as [st [r [E [A [S [_ [_ [B [_ [_ [_ [F _]]]]]]]]]]]].
  - reflexivity.
  - vm_compute. discriminate.
  - assert (A' : align_local_core sample_a sample_b identity_matrix fminus_one true
              = Ok (Aligned twelve 9 [7; 6; 5; 4; 3; 2; 1; -1; 0]
                            [7; -1; 6; 5; 4; 3; 2; 1; 0])) by (vm_compute; reflexivity).
    rewrite A' in A. injection A as <-. cbn [out_score_of] in S.
    assert (M : (max_i st, max_j st) = (8, 8)).
    { vm_compute in E. injection E as <-. reflexivity. }
    injection M as Mi Mj.
    exists st. split; [exact E|]. split; [exact A'|]. split; [now symmetry|].
    split; [now rewrite B|].
    apply F; [cbn; lia|cbn; lia|]. unfold lexlt. lia.
Defined.

Lemma traceback_consistency_witness :
  exists ia ib,
    align_local_core sample_a sample_b identity_matrix fminus_one true
      = Ok (Aligned twelve 9 ia ib) /\
    length ia = length ib /\
    Forall2 (column_ok sample_a sample_b) ia ib /\
    path_sum sample_a sample_b identity_matrix fminus_one ia ib = twelve.
Proof.
  destruct (traceback_consistency sample_a sample_b identity_matrix fminus_one)
    as [st [r [E [A [P _]]]]].
  - reflexivity.
  - vm_compute. discriminate.
  - assert (A' : align_local_core sample_a sample_b identity_matrix fminus_one true
              = Ok (Aligned twelve 9 [7; 6; 5; 4; 3; 2; 1; -1; 0]
                            [7; -1; 6; 5; 4; 3; 2; 1; 0])) by (vm_compute; reflexivity).
    rewrite A' in A. injection A as <-. cbn [out_score_of] in P.
    destruct P as [ia [ib [R [L [_ [C S]]]]]]; [reflexivity|].
    injection R as _ <- <-.
    eexists _, _. split; [exact A'|]. split; [exact L|]. split; [exact C|exact S].
Defined.

(** * Further properties of the builder *)

(** ** Induction over the calls of a run *)

Section BuildInduction.
Variables (n : Z) (P : list link -> MaxSpanningTree -> Prop).
Hypothesis P_new : forall t0, new_tree n = Ok t0 -> P [] t0.
Hypothesis P_step : forall h t e t' r,
  inv n h t -> P h t -> in_range n e -> Z.of_nat (length h) < INT_MAX ->
  offer (enough n) t e = Ok (t', r) -> inv n (h ++ [e]) t' ->
  outcome n t t' (link_a e) (link_b e) (link_score e) (link_raw_score e)
          (link_location e) (link_length e) r ->
  P (h ++ [e]) t'.

Lemma add_links_induct (es h : list link) (t : MaxSpanningTree) :
  inv n h t -> P h t -> Forall (in_range n) es ->
  Z.of_nat (length h) + Z.of_nat (length es) <= INT_MAX ->
  exists t', add_links t es = Ok t' /\ inv n (h ++ es) t' /\ P (h ++ es) t'.
Proof.
  revert h t. induction es as [|e es IH]; intros h t I Ph R L.
  - exists t. rewrite app_nil_r. auto.
  - inversion R as [|? ? Re Res]; subst. cbn [length] in L.
    destruct (offer_step n h t e I Re) as [t' [r [E [I' O]]]]; [lia|].
    cbn [add_links]. rewrite (wf_num n t (inv_wf n h t I)), E. cbn [bind fst].
    assert (Ph' : P (h ++ [e]) t').
    { apply (P_step h t e t' r); auto. lia. }
    destruct (IH (h ++ [e]) t' I' Ph' Res) as [t'' [E'' [I'' P'']]].
    { rewrite length_app. cbn. lia. }
    exists t''. split; [exact E''|]. rewrite <- app_assoc in I'', P''. auto.
Qed.

Lemma build_induct (es : list link) :
  0 <= n <= INT_MAX -> Forall (in_range n) es -> Z.of_nat (length es) <= INT_MAX ->
  exists t, build n es = Ok t /\ inv n es t /\ P es t.
Proof.
  intros Hn R L. unfold build.
  destruct (new_tree_wf n Hn) as [t0 [E0 W0]]. rewrite E0. cbn [bind].
  apply (add_links_induct es [] t0); auto.
  constructor; auto.
  - unfold new_tree in E0. destruct (n <? 0); inversion E0. reflexivity.
  - unfold new_tree in E0. destruct (n <? 0); inversion E0. reflexivity.
  - intros e [].
Qed.
End BuildInduction.

(** ** Where the stored links come from *)

(** The node [v] is as the constructor left it. *)
Definition placeholder (t : MaxSpanningTree) (v : Z) : Prop :=
  par t v = 0 /\ attrs t v = (-1, -1, -1, -1).

(** The node [v] stores the call [e]: its parent is the other end and
    the four attributes are those of the call. *)
Definition carries (t : MaxSpanningTree) (v : Z) (e : link) : Prop :=
  ((link_a e = v /\ link_b e = par t v) \/ (link_b e = v /\ link_a e = par t v)) /\
  attrs t v = (link_score e, link_raw_score e, link_location e, link_length e).

Definition provenance (N : Z) (h : list link) (t : MaxSpanningTree) : Prop :=
  forall v, 0 <= v < N ->
    placeholder t v \/
    exists e, In e h /\ link_a e <> link_b e /\ 0 <= link_score e /\ carries t v e.

Lemma provenance_score (N : Z) (h : list link) (t : MaxSpanningTree) (v : Z) :
  provenance N h t -> 0 <= v < N -> -1 <= sc t v.
Proof.
  intros P Hv. destruct (P v Hv) as [[_ A]|[e [_ [_ [S [_ A]]]]]];
    unfold attrs in A; inversion A; lia.
Qed.

Lemma provenance_weaken (N : Z) (h : list link) (e : link) (t t' : MaxSpanningTree) :
  provenance N h t -> par t' = par t -> attrs t' = attrs t ->
  provenance N (h ++ [e]) t'.
Proof.
  intros P Ep Ea v Hv. unfold placeholder, carries. rewrite Ep, Ea.
  destruct (P v Hv) as [H|[e0 [I H]]]; [now left|right].
  exists e0. split; [apply in_app_iff; now left|exact H].
Qed.

(** An accepted link: the node [x] stores the new call, the nodes of
    the reversed stretch store the calls their children stored, the
    others keep theirs. *)
Lemma provenance_accepted (N : Z) (h : list link) (e : link) (t t' : MaxSpanningTree)
    (x y c : Z) (px py : list Z) (pos : nat) :
  wf N t -> provenance N h t -> 0 <= x < N -> 0 <= y < N ->
  rootward_paths (par t) x y c px py ->
  accepted N t t' x y (link_score e) (link_raw_score e) (link_location e)
           (link_length e) px py pos ->
  ((link_a e = x /\ link_b e = y) \/ (link_b e = x /\ link_a e = y)) ->
  link_a e <> link_b e ->
  provenance N (h ++ [e]) t'.
Proof.
  intros W P Hx Hy R A Ends Ne v Hv.
  pose proof (wf_forest N t W) as F.
  destruct A as [A1 A2 A3 [[Q1 Q2] Q3 Q4] A5 A6 A7].
  destruct (in_dec Z.eq_dec v (chain (par t) x (S pos))) as [I|I].
  - apply chain_In in I. destruct I as [k [Hk ->]]. right.
    destruct k as [|k].
    + exists e. cbn [up]. split; [apply in_app_iff; right; now left|].
      split; [exact Ne|]. split.
      * pose proof (provenance_score N h t (up (par t) pos x) P
                      (up_range N (par t) F pos x Hx)). lia.
      * unfold carries. rewrite Q1. split; [tauto|exact A5].
    + set (u := up (par t) k x).
      assert (Hu : 0 <= u < N) by (apply (up_range N (par t) F); auto).
      destruct (Q3 (S k)) as [Q5 _]; [lia|].
      pose proof (A6 (S k) ltac:(lia)) as Q6.
      replace (S k - 1)%nat with k in Q5, Q6 by lia. fold u in Q5, Q6.
      destruct (P u Hu) as [[Z0 _]|[e0 [I0 [N0 [S0 [E0 T0]]]]]].
      * exfalso. apply (rp_nz_a _ _ _ _ _ _ R (S k)); [lia|]. exact Z0.
      * exists e0. split; [apply in_app_iff; now left|].
        split; [exact N0|]. split; [exact S0|].
        unfold carries. rewrite Q5, Q6. split; [|exact T0].
        change (up (par t) (S k) x) with (par t u). tauto.
  - assert (O : forall k, (k <= pos)%nat -> v <> up (par t) k x).
    { intros k Hk E. apply I. apply chain_In. exists k. split; [lia|exact E]. }
    destruct (Q4 v Hv O) as [Q5 _]. pose proof (A7 v ltac:(lia) O) as Q6.
    unfold placeholder, carries. rewrite Q5, Q6.
    destruct (P v Hv) as [H|[e0 [I0 H]]]; [now left|right].
    exists e0. split; [apply in_app_iff; now left|exact H].
Qed.

Lemma provenance_new (n : Z) (t0 : MaxSpanningTree) :
  new_tree n = Ok t0 -> provenance n [] t0.
Proof.
  unfold new_tree. destruct (Z.ltb_spec n 0); [discriminate|].
  intros E. inversion E. subst t0. intros v Hv. left.
  unfold placeholder, attrs, par, sc. cbn [parents scores raw_scores locations lengths].
  rewrite !at_assign by lia. auto.
Qed.

Lemma provenance_step (n : Z) (h : list link) (t : MaxSpanningTree) (e : link)
    (t' : MaxSpanningTree) (r : bool) :
  inv n h t -> provenance n h t -> in_range n e ->
  outcome n t t' (link_a e) (link_b e) (link_score e) (link_raw_score e)
          (link_location e) (link_length e) r ->
  provenance n (h ++ [e]) t'.
Proof.
  intros I P [Ha Hb] O. pose proof (inv_wf n h t I) as W.
  destruct O as [E L _ _|c pa pb Nab R Hw L _ _|c pa pb pos Nab R A _ _
                 |c pa pb pos Nab R A _ _].
  - destruct (par_links t t' L) as (P1 & _ & P3).
    now apply (provenance_weaken n h e t t').
  - destruct (par_links t t' L) as (P1 & _ & P3).
    now apply (provenance_weaken n h e t t').
  - apply (provenance_accepted n h e t t' (link_a e) (link_b e) c pa pb pos); auto.
  - apply (provenance_accepted n h e t t' (link_b e) (link_a e) c pb pa pos); auto.
    now apply rootward_sym.
Qed.

Lemma build_provenance (n : Z) (es : list link) :
  0 <= n <= INT_MAX -> Forall (in_range n) es -> Z.of_nat (length es) <= INT_MAX ->
  exists t, build n es = Ok t /\ inv n es t /\ provenance n es t.
Proof.
  apply (build_induct n (provenance n)).
  - apply provenance_new.
  - intros h t e t' r I P Re _ _ _ O. now apply (provenance_step n h t e t' r).
Qed.

(** X1.  After any calls with ids in range, every node either is as the
    constructor left it (parent [0], the four attributes [-1]) or
    stores one of the calls made: a call between two different nodes,
    with a score [>= 0], whose ends are the node and its parent and
    whose score, raw score, location and length are the node's
    attributes. *)
Theorem stored_links_offered (n : Z) (es : list link) :
  0 <= n <= INT_MAX -> Forall (in_range n) es -> Z.of_nat (length es) <= INT_MAX ->
  exists t, build n es = Ok t /\
    forall v, 0 <= v < n ->
      placeholder t v \/
      exists e, In e es /\ link_a e <> link_b e /\ 0 <= link_score e /\ carries t v e.
Proof.
  intros Hn R L. destruct (build_provenance n es Hn R L) as [t [E [_ P]]].
  exists t. split; [exact E|exact P].
Qed.

Lemma stored_links_offered_witness :
  exists t, build 5 three_links = Ok t /\
    (placeholder t 4 \/
     exists e, In e three_links /\ link_a e <> link_b e /\ 0 <= link_score e /\
               carries t 4 e).
Proof.
  destruct (stored_links_offered 5 three_links) as [t [E H]].
  - unfold INT_MAX. lia.
  - repeat constructor; cbn; lia.
  - cbn. unfold INT_MAX. lia.
  - exists t. split; [exact E|]. apply H. lia.
Defined.

(** ** The tree spans what the calls connect *)

(** [linked es u v]: [u] and [v] are connected by calls of [es] with a
    score [>= 0], taken in either direction. *)
Inductive linked (es : list link) : Z -> Z -> Prop :=
| linked_refl (v : Z) : linked es v v
| linked_call (e : link) :
    In e es -> 0 <= link_score e -> linked es (link_a e) (link_b e)
| linked_sym (u v : Z) : linked es u v -> linked es v u
| linked_trans (u v z : Z) : linked es u v -> linked es v z -> linked es u z.

Lemma joined_mono (N : Z) (p s : Z -> Z) (w w' u v : Z) :
  w' <= w -> joined N p s w u v -> joined N p s w' u v.
Proof.
  intros Hw J. induction J as [v|v Hv Hs|u v _ IH|u v z _ IH1 _ IH2].
  - apply joined_refl.
  - apply joined_link; [exact Hv|lia].
  - now apply joined_sym.
  - now apply joined_trans with (v := v).
Qed.

Lemma joined_linked (N : Z) (es : list link) (t : MaxSpanningTree) (u v : Z) :
  provenance N es t -> joined N (par t) (sc t) 0 u v -> linked es u v.
Proof.
  intros P J. induction J as [v|v Hv Hs|u v _ IH|u v z _ IH1 _ IH2].
  - apply linked_refl.
  - destruct (P v Hv) as [[_ A]|[e [I [_ [S [[[E1 E2]|[E1 E2]] _]]]]]].
    + unfold attrs in A. inversion A. lia.
    + rewrite <- E2, <- E1. now apply linked_call.
    + rewrite <- E2, <- E1. apply linked_sym. now apply linked_call.
  - now apply linked_sym.
  - now apply linked_trans with (v := v).
Qed.

Lemma linked_joined (N : Z) (es : list link) (t : MaxSpanningTree) (u v : Z) :
  inv N es t -> linked es u v -> joined N (par t) (sc t) 0 u v.
Proof.
  intros I J. induction J as [v|e He Hs|u v _ IH|u v z _ IH1 _ IH2].
  - apply joined_refl.
  - apply joined_mono with (w := link_score e); [exact Hs|].
    now apply (inv_joined N es t I).
  - now apply joined_sym.
  - now apply joined_trans with (v := v).
Qed.

(** X2.  After any calls with ids in range, two nodes are connected by
    links of the tree (nodes [v] with [scores[v] >= 0], joined to
    [parents[v]]) exactly when they are connected by calls that were
    made with a score [>= 0]: the tree spans the components of the
    input, no more and no less. *)
Theorem tree_spans_input (n : Z) (es : list link) :
  0 <= n <= INT_MAX -> Forall (in_range n) es -> Z.of_nat (length es) <= INT_MAX ->
  exists t, build n es = Ok t /\
    forall u v, joined n (par t) (sc t) 0 u v <-> linked es u v.
Proof.
  intros Hn R L. destruct (build_provenance n es Hn R L) as [t [E [I P]]].
  exists t. split; [exact E|]. intros u v. split.
  - now apply joined_linked.
  - now apply linked_joined.
Qed.

Lemma tree_spans_input_witness :
  exists t, build 5 three_links = Ok t /\
    (joined 5 (par t) (sc t) 0 1 3 <-> linked three_links 1 3).
Proof.
  destruct (tree_spans_input 5 three_links) as [t [E H]].
  - unfold INT_MAX. lia.
  - repeat constructor; cbn; lia.
  - cbn. unfold INT_MAX. lia.
  - exists t. split; [exact E|apply H].
Defined.

(** ** Calls that can never be accepted *)

(** A call is turned down when the weakest link of its cycle is not
    below its score. *)
Lemma offer_turned_down (n : Z) (h : list link) (t : MaxSpanningTree) (e : link) :
  inv n h t -> in_range n e -> Z.of_nat (length h) < INT_MAX ->
  (forall x, on_tree_path (par t) (link_a e) (link_b e) x -> link_score e <= sc t x) ->
  exists t', offer (enough n) t e = Ok (t', false) /\ unchanged_links t t'.
Proof.
  intros I Re L Hmin. pose proof Re as [Ha Hb].
  pose proof (wf_forest n t (inv_wf n h t I)) as F.
  destruct (offer_step n h t e I Re L) as [t' [r [E [_ O]]]].
  assert (No : forall x y c px py pos,
            0 <= x < n -> 0 <= y < n -> rootward_paths (par t) x y c px py ->
            (forall v, on_tree_path (par t) x y v -> link_score e <= sc t v) ->
            accepted n t t' x y (link_score e) (link_raw_score e) (link_location e)
                     (link_length e) px py pos -> False).
  { intros x y c px py pos Hx Hy R Hm A.
    pose proof (ac_pos _ _ _ _ _ _ _ _ _ _ _ _ A) as A1.
    pose proof (ac_weak _ _ _ _ _ _ _ _ _ _ _ _ A) as A2.
    assert (Ip : In (up (par t) pos x) (px ++ py)).
    { apply in_app_iff. left. rewrite (rp_a _ _ _ _ _ _ R). apply chain_In.
      now exists pos. }
    apply (rootward_tree_path n (par t) x y c px py) in Ip; auto.
    specialize (Hm _ Ip). lia. }
  destruct O as [Eab U _ _|c pa pb Nab R Hw U _ _|c pa pb pos Nab R A _ _
                 |c pa pb pos Nab R A _ _].
  - exists t'. auto.
  - exists t'. auto.
  - exfalso. apply (No _ _ _ _ _ _ Ha Hb R Hmin A).
  - exfalso.
    apply (No (link_b e) (link_a e) c pb pa pos Hb Ha (rootward_sym _ _ _ _ _ _ R));
      auto.
    intros v Hv. apply Hmin. now apply on_tree_path_sym.
Qed.

(** X3.  A call with a negative score is never accepted: on a builder
    reached by any calls with ids in range, [add_link] returns [false]
    and leaves the five link arrays as they were.  Hence a stored score
    is [-1], the placeholder, or [>= 0]. *)
Theorem negative_score_turned_down (n : Z) (es : list link) (e : link) :
  0 <= n <= INT_MAX -> Forall (in_range n) es -> Z.of_nat (length es) < INT_MAX ->
  in_range n e -> link_score e < 0 ->
  exists t t', build n es = Ok t /\
    offer (enough n) t e = Ok (t', false) /\ unchanged_links t t' /\
    forall v, 0 <= v < n -> sc t v = -1 \/ 0 <= sc t v.
Proof.
  intros Hn R L Re Hs.
  destruct (build_provenance n es Hn R) as [t [E [I P]]]; [lia|].
  assert (S : forall v, 0 <= v < n -> sc t v = -1 \/ 0 <= sc t v).
  { intros v Hv. destruct (P v Hv) as [[_ A]|[e0 [_ [_ [S0 [_ A]]]]]];
      unfold attrs in A; inversion A; lia. }
  destruct (offer_turned_down n es t e I Re L) as [t' [E' U]].
  - intros x [[[k Hk] _]|[[k Hk] _]]; subst x.
    + destruct (S (up (par t) k (link_a e))); try lia.
      apply (up_range n (par t) (wf_forest n t (inv_wf n es t I))). apply Re.
    + destruct (S (up (par t) k (link_b e))); try lia.
      apply (up_range n (par t) (wf_forest n t (inv_wf n es t I))). apply Re.
  - exists t, t'. auto.
Qed.

Lemma negative_score_turned_down_witness :
  exists t t', build 5 two_links = Ok t /\
    offer (enough 5) t (mkLink 1 4 (-3) (-3) 0 0) = Ok (t', false) /\
    unchanged_links t t'.
Proof.
  destruct (negative_score_turned_down 5 two_links (mkLink 1 4 (-3) (-3) 0 0))
    as [t [t' [E [O [U _]]]]].
  - unfold INT_MAX. lia.
  - repeat constructor; cbn; lia.
  - cbn. unfold INT_MAX. lia.
  - split; cbn; lia.
  - cbn. lia.
  - exists t, t'. auto.
Defined.

(** X4.  Making again a call that was made before changes nothing: on
    the builder reached by the calls [es], [add_link] with the
    arguments of any call of [es] returns [false] and leaves the five
    link arrays as they were. *)
Theorem repeated_call_turned_down (n : Z) (es : list link) (e : link) :
  0 <= n <= INT_MAX -> Forall (in_range n) es -> Z.of_nat (length es) < INT_MAX ->
  In e es ->
  exists t t', build n es = Ok t /\
    offer (enough n) t e = Ok (t', false) /\ unchanged_links t t'.
Proof.
  intros Hn R L He.
  destruct (build_inv n es Hn R) as [t [E I]]; [lia|].
  assert (Re : in_range n e) by (rewrite Forall_forall in R; auto).
  destruct (offer_turned_down n es t e I Re L) as [t' [E' U]].
  - apply (joined_tree_path n). now apply (inv_joined n es t I).
  - exists t, t'. auto.
Qed.

Lemma repeated_call_turned_down_witness :
  exists t t', build 5 three_links = Ok t /\
    offer (enough 5) t closing_link = Ok (t', false) /\ unchanged_links t t'.
Proof.
  destruct (repeated_call_turned_down 5 three_links closing_link)
    as [t [t' [E [O U]]]].
  - unfold INT_MAX. lia.
  - repeat constructor; cbn; lia.
  - cbn. unfold INT_MAX. lia.
  - unfold three_links. apply in_app_iff. right. now left.
  - exists t, t'. auto.
Defined.

(** ** [max_seen_id] *)

(** The largest id among the arguments of the calls, [0] if none. *)
Definition max_id (es : list link) : Z :=
  fold_left (fun m e => Z.max m (Z.max (link_a e) (link_b e))) es 0.

Lemma max_id_app (h : list link) (e : link) :
  max_id (h ++ [e]) = Z.max (max_id h) (Z.max (link_a e) (link_b e)).
Proof. unfold max_id. now rewrite fold_left_app. Qed.

Lemma fold_max_ge (es : list link) (m : Z) :
  m <= fold_left (fun m e => Z.max m (Z.max (link_a e) (link_b e))) es m /\
  forall e, In e es ->
    link_a e <= fold_left (fun m e => Z.max m (Z.max (link_a e) (link_b e))) es m /\
    link_b e <= fold_left (fun m e => Z.max m (Z.max (link_a e) (link_b e))) es m.
Proof.
  revert m. induction es as [|e0 es IH]; intros m; cbn [fold_left].
  - split; [lia|]. intros e [].
  - destruct (IH (Z.max m (Z.max (link_a e0) (link_b e0)))) as [H1 H2].
    split; [lia|]. intros e [<-|He]; [lia|auto].
Qed.

Lemma max_id_ge (es : list link) :
  0 <= max_id es /\
  forall e, In e es -> link_a e <= max_id es /\ link_b e <= max_id es.
Proof. apply fold_max_ge. Qed.

Lemma set_link_max (t : MaxSpanningTree) (n p s r l len : Z) (t' : MaxSpanningTree) :
  set_link t n p s r l len = Ok t' ->
  max_seen_id t' = Z.max (max_seen_id t) (Z.max n p).
Proof.
  unfold set_link. intros E. do 5 inv_bind E. inversion E. fields.
  destruct (Z.ltb_spec (max_seen_id t) n);
    match goal with |- context [?x <? p] => destruct (Z.ltb_spec x p) end; lia.
Qed.

Lemma vget_In (path : list Z) (i x : Z) : vget path i = Ok x -> In x path.
Proof.
  intros E. apply vget_inv in E. destruct E as [Hi ->]. unfold at_.
  apply nth_In. unfold vsize in Hi. lia.
Qed.

Lemma reverse_loop_max (path : list Z) (i : nat) (t t' : MaxSpanningTree) :
  reverse_loop t path i = Ok t' ->
  (forall x, In x path -> x <= max_seen_id t) ->
  max_seen_id t' = max_seen_id t.
Proof.
  revert t. induction i as [|i IH]; intros t E B; cbn [reverse_loop] in E.
  - now inversion E.
  - do 7 inv_bind E.
    match goal with
    | H1 : vget path (Z.of_nat (S i)) = Ok ?c, H2 : vget path _ = Ok ?q,
      H3 : set_link t ?c ?q _ _ _ _ = Ok ?t1 |- _ =>
        apply vget_In in H1; apply vget_In in H2; apply set_link_max in H3;
        assert (M : max_seen_id t1 = max_seen_id t)
          by (pose proof (B c H1); pose proof (B q H2); lia);
        rewrite <- M; apply IH; [exact E|]; intros y Hy; rewrite M; auto
    end.
Qed.

Lemma reverse_path_max (path : list Z) (k : Z) (t t' : MaxSpanningTree) :
  reverse_path t path k = Ok t' ->
  (forall x, In x path -> x <= max_seen_id t) ->
  max_seen_id t' = max_seen_id t.
Proof.
  unfold reverse_path. intros E B. do 2 inv_bind E.
  match goal with
  | H1 : reverse_loop t path _ = Ok ?t1, H2 : vget path 0 = Ok ?c |- _ =>
      apply reverse_loop_max in H1; [|exact B];
      apply vget_In in H2; apply set_link_max in E; pose proof (B c H2); lia
  end.
Qed.

Lemma prelude_max (t : MaxSpanningTree) (lp a b : Z) :
  max_seen_id (prelude t lp a b) = Z.max (max_seen_id t) (Z.max a b).
Proof.
  unfold prelude. fields.
  destruct (Z.ltb_spec (max_seen_id t) a); fields;
    match goal with |- context [?m <? b] => destruct (Z.ltb_spec m b) end;
    fields; lia.
Qed.

(** The parent of a node is never above [max_seen_id]. *)
Definition parents_seen (N : Z) (t : MaxSpanningTree) : Prop :=
  forall v, 0 <= v < N -> par t v <= max_seen_id t.

Lemma provenance_parents_seen (N : Z) (h : list link) (t : MaxSpanningTree) :
  provenance N h t -> max_seen_id t = max_id h -> parents_seen N t.
Proof.
  intros P M v Hv. rewrite M. destruct (max_id_ge h) as [G0 G].
  destruct (P v Hv) as [[Z0 _]|[e [I [_ [_ [[[_ E]|[_ E]] _]]]]]].
  - lia.
  - rewrite <- E. apply (G e I).
  - rewrite <- E. apply (G e I).
Qed.

Lemma walk_below (N : Z) (p : Z -> Z) (M a : Z) (k : nat) :
  forest N p -> 0 <= a < N -> a <= M -> (forall v, 0 <= v < N -> p v <= M) ->
  up p k a <= M.
Proof.
  intros F Ha Hle B. destruct k as [|k]; cbn [up]; [exact Hle|].
  apply B. now apply (up_range N p F).
Qed.

Lemma offer_max_seen (n : Z) (h : list link) (t : MaxSpanningTree) (e : link)
    (t' : MaxSpanningTree) (r : bool) :
  inv n h t -> parents_seen n t -> in_range n e -> Z.of_nat (length h) < INT_MAX ->
  offer (enough n) t e = Ok (t', r) ->
  max_seen_id t' = Z.max (max_seen_id t) (Z.max (link_a e) (link_b e)).
Proof.
  intros I B [Ha Hb] L E. pose proof (inv_wf n h t I) as W.
  unfold offer in E. rewrite add_link_eq in E. inv_bind E. cbv zeta in E.
  match goal with H : incr_ll _ = Ok ?lp |- _ =>
    unfold incr_ll in H;
    destruct (links_processed t <? LLONG_MAX); [|discriminate];
    inversion H; subst lp; clear H end.
  set (a := link_a e) in *. set (b := link_b e) in *.
  pose proof (prelude_max t (links_processed t + 1) a b) as M1.
  pose proof (prelude_wf n t a b W) as W1.
  destruct (prelude_links t (links_processed t + 1) a b) as ((L1 & _) & _).
  set (t1 := prelude t (links_processed t + 1) a b) in *.
  destruct (Z.eqb_spec a b) as [Eab|Nab].
  { inversion E. subst t'. exact M1. }
  destruct (wf_counts n t1 W1) as (K1 & _).
  destruct (find_meeting_point_ok n t1 a b (enough n) W1 Ha Hb) as [m [Em Mo]].
  { destruct (prelude_links t (links_processed t + 1) a b)
      as (_ & (_ & _ & _ & _ & _ & _ & _ & C8 & _ & _ & C11) & _).
    fold t1 in C8, C11. fields. pose proof (inv_processed n h t I) as Q.
    destruct (wf_counts n t W) as (K2 & _). lia. }
  { unfold enough. lia. }
  rewrite Em in E. cbn [bind] in E.
  destruct m as [t2 c pa pb|]; [|destruct Mo].
  destruct Mo as ((_ & C2 & C3 & _) & _ & _ & Pa & Pb & _).
  fields.
  assert (Ep : par (with_search_id t1 (search_id t1 + 1)) = par t).
  { unfold par. fields. now rewrite L1. }
  rewrite Ep in Pa, Pb.
  assert (M2 : max_seen_id t2 = Z.max (max_seen_id t) (Z.max a b)) by congruence.
  pose proof (wf_forest n t W) as F.
  assert (Ba : forall x, In x pa -> x <= max_seen_id t2).
  { intros x Hx. rewrite Pa in Hx. apply chain_In in Hx. destruct Hx as [i [_ ->]].
    apply (walk_below n); auto; [lia|]. intros v Hv. specialize (B v Hv). lia. }
  assert (Bb : forall x, In x pb -> x <= max_seen_id t2).
  { intros x Hx. rewrite Pb in Hx. apply chain_In in Hx. destruct Hx as [i [_ ->]].
    apply (walk_below n); auto; [lia|]. intros v Hv. specialize (B v Hv). lia. }
  unfold after_meeting in E. inv_bind E.
  destruct (which_path x); unfold relink in E.
  - do 3 inv_bind E. inversion E. fields.
    match goal with
    | H1 : reverse_path t2 pa _ = Ok _, H2 : set_link _ a b _ _ _ _ = Ok _ |- _ =>
        apply reverse_path_max in H1; [|exact Ba]; apply set_link_max in H2; lia
    end.
  - do 3 inv_bind E. inversion E. fields.
    match goal with
    | H1 : reverse_path t2 pb _ = Ok _, H2 : set_link _ b a _ _ _ _ = Ok _ |- _ =>
        apply reverse_path_max in H1; [|exact Bb]; apply set_link_max in H2; lia
    end.
  - inv_bind E. inversion E. fields. exact M2.
Qed.

Lemma build_max_seen (n : Z) (es : list link) :
  0 <= n <= INT_MAX -> Forall (in_range n) es -> Z.of_nat (length es) <= INT_MAX ->
  exists t, build n es = Ok t /\ inv n es t /\
    (provenance n es t /\ max_seen_id t = max_id es).
Proof.
  apply (build_induct n (fun h t => provenance n h t /\ max_seen_id t = max_id h)).
  - intros t0 E. split; [now apply provenance_new|].
    unfold new_tree in E. destruct (n <? 0); inversion E. reflexivity.
  - intros h t e t' r I [P M] Re L E _ O.
    split; [now apply (provenance_step n h t e t' r)|].
    rewrite max_id_app, <- M.
    apply (offer_max_seen n h t e t' r); auto.
    now apply (provenance_parents_seen n h t).
Qed.

(** X5.  After any calls with ids in range, [max_seen_id] is the
    largest id that was passed to [add_link] as [node_a] or [node_b],
    whether the call was accepted or not, and [0] when no call was
    made. *)
Theorem max_seen_id_exact (n : Z) (es : list link) :
  0 <= n <= INT_MAX -> Forall (in_range n) es -> Z.of_nat (length es) <= INT_MAX ->
  exists t, build n es = Ok t /\ max_seen_id t = max_id es.
Proof.
  intros Hn R L. destruct (build_max_seen n es Hn R L) as [t [E [_ [_ M]]]].
  exists t. auto.
Qed.

Lemma max_seen_id_exact_witness :
  exists t, build 5 three_links = Ok t /\ max_seen_id t = 3.
Proof.
  destruct (max_seen_id_exact 5 three_links) as [t [E M]].
  - unfold INT_MAX. lia.
  - repeat constructor; cbn; lia.
  - cbn. unfold INT_MAX. lia.
  - exists t. split; [exact E|]. rewrite M. reflexivity.
Defined.

(** ** [find_meeting_point] on a reachable builder *)

Lemma common_ancestor_above (N : Z) (p : Z -> Z) (a b c : Z) (pa pb : list Z) (x : Z) :
  forest N p -> 0 <= a < N -> 0 <= b < N -> rootward_paths p a b c pa pb ->
  anc p a x -> anc p b x -> anc p c x.
Proof.
  intros F Ha Hb R [i Hi] Bx.
  destruct (le_lt_dec (length pa) i) as [G|G].
  - exists (i - length pa)%nat. rewrite <- (rp_meet_a _ _ _ _ _ _ R), <- up_add.
    rewrite <- Hi. f_equal. lia.
  - exfalso.
    assert (Ix : In x pa).
    { rewrite (rp_a _ _ _ _ _ _ R). apply chain_In. exists i. auto. }
    apply (rootward_half N p a b c pa pb x F Ha Hb R) in Ix. tauto.
Qed.

(** X6.  On a builder reached by any calls with ids in range,
    [find_meeting_point] returns [true] for every two nodes in range:
    its [return false] is never taken.  The five link arrays are left
    as they were, the two paths are the walks from [node_a] and
    [node_b] up to, and without, the meeting node, they share no node,
    and the meeting node is the lowest node above both: every node
    above both is above it. *)
Theorem meeting_always_found (n : Z) (es : list link) (a b : Z) :
  0 <= n <= INT_MAX -> Forall (in_range n) es -> Z.of_nat (length es) < INT_MAX ->
  0 <= a < n -> 0 <= b < n ->
  exists t t2 c pa pb,
    build n es = Ok t /\
    find_meeting_point (enough n) t a b = Ok (Meeting t2 c pa pb) /\
    unchanged_links t t2 /\ rootward_paths (par t) a b c pa pb /\
    (forall x, anc (par t) a x -> anc (par t) b x -> anc (par t) c x).
Proof.
  intros Hn R L Ha Hb.
  destruct (build_inv n es Hn R) as [t [E I]]; [lia|].
  pose proof (inv_wf n es t I) as W.
  destruct (find_meeting_point_ok n t a b (enough n) W Ha Hb) as [m [Em Mo]].
  { destruct (wf_counts n t W) as (K & _).
    pose proof (inv_processed n es t I). lia. }
  { unfold enough. lia. }
  destruct m as [t2 c pa pb|]; [|destruct Mo].
  destruct Mo as ((_ & _ & C3 & C4 & C5 & C6 & C7 & _) & _ & _ & Pa & Pb & Ma & Mb
                  & Za & Zb & D).
  change (par (with_search_id t (search_id t + 1))) with (par t) in *.
  fields.
  assert (Rw : rootward_paths (par t) a b c pa pb) by (constructor; auto).
  exists t, t2, c, pa, pb. split; [exact E|]. split; [exact Em|].
  split; [unfold unchanged_links; auto|]. split; [exact Rw|].
  intros x. apply (common_ancestor_above n (par t) a b c pa pb x); auto.
  apply (wf_forest n t W).
Qed.

Lemma meeting_always_found_witness :
  exists t t2 c pa pb,
    build 5 two_links = Ok t /\
    find_meeting_point (enough 5) t 1 3 = Ok (Meeting t2 c pa pb) /\
    unchanged_links t t2 /\ rootward_paths (par t) 1 3 c pa pb.
Proof.
  destruct (meeting_always_found 5 two_links 1 3)
    as [t [t2 [c [pa [pb [E [M [U [R _]]]]]]]]].
  - unfold INT_MAX. lia.
  - repeat constructor; cbn; lia.
  - cbn. unfold INT_MAX. lia.
  - lia.
  - lia.
  - exists t, t2, c, pa, pb. auto.
Defined.

(** ** Which link [find_weakest_link_in_cycle] picks *)

Lemma scan_path_first (N : Z) (t : MaxSpanningTree) (tag : which) (path : list Z)
    (i0 : Z) (acc : weakest) :
  vsize (scores t) = N -> (forall x, In x path -> 0 <= x < N) ->
  0 <= i0 -> i0 + vsize path <= INT_MAX ->
  exists acc', scan_path t tag path i0 acc = Ok acc' /\
    ((acc' = acc /\ forall x, In x path -> min_score acc <= sc t x) \/
     (which_path acc' = tag /\
      exists j, (j < length path)%nat /\ position acc' = i0 + Z.of_nat j /\
        min_score acc' = sc t (nth j path 0) /\ min_score acc' < min_score acc /\
        (forall k, (k < j)%nat -> min_score acc' < sc t (nth k path 0)) /\
        (forall x, In x path -> min_score acc' <= sc t x))).
Proof.
  intros Hs. revert i0 acc.
  induction path as [|x rest IH]; intros i0 acc Hr Hi Hl.
  - exists acc. split; [reflexivity|]. left. split; [reflexivity|]. intros x [].
  - cbn [scan_path]. unfold vsize in Hl. cbn [length] in Hl.
    rewrite vget_ok by (rewrite Hs; apply Hr; now left). cbn [bind].
    fold (sc t x).
    set (acc1 := if sc t x <? min_score acc
                 then mkWeakest (sc t x) tag (to_int i0) else acc).
    destruct (IH (i0 + 1) acc1) as [acc' [E B]].
    { intros y Hy. apply Hr. now right. }
    { lia. }
    { unfold vsize. lia. }
    exists acc'. split; [exact E|].
    assert (M1 : min_score acc1 <= sc t x /\ min_score acc1 <= min_score acc).
    { unfold acc1. destruct (Z.ltb_spec (sc t x) (min_score acc)); cbn; lia. }
    destruct B as [[-> B]|[B1 [j [J1 [J2 [J3 [J4 [J5 J6]]]]]]]].
    + unfold acc1 in *. destruct (Z.ltb_spec (sc t x) (min_score acc)).
      * right. cbn [which_path min_score position] in *. split; [reflexivity|].
        exists O. cbn [nth length]. rewrite to_int_small by lia.
        split; [lia|]. split; [lia|]. split; [reflexivity|]. split; [lia|].
        split; [intros k Hk; lia|]. intros y [<-|Hy]; [lia|auto].
      * left. split; [reflexivity|]. intros y [<-|Hy]; [lia|auto].
    + right. split; [exact B1|]. exists (S j). cbn [nth length].
      split; [lia|]. split; [lia|]. split; [exact J3|]. split; [lia|].
      split.
      * intros k Hk. destruct k as [|k]; [lia|]. apply J5. lia.
      * intros y [<-|Hy]; [lia|auto].
Qed.

(** X7.  [find_weakest_link_in_cycle] returns the least of the new
    score and the scores of the path nodes, and says where it found it,
    the first find winning: ['n'] with position [-1] when no path node
    is below the new score; ['a'] with the first position of the least
    score in [path_a] when that score is below the new one and no node
    of [path_b] is below it; ['b'] with the first position of the least
    score in [path_b] when that score is below the new one and below
    every score of [path_a]. *)
Theorem weakest_link_choice (N : Z) (t : MaxSpanningTree) (pa pb : list Z)
    (new_score : Z) :
  vsize (scores t) = N ->
  (forall x, In x pa -> 0 <= x < N) -> (forall x, In x pb -> 0 <= x < N) ->
  vsize pa <= INT_MAX -> vsize pb <= INT_MAX ->
  exists wk, find_weakest_link_in_cycle t pa pb new_score = Ok wk /\
    match which_path wk with
    | path_new =>
        min_score wk = new_score /\ position wk = -1 /\
        forall x, In x (pa ++ pb) -> new_score <= sc t x
    | path_A =>
        exists j, (j < length pa)%nat /\ position wk = Z.of_nat j /\
          min_score wk = sc t (nth j pa 0) /\ min_score wk < new_score /\
          (forall k, (k < j)%nat -> min_score wk < sc t (nth k pa 0)) /\
          (forall x, In x (pa ++ pb) -> min_score wk <= sc t x)
    | path_B =>
        exists j, (j < length pb)%nat /\ position wk = Z.of_nat j /\
          min_score wk = sc t (nth j pb 0) /\ min_score wk < new_score /\
          (forall x, In x pa -> min_score wk < sc t x) /\
          (forall k, (k < j)%nat -> min_score wk < sc t (nth k pb 0)) /\
          (forall x, In x pb -> min_score wk <= sc t x)
    end.
Proof.
  intros Hs Ra Rb La Lb. unfold find_weakest_link_in_cycle.
  destruct (scan_path_first N t path_A pa 0 (mkWeakest new_score path_new (-1)))
    as [wa [Ea A]]; auto; try lia.
  rewrite Ea. cbn [bind].
  destruct (scan_path_first N t path_B pb 0 wa) as [wk [Eb B]]; auto; try lia.
  exists wk. split; [exact Eb|].
  destruct B as [[-> B]|[B1 [j [J1 [J2 [J3 [J4 [J5 J6]]]]]]]].
  - destruct A as [[-> A]|[A1 [j [J1 [J2 [J3 [J4 [J5 J6]]]]]]]].
    + cbn [which_path min_score position] in *. split; [reflexivity|].
      split; [reflexivity|]. intros x Hx. apply in_app_iff in Hx. destruct Hx; auto.
    + rewrite A1. exists j. cbn [min_score] in J4.
      split; [exact J1|]. split; [lia|]. split; [exact J3|]. split; [exact J4|].
      split; [exact J5|]. intros x Hx. apply in_app_iff in Hx. destruct Hx; auto.
  - rewrite B1. exists j.
    assert (Ma : min_score wa <= new_score /\
                 forall x, In x pa -> min_score wa <= sc t x).
    { destruct A as [[-> A]|[_ [j' [_ [_ [_ [A4 [_ A6]]]]]]]]; cbn [min_score] in *.
      - split; [lia|exact A].
      - split; [lia|exact A6]. }
    destruct Ma as [Ma1 Ma2].
    split; [exact J1|]. split; [lia|]. split; [exact J3|]. split; [lia|].
    split; [intros x Hx; specialize (Ma2 x Hx); lia|]. split; [exact J5|exact J6].
Qed.

Lemma weakest_link_choice_witness :
  exists t wk, build 5 two_links = Ok t /\
    find_weakest_link_in_cycle t [1; 2] [] 10 = Ok wk /\
    which_path wk = path_A /\ position wk = 0.
Proof.
  destruct (build 5 two_links) as [t|f] eqn:E; [|exfalso; vm_compute in E; discriminate].
  destruct (weakest_link_choice 5 t [1; 2] [] 10) as [wk [Ew H]].
  - vm_compute in E. inversion E. reflexivity.
  - intros x Hx. cbn in Hx. lia.
  - intros x Hx. cbn in Hx. lia.
  - cbn. unfold INT_MAX. lia.
  - cbn. unfold INT_MAX. lia.
  - exists t, wk. split; [reflexivity|]. split; [exact Ew|].
    vm_compute in E. inversion E. subst t. clear E.
    vm_compute in Ew. inversion Ew. subst wk. split; reflexivity.
Defined.

(** ** What [reverse_path] writes *)

(** X8.  For a path of distinct nodes in range and an index inside it,
    [reverse_path] returns and turns the links of the path around up to
    that index: [path[0]] becomes its own parent with the four
    attributes [-1]; every [path[k]] with [1 <= k <= up_to_index] gets
    [path[k-1]] as parent, with the attributes [path[k-1]] had before
    the call; the link that [path[up_to_index]] had is thereby lost; no
    other node, counter or visit stamp changes. *)
Theorem reverse_path_effect (N : Z) (path : list Z) (pos : nat) (t : MaxSpanningTree) :
  link_sizes N t -> NoDup path -> (forall x, In x path -> 0 <= x < N) ->
  (pos < length path)%nat ->
  exists t', reverse_path t path (Z.of_nat pos) = Ok t' /\
    link_sizes N t' /\ same_rest t t' /\
    par t' (nth 0 path 0) = nth 0 path 0 /\
    attrs t' (nth 0 path 0) = (-1, -1, -1, -1) /\
    (forall k, (1 <= k <= pos)%nat ->
       par t' (nth k path 0) = nth (k - 1) path 0 /\
       attrs t' (nth k path 0) = attrs t (nth (k - 1) path 0)) /\
    (forall x, 0 <= x -> (forall k, (k <= pos)%nat -> x <> nth k path 0) ->
       par t' x = par t x /\ attrs t' x = attrs t x).
Proof.
  intros LS ND R Hp. unfold reverse_path. rewrite Nat2Z.id.
  destruct (reverse_loop_ok N path pos t LS ND R Hp)
    as [t1 [E1 [LS1 [SR1 [_ [K1 O1]]]]]].
  rewrite E1. cbn [bind].
  change 0 with (Z.of_nat 0) at 1. rewrite (vget_nth path 0) by lia. cbn [bind].
  assert (P0 : 0 <= nth 0 path 0 < N) by (apply R; apply nth_In; lia).
  destruct (set_link_ok N t1 (nth 0 path 0) (nth 0 path 0) (-1) (-1) (-1) (-1) LS1 P0)
    as [t2 [E2 [LS2 [SR2 [_ [P2 [A2 O2]]]]]]].
  exists t2. split; [exact E2|]. split; [exact LS2|].
  split; [eapply same_rest_trans; eauto|]. split; [exact P2|]. split; [exact A2|].
  assert (D : forall j k, (j < length path)%nat -> (k < length path)%nat ->
                j <> k -> nth j path 0 <> nth k path 0).
  { intros j k Hj Hk Hne E. apply Hne. eapply NoDup_nth; eauto. }
  split.
  - intros k Hk. destruct (K1 k Hk) as [Q1 Q2].
    destruct (O2 (nth k path 0)) as [R1 R2].
    + apply R. apply nth_In. lia.
    + apply D; lia.
    + rewrite R1, R2. auto.
  - intros x Hx Hne. destruct (O2 x Hx) as [R1 R2]; [apply (Hne O); lia|].
    destruct (O1 x Hx) as [R3 R4]; [intros k Hk; apply Hne; lia|].
    rewrite R1, R2. auto.
Qed.

Lemma reverse_path_effect_witness :
  exists t t', build 5 two_links = Ok t /\
    reverse_path t [1; 2] 1 = Ok t' /\
    par t' 1 = 1 /\ par t' 2 = 1 /\ attrs t' 2 = attrs t 1.
Proof.
  destruct (build 5 two_links) as [t|f] eqn:E; [|exfalso; vm_compute in E; discriminate].
  destruct (reverse_path_effect 5 [1; 2] 1 t) as [t' [E' [_ [_ [P0 [_ [K _]]]]]]].
  - vm_compute in E. inversion E. repeat split.
  - repeat constructor; cbn; intuition lia.
  - intros x Hx. cbn in Hx. lia.
  - cbn. lia.
  - exists t, t'. split; [reflexivity|]. split; [exact E'|].
    split; [exact P0|]. apply (K 1%nat). lia.
Defined.

(** ** Ids outside the builder *)

(** X21.  [add_link] does not check its ids: on a builder reached by
    any calls with ids in range, a call with two different ids of which
    one is negative or not below [num_nodes] reads a vector outside its
    bounds in [find_meeting_point], which is undefined behaviour in C++
    and the fault [OutOfBounds] here.  It is the caller who must keep
    the ids in range. *)
Theorem id_out_of_range_faults (n : Z) (es : list link) (e : link) :
  0 <= n <= INT_MAX -> Forall (in_range n) es -> Z.of_nat (length es) < INT_MAX ->
  link_a e <> link_b e -> ~ in_range n e ->
  exists t, build n es = Ok t /\ offer (enough n) t e = Err OutOfBounds.
Proof.
  intros Hn R L Nab Out.
  destruct (build_inv n es Hn R) as [t [E I]]; [lia|].
  exists t. split; [exact E|].
  pose proof (inv_wf n es t I) as W.
  unfold offer. rewrite add_link_eq. unfold incr_ll.
  destruct (wf_counts n t W) as (K1 & _).
  pose proof (inv_processed n es t I) as Lp.
  destruct (Z.ltb_spec (links_processed t) LLONG_MAX);
    [|unfold INT_MAX, LLONG_MAX in *; lia].
  cbn [bind]. cbv zeta.
  destruct (Z.eqb_spec (link_a e) (link_b e)) as [Eab|_]; [contradiction|].
  pose proof (prelude_wf n t (link_a e) (link_b e) W) as W1.
  destruct (prelude_links t (links_processed t + 1) (link_a e) (link_b e))
    as (_ & (_ & _ & _ & _ & _ & _ & _ & _ & _ & _ & C11) & _).
  set (t1 := prelude t (links_processed t + 1) (link_a e) (link_b e)) in *.
  cbn [search_id with_counters with_max_seen_id with_links] in C11.
  unfold find_meeting_point, incr_int.
  destruct (Z.ltb_spec (search_id t1) INT_MAX) as [_|G]; [|lia].
  cbn [bind].
  set (t2 := with_search_id t1 (search_id t1 + 1)).
  assert (Vb : vsize (visited_b_search_ids t2) = n) by apply (wf_vb_ids n t1 W1).
  assert (Va : vsize (visited_a_search_ids t2) = n) by apply (wf_va_ids n t1 W1).
  assert (Vi : vsize (visited_a_indices t2) = n) by apply (wf_va_idx n t1 W1).
  assert (Vp : vsize (parents t2) = n) by apply (wf_parents n t1 W1).
  assert (Oob : forall v i, vsize v = n -> ~ 0 <= i < n -> vget v i = Err OutOfBounds).
  { intros v i Hv Hi. unfold vget. destruct (in_vec v i) eqn:Q; [|reflexivity].
    apply in_vec_true in Q. lia. }
  cbn [walk_loop enough]. unfold walk_a at 1. fields.
  destruct (Z_le_dec 0 (link_a e)) as [A0|A0];
    [destruct (Z_lt_dec (link_a e) n) as [A1|A1]|];
    try (rewrite (Oob _ (link_a e) Vb) by lia; reflexivity).
  assert (Ob : ~ 0 <= link_b e < n).
  { intros Q. apply Out. split; [lia|exact Q]. }
  rewrite vget_ok by lia. cbn [bind].
  destruct (wf_stamps n t1 W1 (link_a e) ltac:(lia)) as [_ Sb].
  change (visited_b_search_ids t2) with (visited_b_search_ids t1).
  change (search_id t2) with (search_id t1 + 1).
  destruct (Z.eqb_spec (at_ (visited_b_search_ids t1) (link_a e)) (search_id t1 + 1));
    [lia|].
  rewrite !vset_ok by lia. cbn [bind].
  destruct (Z.eqb_spec (link_a e) 0) as [Ez|Ez].
  - cbn [bind]. unfold walk_b at 1. fields.
    rewrite (Oob _ (link_b e)); [reflexivity| |exact Ob].
    rewrite vsize_upd. exact Va.
  - fields. rewrite vget_ok by lia. cbn [bind]. unfold walk_b at 1. fields.
    rewrite (Oob _ (link_b e)); [reflexivity| |exact Ob].
    rewrite vsize_upd. exact Va.
Qed.

Lemma id_out_of_range_faults_witness :
  exists t, build 5 two_links = Ok t /\
    offer (enough 5) t (mkLink 1 7 10 10 0 0) = Err OutOfBounds.
Proof.
  apply (id_out_of_range_faults 5 two_links (mkLink 1 7 10 10 0 0)).
  - unfold INT_MAX. lia.
  - repeat constructor; cbn; lia.
  - cbn. unfold INT_MAX. lia.
  - cbn. lia.
  - unfold in_range. cbn. lia.
Defined.

(** * Post-processing: [build_children_map], [find_root], [count_descendants] *)

(** ** Vectors of vectors *)

Definition lsize (c : list (list Z)) : Z := Z.of_nat (length c).

(** The element at an index known to be inside the vector. *)
Definition lat (c : list (list Z)) (p : Z) : list Z := nth (Z.to_nat p) c [].

Fixpoint lpush (k : nat) (i : Z) (c : list (list Z)) {struct c} : list (list Z) :=
  match c with
  | [] => []
  | l :: r =>
      match k with
      | O => (l ++ [i]) :: r
      | S k' => l :: lpush k' i r
      end
  end.

(** [c[p]] as an rvalue and [c[p].push_back(i)]. *)
Definition lget (c : list (list Z)) (p : Z) : res (list Z) :=
  if (0 <=? p) && (p <? lsize c) then Ok (lat c p) else Err OutOfBounds.

Definition push_back_at (c : list (list Z)) (p i : Z) : res (list (list Z)) :=
  if (0 <=? p) && (p <? lsize c) then Ok (lpush (Z.to_nat p) i c) else Err OutOfBounds.

(** [0, 1, ..., limit - 1]: the values of the loop variable of
    [for (int i = 0; i < limit; i++)]. *)
Definition ids_below (limit : Z) : list Z := map Z.of_nat (seq 0 (Z.to_nat limit)).

(** [std::min(max_seen_id + 1, num_nodes)], the sum in [int]. *)
Definition limit_of (t : MaxSpanningTree) : res Z :=
  m <- incr_int (max_seen_id t) ;; Ok (Z.min m (num_nodes t)).

(** [std::vector<std::vector<int>> children(limit)]: a negative
    [limit] converts to a size no vector can have, and the constructor
    throws. *)
Definition new_children (limit : Z) : res (list (list Z)) :=
  if limit <? 0 then Err BadAlloc else Ok (repeat [] (Z.to_nat limit)).

Section Children.
Variable std_sort : (Z -> Z -> bool) -> list Z -> list Z.

(** The first loop of [build_children_map]. *)
Fixpoint children_loop (t : MaxSpanningTree) (limit : Z) (ids : list Z)
    (children : list (list Z)) : res (list (list Z)) :=
  match ids with
  | [] => Ok children
  | i :: rest =>
      s <- vget (scores t) i ;;
      if 0 <=? s then
        p <- vget (parents t) i ;;
        if p <? limit then
          children <- push_back_at children p i ;;
          children_loop t limit rest children
        else children_loop t limit rest children
      else children_loop t limit rest children
  end.

Definition build_children_map (t : MaxSpanningTree) : res (list (list Z)) :=
  limit <- limit_of t ;;
  children <- new_children limit ;;
  children <- children_loop t limit (ids_below limit) children ;;
  Ok (map (std_sort (fun a b => at_ (scores t) b <? at_ (scores t) a)) children).
End Children.

(** The loop of [find_root] that fills its own children map: the same
    without the test [p < limit]. *)
Fixpoint root_children_loop (t : MaxSpanningTree) (ids : list Z)
    (children : list (list Z)) : res (list (list Z)) :=
  match ids with
  | [] => Ok children
  | i :: rest =>
      s <- vget (scores t) i ;;
      if 0 <=? s then
        p <- vget (parents t) i ;;
        children <- push_back_at children p i ;;
        root_children_loop t rest children
      else root_children_loop t rest children
  end.

(** The first loop of [find_root]; [parents[i]] is read only when
    [scores[i] < 0] is false. *)
Fixpoint roots_loop (t : MaxSpanningTree) (ids : list Z) (roots : list Z)
  : res (list Z) :=
  match ids with
  | [] => Ok roots
  | i :: rest =>
      s <- vget (scores t) i ;;
      if s <? 0 then roots_loop t rest (roots ++ [i])
      else
        p <- vget (parents t) i ;;
        roots_loop t rest (if p =? i then roots ++ [i] else roots)
  end.

(** [count_descendants]; the recursion is on a fuel argument, and
    [count +=] outside [int] is a fault. *)
Fixpoint count_descendants (fuel : nat) (children : list (list Z)) (node : Z)
  : res Z :=
  match fuel with
  | O => Err OutOfFuel
  | S fuel' =>
      kids <- lget children node ;;
      fold_left
        (fun acc child =>
           count <- acc ;;
           c <- count_descendants fuel' children child ;;
           int_ok (count + c))
        kids (Ok (to_int (vsize kids)))
  end.

(** The loop of [find_root] over the candidates: [st] holds
    [best_root] and [max_desc]. *)
Definition best_loop (fuel : nat) (children : list (list Z)) (roots : list Z)
    (st : Z * Z) : res (Z * Z) :=
  fold_left
    (fun acc r =>
       st <- acc ;;
       count <- count_descendants fuel children r ;;
       Ok (if snd st <? count then (r, count) else st))
    roots (Ok st).

(** The children map that [find_root] builds for itself. *)
Definition root_children (t : MaxSpanningTree) (limit : Z) : res (list (list Z)) :=
  children <- new_children limit ;;
  root_children_loop t (ids_below limit) children.

Definition find_root (fuel : nat) (t : MaxSpanningTree) : res Z :=
  limit <- limit_of t ;;
  roots <- roots_loop t (ids_below limit) [] ;;
  match roots with
  | [] => Ok 0
  | [r] => Ok r
  | r0 :: _ =>
      children <- root_children t limit ;;
      best <- best_loop fuel children roots (r0, -1) ;;
      Ok (fst best)
  end.

(** ** The children map *)

Lemma length_lpush (k : nat) (i : Z) (c : list (list Z)) :
  length (lpush k i c) = length c.
Proof.
  revert k. induction c as [|l r IH]; intros k; [reflexivity|].
  destruct k; cbn; auto.
Qed.

Lemma nth_lpush_same (k : nat) (i : Z) (c : list (list Z)) :
  (k < length c)%nat -> nth k (lpush k i c) [] = nth k c [] ++ [i].
Proof.
  revert k. induction c as [|l r IH]; intros k H; cbn in H; [lia|].
  destruct k; cbn; [reflexivity|]. apply IH. lia.
Qed.

Lemma nth_lpush_other (k j : nat) (i : Z) (c : list (list Z)) :
  k <> j -> nth j (lpush k i c) [] = nth j c [].
Proof.
  revert k j. induction c as [|l r IH]; intros k j H; [reflexivity|].
  destruct k, j; cbn; auto; lia.
Qed.

(** The node [i] hangs under [p] by a link. *)
Definition child_of (t : MaxSpanningTree) (p i : Z) : bool :=
  (0 <=? sc t i) && (par t i =? p).

Lemma child_of_cases (t : MaxSpanningTree) (p i : Z) :
  (child_of t p i = true /\ 0 <= sc t i /\ par t i = p) \/
  (child_of t p i = false /\ ~ (0 <= sc t i /\ par t i = p)).
Proof.
  unfold child_of. destruct (Z.leb_spec 0 (sc t i)); destruct (Z.eqb_spec (par t i) p);
    cbn [andb]; [left|right|right|right]; split; auto; lia.
Qed.

Lemma child_of_true (t : MaxSpanningTree) (p i : Z) :
  child_of t p i = true <-> 0 <= sc t i /\ par t i = p.
Proof.
  destruct (child_of_cases t p i) as [[-> C]|[-> C]]; split; auto; try discriminate.
Qed.

Lemma push_back_at_ok (c : list (list Z)) (p i : Z) :
  0 <= p < lsize c ->
  exists c', push_back_at c p i = Ok c' /\ lsize c' = lsize c /\
    lat c' p = lat c p ++ [i] /\
    forall q, 0 <= q -> q <> p -> lat c' q = lat c q.
Proof.
  intros Hp. unfold push_back_at.
  destruct (Z.leb_spec 0 p); [|lia]. destruct (Z.ltb_spec p (lsize c)); [|lia].
  cbn [andb]. eexists. split; [reflexivity|]. unfold lsize, lat in *.
  rewrite length_lpush. split; [reflexivity|]. split.
  - apply nth_lpush_same. lia.
  - intros q Hq Hne. apply nth_lpush_other. lia.
Qed.

Lemma children_loop_ok (N : Z) (t : MaxSpanningTree) (limit : Z) (ids : list Z)
    (c : list (list Z)) :
  vsize (scores t) = N -> vsize (parents t) = N ->
  (forall i, In i ids -> 0 <= i < N) ->
  (forall i, In i ids -> 0 <= sc t i -> 0 <= par t i) ->
  lsize c = limit ->
  exists c', children_loop t limit ids c = Ok c' /\ lsize c' = limit /\
    forall p, 0 <= p < limit -> lat c' p = lat c p ++ filter (child_of t p) ids.
Proof.
  intros Hs Hp. revert c. induction ids as [|i ids IH]; intros c R Pp Hc.
  - exists c. split; [reflexivity|]. split; [exact Hc|].
    intros p _. cbn. now rewrite app_nil_r.
  - assert (Ri : 0 <= i < N) by (apply R; now left).
    assert (R' : forall j, In j ids -> 0 <= j < N) by (intros j Hj; apply R; now right).
    assert (Pp' : forall j, In j ids -> 0 <= sc t j -> 0 <= par t j)
      by (intros j Hj; apply Pp; now right).
    cbn [children_loop]. rewrite !vget_ok by lia. cbn [bind].
    fold (sc t i).
    destruct (Z.leb_spec 0 (sc t i)) as [A|A].
    + cbn [bind]. fold (par t i).
      destruct (Z.ltb_spec (par t i) limit) as [B|B].
      * destruct (push_back_at_ok c (par t i) i) as [c1 [E1 [S1 [L1 L2]]]].
        { specialize (Pp i (or_introl eq_refl) A). lia. }
        rewrite E1. cbn [bind].
        destruct (IH c1 R' Pp') as [c' [E' [S' L']]]; [lia|].
        exists c'. split; [exact E'|]. split; [exact S'|].
        intros p Hpl. rewrite (L' p Hpl). cbn [filter].
        destruct (child_of_cases t p i) as [[-> [_ C]]|[-> C]].
        -- rewrite <- C, L1, <- app_assoc. reflexivity.
        -- rewrite L2; [reflexivity|lia|]. intros Ep. apply C. auto.
      * destruct (IH c R' Pp' Hc) as [c' [E' [S' L']]].
        exists c'. split; [exact E'|]. split; [exact S'|].
        intros p Hpl. rewrite (L' p Hpl). cbn [filter].
        destruct (child_of_cases t p i) as [[-> [_ C]]|[-> C]]; [lia|reflexivity].
    + destruct (IH c R' Pp' Hc) as [c' [E' [S' L']]].
      exists c'. split; [exact E'|]. split; [exact S'|].
      intros p Hpl. rewrite (L' p Hpl). cbn [filter].
      destruct (child_of_cases t p i) as [[-> [C _]]|[-> C]]; [lia|reflexivity].
Qed.

(** When every parent is below [limit], the loop of [find_root] fills
    the same map. *)
Lemma root_children_loop_ok (N : Z) (t : MaxSpanningTree) (limit : Z) (ids : list Z)
    (c : list (list Z)) :
  vsize (scores t) = N -> vsize (parents t) = N ->
  (forall i, In i ids -> 0 <= i < N) ->
  (forall i, In i ids -> 0 <= sc t i -> 0 <= par t i < limit) ->
  lsize c = limit ->
  exists c', root_children_loop t ids c = Ok c' /\ lsize c' = limit /\
    forall p, 0 <= p < limit -> lat c' p = lat c p ++ filter (child_of t p) ids.
Proof.
  intros Hs Hp. revert c. induction ids as [|i ids IH]; intros c R Pp Hc.
  - exists c. split; [reflexivity|]. split; [exact Hc|].
    intros p _. cbn. now rewrite app_nil_r.
  - assert (Ri : 0 <= i < N) by (apply R; now left).
    assert (R' : forall j, In j ids -> 0 <= j < N) by (intros j Hj; apply R; now right).
    assert (Pp' : forall j, In j ids -> 0 <= sc t j -> 0 <= par t j < limit)
      by (intros j Hj; apply Pp; now right).
    cbn [root_children_loop]. rewrite !vget_ok by lia. cbn [bind].
    fold (sc t i).
    destruct (Z.leb_spec 0 (sc t i)) as [A|A].
    + cbn [bind]. fold (par t i).
      destruct (push_back_at_ok c (par t i) i) as [c1 [E1 [S1 [L1 L2]]]].
      { specialize (Pp i (or_introl eq_refl) A). lia. }
      rewrite E1. cbn [bind].
      destruct (IH c1 R' Pp') as [c' [E' [S' L']]]; [lia|].
      exists c'. split; [exact E'|]. split; [exact S'|].
      intros p Hpl. rewrite (L' p Hpl). cbn [filter].
      destruct (child_of_cases t p i) as [[-> [_ C]]|[-> C]].
      * rewrite <- C, L1, <- app_assoc. reflexivity.
      * rewrite L2; [reflexivity|lia|]. intros Ep. apply C. auto.
    + destruct (IH c R' Pp' Hc) as [c' [E' [S' L']]].
      exists c'. split; [exact E'|]. split; [exact S'|].
      intros p Hpl. rewrite (L' p Hpl). cbn [filter].
      destruct (child_of_cases t p i) as [[-> [C _]]|[-> C]]; [lia|reflexivity].
Qed.

Lemma lat_map (f : list Z -> list Z) (c : list (list Z)) (p : Z) :
  0 <= p < lsize c -> lat (map f c) p = f (lat c p).
Proof.
  intros H. unfold lat, lsize in *.
  rewrite nth_indep with (d' := f []) by (rewrite length_map; lia).
  apply map_nth.
Qed.

Lemma lat_repeat (k : nat) (p : Z) : lat (repeat [] k) p = [].
Proof.
  unfold lat. destruct (le_lt_dec k (Z.to_nat p)) as [G|G].
  - apply nth_overflow. now rewrite repeat_length.
  - now apply nth_repeat_lt.
Qed.

Lemma in_ids_below (limit i : Z) : In i (ids_below limit) <-> 0 <= i < limit.
Proof.
  unfold ids_below. rewrite in_map_iff. split.
  - intros [j [<- Hj]]. apply in_seq in Hj. lia.
  - intros Hi. exists (Z.to_nat i). split; [lia|apply in_seq; lia].
Qed.

(** ** What holds of a builder after a run *)

Lemma max_id_below (n : Z) (es : list link) :
  Forall (in_range n) es -> max_id es < Z.max n 1.
Proof.
  intros R. unfold max_id.
  assert (G : forall m, m < Z.max n 1 ->
            fold_left (fun m e => Z.max m (Z.max (link_a e) (link_b e))) es m
              < Z.max n 1).
  { induction R as [|e es [Ha Hb] _ IH]; intros m Hm; cbn [fold_left]; [exact Hm|].
    apply IH. lia. }
  apply G. lia.
Qed.

(** The facts the post-processing relies on, [limit] being the bound
    of its loops. *)
Record settled (n : Z) (es : list link) (t : MaxSpanningTree) (limit : Z) : Prop :=
  mkSettled {
  st_wf : wf n t;
  st_prov : provenance n es t;
  st_limit : limit_of t = Ok limit;
  st_limit_eq : limit = Z.min (max_id es + 1) n;
  st_range : 0 <= limit <= n;
  st_linked : forall i, 0 <= i < n -> 0 <= sc t i -> 0 <= i < limit /\ 0 <= par t i < limit
}.

Lemma build_settled (n : Z) (es : list link) :
  0 <= n <= INT_MAX -> Forall (in_range n) es -> Z.of_nat (length es) <= INT_MAX ->
  exists t limit, build n es = Ok t /\ settled n es t limit.
Proof.
  intros Hn R L.
  destruct (build_max_seen n es Hn R L) as [t [E [I [P M]]]].
  pose proof (inv_wf n es t I) as W.
  pose proof (max_id_below n es R) as B. destruct (max_id_ge es) as [G0 _].
  exists t, (Z.min (max_id es + 1) n). split; [exact E|].
  constructor; auto.
  - unfold limit_of, incr_int. rewrite M, (wf_num n t W).
    destruct (Z.ltb_spec (max_id es) INT_MAX); [reflexivity|unfold INT_MAX in *; lia].
  - lia.
  - intros i Hi Hs. destruct (wf_seen n t W) as [_ S2].
    assert (i <= max_seen_id t).
    { destruct (Z_lt_le_dec (max_seen_id t) i) as [G|G]; [|lia].
      rewrite S2 in Hs; lia. }
    pose proof (provenance_parents_seen n es t P M i Hi).
    pose proof (forest_closed n (par t) (wf_forest n t W) i Hi). lia.
Qed.

(** X9.  Whatever sorting function [std::sort] is, as long as it keeps
    the standard's promise: on a builder reached by any calls with ids
    in range, [build_children_map] returns a vector of
    [min(max_seen_id + 1, num_nodes)] lists; the list at [p] holds
    exactly the nodes [i] with [scores[i] >= 0] and [parents[i] == p],
    each once, in an order in which the scores never go up; and the
    parent of every such node is inside the vector, so that no linked
    node is left out by the test [p < limit]. *)
Theorem children_map_contract (sort : (Z -> Z -> bool) -> list Z -> list Z)
    (n : Z) (es : list link) :
  sorts sort ->
  0 <= n <= INT_MAX -> Forall (in_range n) es -> Z.of_nat (length es) <= INT_MAX ->
  exists t children, build n es = Ok t /\
    build_children_map sort t = Ok children /\
    lsize children = Z.min (max_id es + 1) n /\
    (forall p, 0 <= p < lsize children ->
       (forall i, In i (lat children p) <-> 0 <= i < n /\ 0 <= sc t i /\ par t i = p) /\
       NoDup (lat children p) /\
       StronglySorted (fun a b => sc t b <= sc t a) (lat children p)) /\
    (forall i, 0 <= i < n -> 0 <= sc t i -> 0 <= par t i < lsize children).
Proof.
  intros S Hn R L.
  destruct (build_settled n es Hn R L) as [t [limit [E [W P EL Eq Rl Lk]]]].
  exists t.
  destruct (children_loop_ok n t limit (ids_below limit) (repeat [] (Z.to_nat limit)))
    as [c [Ec [Sc Lc]]].
  { apply (wf_scores n t W). }
  { apply (wf_parents n t W). }
  { intros i Hi. apply in_ids_below in Hi. lia. }
  { intros i Hi Hs. apply in_ids_below in Hi. apply Lk; lia. }
  { unfold lsize. rewrite repeat_length. lia. }
  set (comp := fun a b : Z => at_ (scores t) b <? at_ (scores t) a).
  exists (map (sort comp) c).
  split; [exact E|]. split.
  { unfold build_children_map. rewrite EL. cbn [bind]. unfold new_children.
    destruct (Z.ltb_spec limit 0); [lia|]. cbn [bind]. rewrite Ec. reflexivity. }
  assert (Sz : lsize (map (sort comp) c) = limit).
  { unfold lsize in *. now rewrite length_map. }
  rewrite Sz. split; [exact Eq|]. split; [|intros i Hi Hs; now apply Lk].
  intros p Hp. rewrite lat_map by lia. rewrite (Lc p Hp), lat_repeat. cbn [app].
  destruct (S comp (filter (child_of t p) (ids_below limit))
              (score_order_strict_weak (at_ (scores t)))) as [Pm Q].
  split; [|split].
  - intros i. rewrite <- (Permutation_in' (eq_refl i) Pm).
    rewrite filter_In, in_ids_below, child_of_true. split; [lia|].
    intros [Hi [Hs Hpar]]. destruct (Lk i Hi Hs). lia.
  - apply (Permutation_NoDup Pm). apply NoDup_filter. apply NoDup_ids.
  - unfold sorted_by in Q. revert Q. apply StronglySorted_ind.
    + constructor.
    + intros a l _ IH H. constructor; [exact IH|].
      eapply Forall_impl; [|exact H]. cbn. intros b Hb.
      apply Z.ltb_ge in Hb. exact Hb.
Qed.

Lemma children_map_contract_witness :
  exists t children, build 5 three_links = Ok t /\
    build_children_map front_sort t = Ok children /\
    lsize children = 4 /\
    (In 2 (lat children 3) <-> 0 <= 2 < 5 /\ 0 <= sc t 2 /\ par t 2 = 3).
Proof.
  destruct (children_map_contract front_sort 5 three_links front_sort_sorts)
    as [t [c [E [B [S [H _]]]]]].
  - unfold INT_MAX. lia.
  - repeat constructor; cbn; lia.
  - cbn. unfold INT_MAX. lia.
  - exists t, c. split; [exact E|]. split; [exact B|].
    split; [rewrite S; reflexivity|]. apply H. rewrite S. cbn. lia.
Defined.

(** ** Descendants *)

(** [x] hangs below [v]: the walk from [x] arrives at [v] after [k]
    links, all of them stored links. *)
Definition reach (t : MaxSpanningTree) (v x : Z) (k : nat) : Prop :=
  up (par t) k x = v /\ forall i, (i < k)%nat -> 0 <= sc t (up (par t) i x).

(** [x] is a node of the builder below [v], [v] itself apart. *)
Definition descends (N : Z) (t : MaxSpanningTree) (v x : Z) : Prop :=
  0 <= x < N /\ exists k, (1 <= k)%nat /\ reach t v x k.

(** [v] has exactly [k] descendants. *)
Definition has_descendants (N : Z) (t : MaxSpanningTree) (v : Z) (k : nat) : Prop :=
  exists l, NoDup l /\ (forall x, In x l <-> descends N t v x) /\ length l = k.

Lemma has_descendants_unique (N : Z) (t : MaxSpanningTree) (v : Z) (k k' : nat) :
  has_descendants N t v k -> has_descendants N t v k' -> k = k'.
Proof.
  intros [l [D [M <-]]] [l' [D' [M' <-]]].
  apply Permutation_length. apply NoDup_Permutation; auto.
  intros x. now rewrite M, M'.
Qed.

Lemma up_S_outer (p : Z -> Z) (k : nat) (x : Z) : up p (S k) x = up p k (p x).
Proof.
  replace (S k) with (k + 1)%nat by lia. now rewrite up_add.
Qed.

Section Descendants.
Variables (N : Z) (t : MaxSpanningTree).
Hypothesis F : forest N (par t).
Hypothesis S0 : sc t 0 < 0.

Lemma reach_step (v x : Z) (k : nat) :
  reach t v x (S k) <-> 0 <= sc t x /\ reach t v (par t x) k.
Proof.
  unfold reach. rewrite up_S_outer. split.
  - intros [E A]. split; [apply (A O); lia|]. split; [exact E|].
    intros i Hi. rewrite <- up_S_outer. apply A. lia.
  - intros [A0 [E A]]. split; [exact E|].
    intros i Hi. destruct i as [|i]; [exact A0|].
    rewrite up_S_outer. apply A. lia.
Qed.

(** A node is not below itself. *)
Lemma reach_self (v : Z) (k : nat) :
  0 <= v < N -> reach t v v k -> (1 <= k)%nat -> False.
Proof.
  intros Hv [E A] Hk.
  assert (Hz : up (par t) 0 v = 0).
  { apply (forest_acyclic N (par t) F v 0 k Hv); [lia|]. cbn [up]. now rewrite E. }
  cbn [up] in Hz. specialize (A O ltac:(lia)). cbn [up] in A. subst v. lia.
Qed.

Lemma reach_add (v w x : Z) (j k : nat) :
  reach t w x j -> reach t v w k -> reach t v x (k + j).
Proof.
  intros [E1 A1] [E2 A2]. split.
  - now rewrite up_add, E1.
  - intros i Hi. destruct (le_lt_dec j i) as [G|G]; [|auto].
    replace i with ((i - j) + j)%nat by lia. rewrite up_add, E1. apply A2. lia.
Qed.

(** The walk from [x] passes a given node at one place only. *)
Lemma reach_once (v x : Z) (a b : nat) :
  0 <= x < N -> reach t v x a -> reach t v x b -> 0 <= sc t v -> a = b.
Proof.
  intros Hx [E1 A1] [E2 A2] Hs.
  destruct (Nat.lt_trichotomy a b) as [L|[L|L]]; auto; exfalso.
  - assert (Hz : up (par t) a x = 0).
    { apply (forest_acyclic N (par t) F x a b Hx L). congruence. }
    rewrite E1 in Hz. rewrite Hz in Hs. lia.
  - assert (Hz : up (par t) b x = 0).
    { apply (forest_acyclic N (par t) F x b a Hx L). congruence. }
    rewrite E2 in Hz. rewrite Hz in Hs. lia.
Qed.

(** Below two different children of [v] there is no common node. *)
Lemma reach_one_child (v k k' x : Z) (a b : nat) :
  0 <= x < N -> 0 <= v < N ->
  0 <= sc t k -> par t k = v -> 0 <= sc t k' -> par t k' = v ->
  reach t k x a -> reach t k' x b -> a = b /\ k = k'.
Proof.
  intros Hx Hv Sk Pk Sk' Pk' Ra Rb.
  assert (Ra' : reach t v x (S a)).
  { replace (S a) with (1 + a)%nat by lia. apply (reach_add v k x a 1 Ra).
    split; [cbn [up]; exact Pk|]. intros i Hi. replace i with O by lia. exact Sk. }
  assert (Rb' : reach t v x (S b)).
  { replace (S b) with (1 + b)%nat by lia. apply (reach_add v k' x b 1 Rb).
    split; [cbn [up]; exact Pk'|]. intros i Hi. replace i with O by lia. exact Sk'. }
  assert (G : forall c d, reach t v x (S c) -> reach t v x (S d) -> (c < d)%nat -> False).
  { intros c d [Ec Ac] [Ed Ad] L. apply (reach_self v (d - c)); auto; [|lia].
    split.
    - rewrite <- Ec at 1. rewrite <- up_add.
      replace (d - c + S c)%nat with (S d) by lia. exact Ed.
    - intros i Hi. rewrite <- Ec, <- up_add. apply Ad. lia. }
  assert (a = b).
  { destruct (Nat.lt_trichotomy a b) as [L|[L|L]]; auto; exfalso.
    - exact (G a b Ra' Rb' L).
    - exact (G b a Rb' Ra' L). }
  split; [assumption|]. subst b. destruct Ra, Rb. congruence.
Qed.
End Descendants.

(** ** [count_descendants] counts the descendants *)

Lemma Forall2_exists {A B : Type} (P : A -> B -> Prop) (ks : list A) :
  (forall k, In k ks -> exists l, P k l) -> exists ls, Forall2 P ks ls.
Proof.
  induction ks as [|k ks IH]; intros H.
  - exists []. constructor.
  - destruct (H k (or_introl eq_refl)) as [l Hl].
    destruct IH as [ls Hls]; [intros k' Hk'; apply H; now right|].
    exists (l :: ls). now constructor.
Qed.

Lemma Forall2_left {A B : Type} (P : A -> B -> Prop) (ks : list A) (ls : list B) (k : A) :
  Forall2 P ks ls -> In k ks -> exists l, In l ls /\ P k l.
Proof.
  induction 1 as [|k0 l0 ks ls H0 _ IH]; intros Hk; [destruct Hk|].
  destruct Hk as [<-|Hk].
  - exists l0. split; [now left|exact H0].
  - destruct (IH Hk) as [l [I Pl]]. exists l. split; [now right|exact Pl].
Qed.

Lemma Forall2_right {A B : Type} (P : A -> B -> Prop) (ks : list A) (ls : list B) (l : B) :
  Forall2 P ks ls -> In l ls -> exists k, In k ks /\ P k l.
Proof.
  induction 1 as [|k0 l0 ks ls H0 _ IH]; intros Hl; [destruct Hl|].
  destruct Hl as [<-|Hl].
  - exists k0. split; [now left|exact H0].
  - destruct (IH Hl) as [k [I Pk]]. exists k. split; [now right|exact Pk].
Qed.

(** The [for] loop of [count_descendants], when the calls on the
    children return the lengths of the lists [ls]. *)
Lemma count_fold (g : Z -> res Z) (ks : list Z) (ls : list (list Z)) (a : Z) :
  Forall2 (fun k l => g k = Ok (Z.of_nat (length l))) ks ls ->
  0 <= a -> a + Z.of_nat (length (concat ls)) <= INT_MAX ->
  fold_left (fun acc child => count <- acc ;; c <- g child ;; int_ok (count + c))
            ks (Ok a)
  = Ok (a + Z.of_nat (length (concat ls))).
Proof.
  intros H. revert a. induction H as [|k l ks ls Hk _ IH]; intros a Ha Hb.
  - cbn. f_equal. lia.
  - cbn [fold_left concat bind] in *. rewrite length_app in *.
    rewrite Hk. cbn [bind]. rewrite int_ok_ok by lia.
    rewrite IH by lia. f_equal. lia.
Qed.

Lemma NoDup_below (N : Z) (l : list Z) :
  NoDup l -> (forall x, In x l -> 0 <= x < N) -> Z.of_nat (length l) <= Z.max N 0.
Proof.
  intros D R.
  assert (I : incl l (ids_below N)).
  { intros x Hx. apply in_ids_below. now apply R. }
  pose proof (NoDup_incl_length D I) as L.
  unfold ids_below in L. rewrite length_map, length_seq in L. lia.
Qed.

Section Count.
Variables (N : Z) (t : MaxSpanningTree) (limit : Z) (c : list (list Z)).
Hypothesis F : forest N (par t).
Hypothesis S0 : sc t 0 < 0.
Hypothesis HN : N <= INT_MAX.
Hypothesis Hl : 0 <= limit <= N.
Hypothesis Hc : lsize c = limit.
Hypothesis Lc : forall p, 0 <= p < limit ->
  lat c p = filter (child_of t p) (ids_below limit).
Hypothesis Lk : forall i, 0 <= i < N -> 0 <= sc t i ->
  0 <= i < limit /\ 0 <= par t i < limit.

Lemma kids_spec (p k : Z) :
  0 <= p < limit -> (In k (lat c p) <-> 0 <= k < N /\ 0 <= sc t k /\ par t k = p).
Proof.
  intros Hp. rewrite (Lc p Hp), filter_In, in_ids_below, child_of_true.
  split; [lia|]. intros [Hk [Hs Hpar]]. destruct (Lk k Hk Hs). lia.
Qed.

Lemma kids_NoDup (p : Z) : 0 <= p < limit -> NoDup (lat c p).
Proof.
  intros Hp. rewrite (Lc p Hp). apply NoDup_filter. apply NoDup_ids.
Qed.

Lemma reach_child (v k : Z) : 0 <= sc t k -> par t k = v -> reach t v k 1.
Proof.
  intros Hs Hp. split; [exact Hp|]. intros i Hi. replace i with O by lia. exact Hs.
Qed.

Lemma descends_unfold (v x : Z) :
  0 <= v < limit ->
  (descends N t v x <->
   In x (lat c v) \/ exists k, In k (lat c v) /\ descends N t k x).
Proof.
  intros Hv. split.
  - intros [Hx [k [Hk [E A]]]]. destruct k as [|m]; [lia|].
    set (w := up (par t) m x).
    assert (Hw : In w (lat c v)).
    { apply kids_spec; auto. split; [apply (up_range N (par t) F); auto|].
      split; [apply A; lia|exact E]. }
    destruct m as [|m]; [left; exact Hw|].
    right. exists w. split; [exact Hw|]. split; [exact Hx|].
    exists (S m). split; [lia|]. split; [reflexivity|]. intros i Hi. apply A. lia.
  - intros [Hx|[k [Hk [Hx [m [Hm R]]]]]].
    + apply kids_spec in Hx; auto. destruct Hx as [Hx [Hs Hp]].
      split; [exact Hx|]. exists 1%nat. split; [lia|]. now apply reach_child.
    + apply kids_spec in Hk; auto. destruct Hk as [Hk [Hs Hp]].
      split; [exact Hx|]. exists (1 + m)%nat. split; [lia|].
      apply (reach_add t v k x m 1 R). now apply reach_child.
Qed.

(** What a call on a node returns. *)
Definition counted (fuel : nat) (k : Z) (l : list Z) : Prop :=
  count_descendants fuel c k = Ok (Z.of_nat (length l)) /\
  NoDup l /\ forall x, In x l <-> descends N t k x.

Lemma subtrees_NoDup (fuel : nat) (v : Z) (ks : list Z) (ls : list (list Z)) :
  0 <= v < limit -> incl ks (lat c v) -> NoDup ks ->
  Forall2 (counted fuel) ks ls ->
  NoDup (concat ls) /\
  forall x l, In l ls -> In x l -> exists k, In k ks /\ descends N t k x.
Proof.
  intros Hv. revert ls. induction ks as [|k ks IH]; intros ls I D H.
  - destruct ls as [|l0 ls0]; [|inversion H].
    split; [constructor|]. intros x l [].
  - destruct ls as [|l ls']; [inversion H|].
    apply Forall2_cons_iff in H. destruct H as [Hk Hls].
    apply NoDup_cons_iff in D. destruct D as [Dk Dks].
    destruct (IH ls') as [N1 M1]; auto; [intros y Hy; apply I; now right|].
    destruct Hk as [_ [Nk Mk]].
    split.
    + cbn [concat]. apply NoDup_app; [exact Nk|exact N1|].
      intros x Hx Hx'. apply in_concat in Hx'. destruct Hx' as [l' [Hl' Hxl']].
      destruct (M1 x l' Hl' Hxl') as [k' [Hk' [_ [b [Hb Rb]]]]].
      apply Mk in Hx. destruct Hx as [Hxr [a [Ha Ra]]].
      assert (Kk : In k (lat c v)) by (apply I; now left).
      assert (Kk' : In k' (lat c v)) by (apply I; now right).
      apply kids_spec in Kk, Kk'; auto.
      destruct Kk as [_ [Sk Pk]], Kk' as [_ [Sk' Pk']].
      destruct (reach_one_child N t F S0 v k k' x a b) as [_ Ek]; auto; [lia|].
      subst k'. contradiction.
    + intros x l' [<-|Hl'] Hx.
      * exists k. split; [now left|]. now apply Mk.
      * destruct (M1 x l' Hl' Hx) as [k' [Hk' Dk']]. exists k'. split; [now right|auto].
Qed.

Lemma count_ok (fuel j : nat) (v : Z) :
  0 <= v < limit -> (forall i, (i < j)%nat -> up (par t) i v <> 0) ->
  N < Z.of_nat fuel + Z.of_nat j ->
  exists l, counted fuel v l.
Proof.
  revert j v. induction fuel as [|fuel IH]; intros j v Hv NZ Hf.
  - exfalso. pose proof (chain_short N (par t) F v j ltac:(lia) NZ). lia.
  - set (kids := lat c v).
    assert (K : forall k, In k kids -> exists l, counted fuel k l).
    { intros k Hk. apply kids_spec in Hk; auto. destruct Hk as [Hk [Hs Hp]].
      apply (IH (S j) k).
      - apply (Lk k Hk Hs).
      - intros i Hi. destruct i as [|i].
        + cbn [up]. intros E. rewrite E in Hs. lia.
        + rewrite up_S_outer, Hp. apply NZ. lia.
      - lia. }
    destruct (Forall2_exists (counted fuel) kids K) as [ls Hls].
    destruct (subtrees_NoDup fuel v kids ls Hv (incl_refl _) (kids_NoDup v Hv) Hls)
      as [N1 M1].
    exists (kids ++ concat ls).
    assert (M : forall x, In x (kids ++ concat ls) <-> descends N t v x).
    { intros x. rewrite (descends_unfold v x Hv), in_app_iff. fold kids.
      split; (intros [Hx|Hx]; [now left|right]).
      - apply in_concat in Hx. destruct Hx as [l [Il Hxl]]. now apply (M1 x l).
      - destruct Hx as [k [Hk Dk]].
        destruct (Forall2_left _ _ _ k Hls Hk) as [l [Il [_ [_ Ml]]]].
        apply in_concat. exists l. split; [exact Il|]. now apply Ml. }
    assert (D : NoDup (kids ++ concat ls)).
    { apply NoDup_app; [apply (kids_NoDup v Hv)|exact N1|].
      intros x Hx Hx'. apply in_concat in Hx'. destruct Hx' as [l [Il Hxl]].
      destruct (M1 x l Il Hxl) as [k [Hk [Hxr [a [Ha Ra]]]]].
      apply kids_spec in Hx, Hk; auto.
      destruct Hx as [_ [Sx Px]], Hk as [_ [Sk Pk]].
      assert (R0 : reach t x x 0).
      { split; [reflexivity|]. intros i Hi. lia. }
      destruct (reach_one_child N t F S0 v k x x a 0) as [Ea _]; auto; lia. }
    assert (B : Z.of_nat (length (kids ++ concat ls)) <= Z.max N 0).
    { apply NoDup_below; [exact D|]. intros x Hx. apply M in Hx. apply Hx. }
    rewrite length_app in B.
    split; [|split; [exact D|exact M]].
    cbn [count_descendants]. unfold lget.
    destruct (Z.leb_spec 0 v); [|lia]. destruct (Z.ltb_spec v (lsize c)); [|lia].
    cbn [andb bind]. fold kids.
    rewrite to_int_small by (unfold vsize; lia).
    rewrite (count_fold (count_descendants fuel c) kids ls).
    + f_equal. unfold vsize. rewrite length_app. lia.
    + eapply Forall2_impl; [|exact Hls]. intros k l [Q _]. exact Q.
    + unfold vsize. lia.
    + unfold vsize. lia.
Qed.
End Count.

(** ** [find_root] *)

(** The test of the first loop of [find_root]. *)
Definition is_candidate (t : MaxSpanningTree) (i : Z) : bool :=
  (sc t i <? 0) || (par t i =? i).

Lemma roots_loop_ok (N : Z) (t : MaxSpanningTree) (ids acc : list Z) :
  vsize (scores t) = N -> vsize (parents t) = N ->
  (forall i, In i ids -> 0 <= i < N) ->
  roots_loop t ids acc = Ok (acc ++ filter (is_candidate t) ids).
Proof.
  intros Hs Hp. revert acc. induction ids as [|i ids IH]; intros acc R.
  - cbn. now rewrite app_nil_r.
  - assert (Ri : 0 <= i < N) by (apply R; now left).
    cbn [roots_loop filter]. rewrite !vget_ok by lia. cbn [bind].
    fold (sc t i). fold (par t i). unfold is_candidate at 1.
    destruct (sc t i <? 0); cbn [orb bind].
    + rewrite IH by (intros j Hj; apply R; now right).
      now rewrite <- app_assoc.
    + rewrite IH by (intros j Hj; apply R; now right).
      destruct (par t i =? i); [now rewrite <- app_assoc|reflexivity].
Qed.

Lemma root_candidates_eq (t : MaxSpanningTree) (limit : Z) :
  limit_of t = Ok limit -> root_candidates t = filter (is_candidate t) (ids_below limit).
Proof.
  unfold limit_of, incr_int. destruct (max_seen_id t <? INT_MAX); [|discriminate].
  cbn [bind]. intros E. inversion E. reflexivity.
Qed.

Lemma ids_sorted (a k : nat) : StronglySorted Z.lt (map Z.of_nat (seq a k)).
Proof.
  revert a. induction k as [|k IH]; intros a; cbn; constructor; [apply IH|].
  apply Forall_forall. intros x Hx. apply in_map_iff in Hx.
  destruct Hx as [j [<- Hj]]. apply in_seq in Hj. lia.
Qed.

Lemma filter_sorted (f : Z -> bool) (l : list Z) :
  StronglySorted Z.lt l -> StronglySorted Z.lt (filter f l).
Proof.
  induction 1 as [|a l _ IH Ha]; cbn; [constructor|].
  destruct (f a); [|exact IH]. constructor; [exact IH|].
  apply Forall_forall. intros x Hx. apply filter_In in Hx.
  rewrite Forall_forall in Ha. apply Ha. tauto.
Qed.

Lemma sorted_split (l1 l2 : list Z) (b x : Z) :
  StronglySorted Z.lt (l1 ++ b :: l2) -> In x (l1 ++ b :: l2) -> x < b -> In x l1.
Proof.
  induction l1 as [|a l1 IH]; cbn [app]; intros S I L.
  - inversion S as [|? ? _ Hb]. subst. destruct I as [<-|I]; [lia|].
    rewrite Forall_forall in Hb. specialize (Hb x I). lia.
  - inversion S as [|? ? S' _]. subst. destruct I as [<-|I]; [now left|].
    right. now apply IH.
Qed.

(** The loop over the candidates keeps the first one with the largest
    count. *)
Lemma best_loop_ok (fuel : nat) (c : list (list Z)) (cnt : Z -> Z) (roots : list Z)
    (st : Z * Z) :
  (forall r, In r roots -> count_descendants fuel c r = Ok (cnt r)) ->
  exists b, best_loop fuel c roots st = Ok b /\ snd st <= snd b /\
    (forall r, In r roots -> cnt r <= snd b) /\
    ((b = st /\ forall r, In r roots -> cnt r <= snd st) \/
     (exists l1 l2, roots = l1 ++ fst b :: l2 /\ snd b = cnt (fst b) /\
        snd st < snd b /\ forall r, In r l1 -> cnt r < snd b)).
Proof.
  unfold best_loop. revert st. induction roots as [|r rest IH]; intros st G.
  - exists st. split; [reflexivity|]. split; [lia|]. split; [intros r []|].
    left. split; [reflexivity|]. intros r [].
  - cbn [fold_left bind]. rewrite (G r (or_introl eq_refl)). cbn [bind].
    set (st1 := if snd st <? cnt r then (r, cnt r) else st).
    assert (M : snd st <= snd st1 /\ cnt r <= snd st1).
    { unfold st1. destruct (Z.ltb_spec (snd st) (cnt r)); cbn; lia. }
    destruct (IH st1) as [b [E [B1 [B2 B3]]]]; [intros r' Hr'; apply G; now right|].
    exists b. split; [exact E|]. split; [lia|].
    split; [intros r' [<-|Hr']; [lia|auto]|].
    destruct B3 as [[-> B3]|[l1 [l2 [E1 [E2 [E3 E4]]]]]].
    + unfold st1 in *. destruct (Z.ltb_spec (snd st) (cnt r)).
      * right. exists [], rest. cbn [fst snd app] in *.
        split; [reflexivity|]. split; [reflexivity|]. split; [lia|]. intros r' [].
      * left. split; [reflexivity|]. intros r' [<-|Hr']; [lia|auto].
    + right. exists (r :: l1), l2. rewrite E1. split; [reflexivity|].
      split; [exact E2|]. split; [lia|]. intros r' [<-|Hr']; [lia|auto].
Qed.

Section FindRoot.
Variables (n : Z) (es : list link) (t : MaxSpanningTree) (limit : Z).
Hypothesis Hn : 0 < n <= INT_MAX.
Hypothesis St : settled n es t limit.

Lemma sentinel_score : sc t 0 < 0.
Proof.
  destruct (wf_sentinel n t (st_wf n es t limit St)) as [Z1 _]; lia.
Qed.

Lemma root_children_ok :
  exists c, root_children t limit = Ok c /\ lsize c = limit /\
    forall p, 0 <= p < limit -> lat c p = filter (child_of t p) (ids_below limit).
Proof.
  destruct St as [W P EL Eq Rl Lk].
  destruct (root_children_loop_ok n t limit (ids_below limit) (repeat [] (Z.to_nat limit)))
    as [c [Ec [Sc Lc]]].
  { apply (wf_scores n t W). }
  { apply (wf_parents n t W). }
  { intros i Hi. apply in_ids_below in Hi. lia. }
  { intros i Hi Hs. apply in_ids_below in Hi. apply Lk; lia. }
  { unfold lsize. rewrite repeat_length. lia. }
  exists c. split; [|split; [exact Sc|]].
  - unfold root_children, new_children. destruct (Z.ltb_spec limit 0); [lia|].
    cbn [bind]. exact Ec.
  - intros p Hp. rewrite (Lc p Hp), lat_repeat. reflexivity.
Qed.

Lemma counted_all (c : list (list Z)) (v : Z) :
  lsize c = limit ->
  (forall p, 0 <= p < limit -> lat c p = filter (child_of t p) (ids_below limit)) ->
  0 <= v < limit ->
  exists k, count_descendants (S (Z.to_nat n)) c v = Ok (Z.of_nat k) /\
            has_descendants n t v k.
Proof.
  intros Sc Lc Hv. pose proof St as [W P EL Eq Rl Lk].
  destruct (count_ok n t limit c (wf_forest n t W) sentinel_score (proj2 Hn) Rl Sc Lc Lk
              (S (Z.to_nat n)) 0 v Hv) as [l [E [D M]]].
  - intros i Hi. lia.
  - lia.
  - exists (length l). split; [exact E|]. exists l. auto.
Qed.

Lemma candidate_score (r : Z) :
  0 <= r < n -> is_candidate t r = true -> sc t r = -1.
Proof.
  intros Hr C. pose proof St as [W P _ _ _ _].
  unfold is_candidate in C. apply orb_true_iff in C.
  destruct C as [C|C].
  - apply Z.ltb_lt in C. pose proof (provenance_score n es t r P Hr). lia.
  - apply Z.eqb_eq in C.
    apply (forest_no_self n (par t) (wf_forest n t W) r Hr) in C. subst r.
    destruct (wf_sentinel n t W) as [Z1 _]; lia.
Qed.

Lemma find_root_ok :
  exists r, find_root (S (Z.to_nat n)) t = Ok r /\
    In r (root_candidates t) /\ sc t r = -1 /\
    (exists k, has_descendants n t r k) /\
    forall r' k' k, In r' (root_candidates t) ->
      has_descendants n t r' k' -> has_descendants n t r k ->
      (k' <= k)%nat /\ (r' < r -> (k' < k)%nat).
Proof.
  pose proof St as [W P EL Eq Rl Lk].
  rewrite (root_candidates_eq t limit EL).
  set (roots := filter (is_candidate t) (ids_below limit)).
  assert (Rr : forall r, In r roots -> 0 <= r < limit /\ is_candidate t r = true).
  { intros r Hr. apply filter_In in Hr. rewrite in_ids_below in Hr. exact Hr. }
  assert (Sr : StronglySorted Z.lt roots).
  { apply filter_sorted. apply ids_sorted. }
  destruct root_children_ok as [c [Ec [Sc Lc]]].
  set (cnt := fun r => match count_descendants (S (Z.to_nat n)) c r with
                       | Ok z => z | Err _ => 0 end).
  assert (Cn : forall r, 0 <= r < limit ->
            exists k, count_descendants (S (Z.to_nat n)) c r = Ok (cnt r) /\
                      cnt r = Z.of_nat k /\ has_descendants n t r k).
  { intros r Hr. destruct (counted_all c r Sc Lc Hr) as [k [E Hk]].
    exists k. unfold cnt. rewrite E. auto. }
  assert (Key : forall b, In b roots ->
            (forall r, In r roots -> cnt r <= cnt b) ->
            (forall r, In r roots -> r < b -> cnt r < cnt b) ->
            In b roots /\ sc t b = -1 /\ (exists k, has_descendants n t b k) /\
            forall r' k' k, In r' roots ->
              has_descendants n t r' k' -> has_descendants n t b k ->
              (k' <= k)%nat /\ (r' < b -> (k' < k)%nat)).
  { intros b Hb Mx Fs. destruct (Rr b Hb) as [Bl Bc].
    split; [exact Hb|]. split; [apply candidate_score; auto; lia|].
    destruct (Cn b Bl) as [kb [_ [Eb Hkb]]].
    split; [now exists kb|].
    intros r' k' k Hr' Hk' Hk. destruct (Rr r' Hr') as [Rl' _].
    destruct (Cn r' Rl') as [kr [_ [Er Hkr]]].
    rewrite (has_descendants_unique n t r' k' kr Hk' Hkr).
    rewrite (has_descendants_unique n t b k kb Hk Hkb).
    specialize (Mx r' Hr'). split; [lia|]. intros Lt. specialize (Fs r' Hr' Lt). lia. }
  unfold find_root. rewrite EL. cbn [bind].
  rewrite (roots_loop_ok n t (ids_below limit) []);
    [|apply (wf_scores n t W)|apply (wf_parents n t W)
     |intros i Hi; apply in_ids_below in Hi; lia].
  cbn [app bind]. fold roots.
  assert (I0 : In 0 roots).
  { apply filter_In. split; [apply in_ids_below; destruct (max_id_ge es); lia|].
    unfold is_candidate. pose proof sentinel_score as S0.
    apply Z.ltb_lt in S0. now rewrite S0. }
  destruct roots as [|r0 [|r1 rest]] eqn:Er; [destruct I0| |].
  - exists r0. split; [reflexivity|]. apply Key.
    + now left.
    + intros r [<-|[]]. lia.
    + intros r [<-|[]] Lt. lia.
  - rewrite Ec. cbn [bind].
    destruct (best_loop_ok (S (Z.to_nat n)) c cnt (r0 :: r1 :: rest) (r0, -1))
      as [b [Eb [B1 [B2 B3]]]].
    { intros r Hr. destruct (Rr r Hr) as [Hl _].
      destruct (Cn r Hl) as [k [E _]]. exact E. }
    rewrite Eb. cbn [bind]. exists (fst b). split; [reflexivity|].
    destruct B3 as [[_ B3]|[l1 [l2 [E1 [E2 [E3 E4]]]]]].
    { exfalso. specialize (B3 r0 (or_introl eq_refl)). cbn [snd] in B3.
      destruct (Rr r0 (or_introl eq_refl)) as [Hl _].
      destruct (Cn r0 Hl) as [k [_ [Ek _]]]. lia. }
    apply Key.
    + rewrite E1. apply in_app_iff. right. now left.
    + intros r Hr. rewrite <- E2. now apply B2.
    + intros r Hr Lt. rewrite <- E2. apply E4.
      apply (sorted_split l1 l2 (fst b) r); auto; now rewrite <- E1.
Qed.
End FindRoot.

(** X10.  On a builder of capacity [n > 0] reached by any calls with
    ids in range, with the children map that [find_root] builds,
    [count_descendants] returns for every node below the loop bound,
    within [n + 1] nested calls and without leaving [int], the number
    of nodes that hang below that node by stored links. *)
Theorem count_descendants_counts (n : Z) (es : list link) :
  0 < n <= INT_MAX -> Forall (in_range n) es -> Z.of_nat (length es) <= INT_MAX ->
  exists t limit children, build n es = Ok t /\ limit_of t = Ok limit /\
    root_children t limit = Ok children /\
    forall v, 0 <= v < limit ->
      exists k, count_descendants (S (Z.to_nat n)) children v = Ok (Z.of_nat k) /\
                has_descendants n t v k.
Proof.
  intros Hn R L.
  destruct (build_settled n es ltac:(lia) R L) as [t [limit [E St]]].
  destruct (root_children_ok n es t limit Hn St) as [c [Ec [Sc Lc]]].
  exists t, limit, c. split; [exact E|]. split; [apply (st_limit n es t limit St)|].
  split; [exact Ec|]. intros v Hv.
  now apply (counted_all n es t limit Hn St c v).
Qed.

Lemma count_descendants_counts_witness :
  exists t limit children k, build 5 three_links = Ok t /\ limit_of t = Ok limit /\
    root_children t limit = Ok children /\
    count_descendants 6 children 3 = Ok (Z.of_nat k) /\ has_descendants 5 t 3 k.
Proof.
  destruct (count_descendants_counts 5 three_links) as [t [limit [c [E [EL [Ec H]]]]]].
  - unfold INT_MAX. lia.
  - repeat constructor; cbn; lia.
  - cbn. unfold INT_MAX. lia.
  - destruct (H 3) as [k [Ek Hk]].
    + vm_compute in E. inversion E. subst t. vm_compute in EL. inversion EL. lia.
    + exists t, limit, c, k. auto.
Defined.

(** X11.  On a builder of capacity [n > 0] reached by any calls with
    ids in range, [find_root] returns a node below the loop bound that
    passes its test [scores[i] < 0 || parents[i] == i]; that node
    stores no link (its score is [-1]); no other node that passes the
    test has more nodes hanging below it by stored links, and every
    such node with a smaller id has fewer. *)
Theorem find_root_most_descendants (n : Z) (es : list link) :
  0 < n <= INT_MAX -> Forall (in_range n) es -> Z.of_nat (length es) <= INT_MAX ->
  exists t r, build n es = Ok t /\ find_root (S (Z.to_nat n)) t = Ok r /\
    In r (root_candidates t) /\ sc t r = -1 /\
    (exists k, has_descendants n t r k) /\
    forall r' k' k, In r' (root_candidates t) ->
      has_descendants n t r' k' -> has_descendants n t r k ->
      (k' <= k)%nat /\ (r' < r -> (k' < k)%nat).
Proof.
  intros Hn R L.
  destruct (build_settled n es ltac:(lia) R L) as [t [limit [E St]]].
  destruct (find_root_ok n es t limit Hn St) as [r H].
  exists t, r. split; [exact E|exact H].
Qed.

Lemma find_root_most_descendants_witness :
  exists t, build 5 three_links = Ok t /\ find_root 6 t = Ok 3 /\
    In 3 (root_candidates t) /\ sc t 3 = -1.
Proof.
  destruct (find_root_most_descendants 5 three_links) as [t [r [E [Er [C [S _]]]]]].
  - unfold INT_MAX. lia.
  - repeat constructor; cbn; lia.
  - cbn. unfold INT_MAX. lia.
  - assert (r = 3).
    { vm_compute in E. inversion E. subst t. vm_compute in Er. now inversion Er. }
    subst r. exists t. auto.
Defined.

(** * Progress of the builder *)

(** X19.  A call with a score [>= 0] whose ends no chain of earlier
    calls with scores [>= 0] connects is always accepted: [add_link]
    returns [true] and [links_added] goes up by one. *)
Theorem unconnected_call_accepted (n : Z) (es : list link) (e : link) :
  0 <= n <= INT_MAX -> Forall (in_range n) es -> Z.of_nat (length es) < INT_MAX ->
  in_range n e -> 0 <= link_score e ->
  ~ linked es (link_a e) (link_b e) ->
  exists t t', build n es = Ok t /\ offer (enough n) t e = Ok (t', true) /\
    links_added t' = links_added t + 1.
Proof.
  intros Hn R L Re Hs Nl.
  destruct (build_provenance n es Hn R) as [t [E [I P]]]; [lia|].
  pose proof (inv_wf n es t I) as W. pose proof (wf_forest n t W) as F.
  destruct Re as [Ha Hb].
  destruct (offer_step n es t e I (conj Ha Hb) L) as [t' [r [Eo [_ O]]]].
  exists t, t'. split; [exact E|].
  destruct O as [Eab _ _ _|c pa pb Nab Rp Hw _ _ _|c pa pb pos Nab Rp A Q1 _
                 |c pa pb pos Nab Rp A Q1 _]; auto.
  - exfalso. apply Nl. rewrite Eab. apply linked_refl.
  - exfalso. apply Nl. apply (joined_linked n es t); auto.
    destruct Rp as [R1 R2 R3 R4 R5 R6 R7].
    apply joined_trans with (v := c).
    + rewrite <- R3. apply joined_walk; auto; [apply (forest_closed n (par t) F)|].
      intros i Hi.
      assert (link_score e <= sc t (up (par t) i (link_a e))); [|lia].
      apply Hw. apply in_app_iff. left. rewrite R1. apply chain_In. now exists i.
    + apply joined_sym. rewrite <- R4.
      apply joined_walk; auto; [apply (forest_closed n (par t) F)|].
      intros i Hi.
      assert (link_score e <= sc t (up (par t) i (link_b e))); [|lia].
      apply Hw. apply in_app_iff. right. rewrite R2. apply chain_In. now exists i.
Qed.

Lemma unconnected_call_accepted_witness :
  exists t t', build 5 two_links = Ok t /\
    offer (enough 5) t (mkLink 4 1 0 0 0 0) = Ok (t', true) /\
    links_added t' = links_added t + 1.
Proof.
  apply (unconnected_call_accepted 5 two_links (mkLink 4 1 0 0 0 0)).
  - unfold INT_MAX. lia.
  - repeat constructor; cbn; lia.
  - cbn. unfold INT_MAX. lia.
  - split; cbn; lia.
  - cbn. lia.
  - cbn [link_a link_b]. intros J.
    assert (G : forall u v, linked two_links u v -> (u = 4 <-> v = 4)).
    { clear J. intros u v J. induction J as [v|e0 He0 _|u v _ IH|u v z _ IH1 _ IH2].
      - tauto.
      - destruct He0 as [<-|[<-|[]]]; cbn; lia.
      - tauto.
      - tauto. }
    specialize (G 4 1 J). lia.
Defined.

(** ** The sum of the stored scores *)

(** The sum of the array [scores], placeholders included. *)
Definition total_score (t : MaxSpanningTree) : Z := fold_right Z.add 0 (scores t).

Definition sum_over (f : Z -> Z) (l : list Z) : Z := fold_right Z.add 0 (map f l).

Lemma sum_over_app (f : Z -> Z) (l1 l2 : list Z) :
  sum_over f (l1 ++ l2) = sum_over f l1 + sum_over f l2.
Proof.
  unfold sum_over. induction l1 as [|a l1 IH]; cbn [app map fold_right]; lia.
Qed.

Lemma sum_over_one (f : Z -> Z) (a : Z) : sum_over f [a] = f a.
Proof. unfold sum_over. cbn. lia. Qed.

Lemma sum_over_perm (f : Z -> Z) (l1 l2 : list Z) :
  Permutation l1 l2 -> sum_over f l1 = sum_over f l2.
Proof.
  unfold sum_over. induction 1; cbn [map fold_right]; lia.
Qed.

Lemma sum_over_ext (f g : Z -> Z) (l : list Z) :
  (forall v, In v l -> f v = g v) -> sum_over f l = sum_over g l.
Proof.
  unfold sum_over. induction l as [|a l IH]; intros H; cbn [map fold_right]; [reflexivity|].
  rewrite (H a (or_introl eq_refl)), IH; [reflexivity|].
  intros v Hv. apply H. now right.
Qed.

Lemma list_as_map (l : list Z) (a : nat) :
  map (fun k => nth (k - a) l 0) (seq a (length l)) = l.
Proof.
  revert a. induction l as [|x l IH]; intros a; cbn [length seq map]; [reflexivity|].
  f_equal; [now rewrite Nat.sub_diag|].
  rewrite <- (IH (S a)) at 2. apply map_ext_in. intros k Hk. apply in_seq in Hk.
  replace (k - a)%nat with (S (k - S a)) by lia. reflexivity.
Qed.

Lemma total_score_sum (N : Z) (t : MaxSpanningTree) :
  vsize (scores t) = N -> total_score t = sum_over (sc t) (ids_below N).
Proof.
  intros Hs. unfold total_score, sum_over, ids_below, sc, at_. rewrite map_map.
  unfold vsize in Hs. replace (Z.to_nat N) with (length (scores t)) by lia.
  rewrite <- (list_as_map (scores t) 0) at 1. f_equal. apply map_ext. intros k.
  now rewrite Nat2Z.id, Nat.sub_0_r.
Qed.

(** The ids outside the list [l]. *)
Definition outside (l : list Z) (v : Z) : bool := negb (existsb (Z.eqb v) l).

Lemma outside_spec (l : list Z) (v : Z) : outside l v = true <-> ~ In v l.
Proof.
  unfold outside. rewrite negb_true_iff, <- not_true_iff_false, existsb_exists.
  split; intros H Q; apply H.
  - exists v. split; [exact Q|apply Z.eqb_refl].
  - destruct Q as [x [Hx E]]. apply Z.eqb_eq in E. now subst.
Qed.

Lemma split_ids (N : Z) (l : list Z) :
  NoDup l -> (forall v, In v l -> 0 <= v < N) ->
  Permutation (ids_below N) (l ++ filter (outside l) (ids_below N)).
Proof.
  intros D R. apply NoDup_Permutation.
  - apply NoDup_ids.
  - apply NoDup_app; [exact D|apply NoDup_filter, NoDup_ids|].
    intros v H1 H2. apply filter_In in H2. destruct H2 as [_ H2].
    apply outside_spec in H2. contradiction.
  - intros v. rewrite in_app_iff, filter_In, in_ids_below, outside_spec. split.
    + intros Hv. destruct (in_dec Z.eq_dec v l); [now left|right; auto].
    + intros [Hv|[Hv _]]; auto.
Qed.

(** The scores along the reversed stretch move one node up, and the
    new score enters at its foot. *)
Lemma reversed_sum (N : Z) (p s p' s' : Z -> Z) (x y w : Z) (pos : nat) :
  relinked N p s p' s' x y w pos ->
  sum_over s' (chain p x (S pos)) = w + sum_over s (chain p x pos).
Proof.
  intros [[_ Q1] Q2 _]. induction pos as [|pos IH].
  - unfold chain, sum_over. cbn. lia.
  - rewrite (chain_S p x (S pos)), sum_over_app, IH.
    + rewrite (chain_S p x pos), sum_over_app, !sum_over_one.
      destruct (Q2 (S pos)) as [_ E]; [lia|]. rewrite E.
      replace (S pos - 1)%nat with pos by lia. lia.
    + intros k Hk. apply Q2. lia.
Qed.

Lemma accepted_total (N : Z) (t t' : MaxSpanningTree) (x y c w rw loc len : Z)
    (px py : list Z) (pos : nat) :
  wf N t -> vsize (scores t') = N -> 0 <= x < N ->
  rootward_paths (par t) x y c px py ->
  accepted N t t' x y w rw loc len px py pos ->
  total_score t < total_score t'.
Proof.
  intros W S' Hx R A. pose proof (wf_forest N t W) as F.
  destruct A as [A1 A2 _ A4 _ _ _].
  rewrite (total_score_sum N t (wf_scores N t W)), (total_score_sum N t' S').
  set (l := chain (par t) x (S pos)).
  assert (D : NoDup l).
  { apply (chain_NoDup N (par t) F); auto.
    intros i Hi. apply (rp_nz_a _ _ _ _ _ _ R). lia. }
  assert (Rl : forall v, In v l -> 0 <= v < N).
  { intros v Hv. apply chain_In in Hv. destruct Hv as [i [_ ->]].
    now apply (up_range N (par t) F). }
  rewrite (sum_over_perm (sc t) _ _ (split_ids N l D Rl)).
  rewrite (sum_over_perm (sc t') _ _ (split_ids N l D Rl)).
  rewrite !sum_over_app.
  assert (E1 : sum_over (sc t') (filter (outside l) (ids_below N))
               = sum_over (sc t) (filter (outside l) (ids_below N))).
  { apply sum_over_ext. intros v Hv. apply filter_In in Hv.
    destruct Hv as [Hv Ho]. apply in_ids_below in Hv. apply outside_spec in Ho.
    destruct (rl_other _ _ _ _ _ _ _ _ _ A4 v Hv) as [_ E]; [|exact E].
    intros k Hk Ek. apply Ho. apply chain_In. exists k. split; [lia|exact Ek]. }
  rewrite E1. unfold l.
  rewrite (reversed_sum N (par t) (sc t) (par t') (sc t') x y w pos A4).
  rewrite (chain_S (par t) x pos), sum_over_app, sum_over_one. lia.
Qed.

(** X20.  An accepted call raises the sum of the array [scores], and a
    call that returns [false] leaves it as it is: the new score
    replaces a strictly smaller one and every other stored score is
    kept, if on another node. *)
Theorem accepted_call_raises_total (n : Z) (es : list link) (e : link) :
  0 <= n <= INT_MAX -> Forall (in_range n) es -> Z.of_nat (length es) < INT_MAX ->
  in_range n e ->
  exists t t' r, build n es = Ok t /\ offer (enough n) t e = Ok (t', r) /\
    if r then total_score t < total_score t' else total_score t' = total_score t.
Proof.
  intros Hn R L Re.
  destruct (build_inv n es Hn R) as [t [E I]]; [lia|].
  pose proof (inv_wf n es t I) as W. pose proof Re as [Ha Hb].
  destruct (offer_step n es t e I Re L) as [t' [r [Eo [I' O]]]].
  pose proof (wf_scores n t' (inv_wf n _ t' I')) as S'.
  exists t, t', r. split; [exact E|]. split; [exact Eo|].
  destruct O as [_ U _ _|c pa pb _ _ _ U _ _|c pa pb pos _ Rp A _ _
                 |c pa pb pos _ Rp A _ _].
  - destruct U as (_ & U & _). unfold total_score. now rewrite U.
  - destruct U as (_ & U & _). unfold total_score. now rewrite U.
  - apply (accepted_total n t t' (link_a e) (link_b e) c (link_score e)
             (link_raw_score e) (link_location e) (link_length e) pa pb pos); auto.
  - apply (accepted_total n t t' (link_b e) (link_a e) c (link_score e)
             (link_raw_score e) (link_location e) (link_length e) pb pa pos); auto.
    now apply rootward_sym.
Qed.

Lemma accepted_call_raises_total_witness :
  exists t t', build 5 two_links = Ok t /\
    offer (enough 5) t closing_link = Ok (t', true) /\
    total_score t < total_score t'.
Proof.
  destruct (accepted_call_raises_total 5 two_links closing_link)
    as [t [t' [r [E [O T]]]]].
  - unfold INT_MAX. lia.
  - repeat constructor; cbn; lia.
  - cbn. unfold INT_MAX. lia.
  - split; cbn; lia.
  - assert (r = true).
    { vm_compute in E. inversion E. subst t. vm_compute in O. now inversion O. }
    subst r. exists t, t'. auto.
Defined.

(** * Further properties of the aligner *)

(** X12.  For sequences whose matrix can be indexed in [int] and a
    substitution matrix of 1024 entries, whatever numbers the matrix
    and the gap penalty hold (infinities and NaN included), the fill
    loops return, and in the matrix they leave: the cells of row [0]
    and of column [0] are [0.0f]; every other cell is what the code
    computes from its three neighbours, the greatest of [0.0f],
    [diagonal + score], [up + gap] and [left + gap] as picked by the
    three [>] tests; and every cell is [0.0f] or above it, never
    negative and never NaN. *)
Theorem filled_matrix (seq_a seq_b : list Z) (matrix : list float) (gap_extend : float) :
  hsize matrix = 1024 -> fits (len_of seq_a) (len_of seq_b) ->
  exists st, filled seq_a seq_b matrix gap_extend = Ok st /\
    hsize (H st) = (len_of seq_a + 1) * (len_of seq_b + 1) /\
    (forall i j, 0 <= i <= len_of seq_a -> 0 <= j <= len_of seq_b ->
       i = 0 \/ j = 0 -> cellv seq_b (H st) i j = fzero) /\
    (forall i j, 1 <= i <= len_of seq_a -> 1 <= j <= len_of seq_b ->
       cellv seq_b (H st) i j =
       cell_value gap_extend (cellv seq_b (H st) (i - 1) (j - 1))
                  (cellv seq_b (H st) (i - 1) j) (cellv seq_b (H st) i (j - 1))
                  (smatch seq_a seq_b matrix i j)) /\
    (forall i j, 0 <= i <= len_of seq_a -> 0 <= j <= len_of seq_b ->
       cellv seq_b (H st) i j = fzero \/ fgt (cellv seq_b (H st) i j) fzero = true).
Proof.
  intros Hmat Hfit.
  destruct (filled_ok seq_a seq_b matrix gap_extend Hmat Hfit) as [st [E I]].
  exists st. split; [exact E|]. split; [apply (fi_size _ _ _ _ _ _ _ I)|].
  split; [|split].
  - intros i j Hi Hj B. apply (fi_zero _ _ _ _ _ _ _ I); auto. lia.
  - intros i j Hi Hj. apply (fi_rec _ _ _ _ _ _ _ I); auto. unfold lexle. lia.
  - intros i j Hi Hj. apply (fi_val _ _ _ _ _ _ _ I); auto.
Qed.

Lemma filled_matrix_witness :
  exists st, filled sample_a sample_b identity_matrix fminus_one = Ok st /\
    cellv sample_b (H st) 0 3 = fzero /\
    cellv sample_b (H st) 1 1 =
      cell_value fminus_one (cellv sample_b (H st) 0 0) (cellv sample_b (H st) 0 1)
                 (cellv sample_b (H st) 1 0) (smatch sample_a sample_b identity_matrix 1 1).
Proof.
  destruct (filled_matrix sample_a sample_b identity_matrix fminus_one)
    as [st [E [_ [B [R _]]]]].
  - reflexivity.
  - vm_compute. discriminate.
  - exists st. split; [exact E|]. split.
    + apply B; cbn; lia.
    + apply (R 1 1); cbn; lia.
Defined.

(** ** The shape of the traceback *)

(** The entries of an index list that are not gaps. *)
Definition chars (l : list Z) : list Z := filter (fun a => 0 <=? a) l.

(** [hi - 1, hi - 2, ..., lo] *)
Definition down (hi lo : Z) : list Z :=
  map (fun k => hi - 1 - Z.of_nat k) (seq 0 (Z.to_nat (hi - lo))).

Lemma down_nil (lo : Z) : down lo lo = [].
Proof. unfold down. now rewrite Z.sub_diag. Qed.

Lemma down_cons (hi lo : Z) : lo < hi -> down hi lo = (hi - 1) :: down (hi - 1) lo.
Proof.
  intros H. unfold down.
  replace (Z.to_nat (hi - lo)) with (S (Z.to_nat (hi - 1 - lo))) by lia.
  cbn [seq map]. f_equal; [lia|].
  rewrite <- seq_shift, map_map. apply map_ext. intros k. lia.
Qed.

Section Shape.
Variables (seq_a seq_b : list Z) (matrix : list float) (gap_extend : float).
Variable st : fill_state.
Hypothesis Hmat : hsize matrix = 1024.
Hypothesis Hfit : fits (len_of seq_a) (len_of seq_b).
Hypothesis I : fill_inv seq_a seq_b matrix gap_extend st (len_of seq_a) (len_of seq_b).

Lemma traceback_shape (fuel : nat) (i j : Z) (oa ob : list Z) :
  0 <= i <= len_of seq_a -> 0 <= j <= len_of seq_b -> (Z.to_nat (i + j) < fuel)%nat ->
  exists ca cb i0 j0,
    traceback seq_a seq_b matrix gap_extend fuel (len_of seq_b) (H st) i j oa ob
      = Ok (oa ++ ca, ob ++ cb) /\
    0 <= i0 <= i /\ 0 <= j0 <= j /\
    chars ca = down i i0 /\ chars cb = down j j0 /\
    cellv seq_b (H st) i0 j0 = fzero /\
    (0 < i -> 0 < j -> fpos (cellv seq_b (H st) i j) -> ca <> []).
Proof.
  assert (M0 : 0 <= len_of seq_a) by (unfold len_of; lia).
  assert (N0 : 0 <= len_of seq_b) by (unfold len_of; lia).
  revert i j oa ob. induction fuel as [|fuel IH]; intros i j oa ob Hi Hj Hf; [lia|].
  assert (Stop : cellv seq_b (H st) i j = fzero ->
            exists ca cb i0 j0, Ok (oa, ob) = Ok (oa ++ ca, ob ++ cb) /\
              0 <= i0 <= i /\ 0 <= j0 <= j /\
              chars ca = down i i0 /\ chars cb = down j j0 /\
              cellv seq_b (H st) i0 j0 = fzero /\
              (0 < i -> 0 < j -> fpos (cellv seq_b (H st) i j) -> ca <> [])).
  { intros E. exists [], [], i, j. rewrite !app_nil_r, !down_nil.
    split; [reflexivity|]. split; [lia|]. split; [lia|]. split; [reflexivity|].
    split; [reflexivity|]. split; [exact E|].
    intros _ _ P. rewrite E in P. now apply fzero_not_pos in P. }
  cbn [traceback].
  destruct (Z.ltb_spec 0 i) as [Pi|Pi]; destruct (Z.ltb_spec 0 j) as [Pj|Pj];
    cbn [andb]; try (apply Stop; apply (fi_zero _ _ _ _ _ _ _ I); auto; lia).
  rewrite (idx_ok _ _ M0 N0 Hfit i j) by lia. cbn [bind].
  rewrite hget_ok by (rewrite (fi_size _ _ _ _ _ _ _ I); apply idx_bound; lia).
  cbn [bind].
  change (hat (H st) (i * (len_of seq_b + 1) + j)) with (cellv seq_b (H st) i j).
  pose proof (fi_val _ _ _ _ _ _ _ I i j Hi Hj) as V.
  destruct (fgt (cellv seq_b (H st) i j) fzero) eqn:G.
  2:{ apply Stop. destruct V as [V|V]; [exact V|]. unfold fpos in V. congruence. }
  rewrite (idx_ok _ _ M0 N0 Hfit (i - 1) (j - 1)) by lia. cbn [bind].
  rewrite hget_ok by (rewrite (fi_size _ _ _ _ _ _ _ I); apply idx_bound; lia).
  cbn [bind].
  rewrite (idx_ok _ _ M0 N0 Hfit (i - 1) j) by lia. cbn [bind].
  rewrite hget_ok by (rewrite (fi_size _ _ _ _ _ _ _ I); apply idx_bound; lia).
  cbn [bind].
  rewrite (score_match_at_ok _ _ _ Hmat) by lia. cbn [bind].
  assert (C1 : forall a l, 0 <= a -> chars (a :: l) = a :: chars l).
  { intros a l Ha. unfold chars. cbn [filter].
    destruct (Z.leb_spec 0 a); [reflexivity|lia]. }
  assert (C2 : forall l, chars (-1 :: l) = chars l) by reflexivity.
  match goal with |- context [if ?c1 then _ else if ?c2 then _ else _] =>
    destruct c1; [|destruct c2] end.
  - destruct (IH (i - 1) (j - 1) (oa ++ [i - 1]) (ob ++ [j - 1]))
      as [ca [cb [i0 [j0 [T [Ri [Rj [Ca [Cb [Z0 _]]]]]]]]]]; try lia.
    exists ((i - 1) :: ca), ((j - 1) :: cb), i0, j0.
    rewrite T, <- !app_assoc. split; [reflexivity|]. split; [lia|]. split; [lia|].
    rewrite !C1 by lia. rewrite Ca, Cb, <- !down_cons by lia.
    split; [reflexivity|]. split; [reflexivity|]. split; [exact Z0|]. discriminate.
  - destruct (IH (i - 1) j (oa ++ [i - 1]) (ob ++ [-1]))
      as [ca [cb [i0 [j0 [T [Ri [Rj [Ca [Cb [Z0 _]]]]]]]]]]; try lia.
    exists ((i - 1) :: ca), (-1 :: cb), i0, j0.
    rewrite T, <- !app_assoc. split; [reflexivity|]. split; [lia|]. split; [lia|].
    rewrite C1 by lia. rewrite C2, Ca, Cb, <- down_cons by lia.
    split; [reflexivity|]. split; [reflexivity|]. split; [exact Z0|]. discriminate.
  - destruct (IH i (j - 1) (oa ++ [-1]) (ob ++ [j - 1]))
      as [ca [cb [i0 [j0 [T [Ri [Rj [Ca [Cb [Z0 _]]]]]]]]]]; try lia.
    exists (-1 :: ca), ((j - 1) :: cb), i0, j0.
    rewrite T, <- !app_assoc. split; [reflexivity|]. split; [lia|]. split; [lia|].
    rewrite C2. rewrite C1 by lia. rewrite Ca, Cb, <- down_cons by lia.
    split; [reflexivity|]. split; [reflexivity|]. split; [exact Z0|]. discriminate.
Qed.
End Shape.

(** X13.  When the score reported is above zero, the alignment is not
    empty, it neither skips nor repeats a character: the entries of
    [out_indices_a] that are not [-1] are [max_i - 1, max_i - 2, ...]
    down to some [i0], those of [out_indices_b] are [max_j - 1,
    max_j - 2, ...] down to some [j0], and the traceback stops at the
    cell [(i0, j0)], whose value is [0.0f]. *)
Theorem alignment_contiguous (seq_a seq_b : list Z) (matrix : list float)
    (gap_extend : float) :
  hsize matrix = 1024 -> fits (len_of seq_a) (len_of seq_b) ->
  exists st r,
    filled seq_a seq_b matrix gap_extend = Ok st /\
    align_local_core seq_a seq_b matrix gap_extend true = Ok r /\
    (fpos (max_score_val st) ->
     exists ia ib i0 j0,
       r = Aligned (max_score_val st) (Z.of_nat (length ia)) ia ib /\
       ia <> [] /\ 0 <= i0 <= max_i st /\ 0 <= j0 <= max_j st /\
       chars ia = down (max_i st) i0 /\ chars ib = down (max_j st) j0 /\
       cellv seq_b (H st) i0 j0 = fzero).
Proof.
  intros Hmat Hfit.
  destruct (align_run seq_a seq_b matrix gap_extend Hmat Hfit) as [st [E [I A]]].
  destruct (fi_best_range _ _ _ _ _ _ _ I) as [Ri Rj].
  destruct (traceback_shape seq_a seq_b matrix gap_extend st Hmat Hfit I
              (S (Z.to_nat (max_i st + max_j st))) (max_i st) (max_j st) [] [] Ri Rj)
    as [ia [ib [i0 [j0 [T [Bi [Bj [Ca [Cb [Z0 Ne]]]]]]]]]]; [lia|].
  cbn [app] in T. rewrite T in A. cbn [bind fst snd] in A.
  exists st.
  exists (if fle (max_score_val st) fzero then Aligned (max_score_val st) 0 [] []
          else Aligned (max_score_val st) (Z.of_nat (length ia)) ia ib).
  split; [exact E|].
  split; [rewrite A; now destruct (fle (max_score_val st) fzero)|].
  intros P. rewrite (fpos_not_le _ P). exists ia, ib, i0, j0.
  split; [reflexivity|].
  split.
  { destruct (fi_best_kind _ _ _ _ _ _ _ I) as [[_ [_ Ez]]|[K1 [K2 _]]].
    - rewrite Ez in P. now apply fzero_not_pos in P.
    - apply Ne; try lia. now rewrite (fi_best _ _ _ _ _ _ _ I). }
  auto.
Qed.

Lemma alignment_contiguous_witness :
  exists ia ib i0 j0,
    align_local_core sample_a sample_b identity_matrix fminus_one true
      = Ok (Aligned twelve 9 ia ib) /\
    chars ia = down 8 i0 /\ chars ib = down 8 j0.
Proof.
  destruct (alignment_contiguous sample_a sample_b identity_matrix fminus_one)
    as [st [r [E [A P]]]].
  - reflexivity.
  - vm_compute. discriminate.
  - assert (M : (max_score_val st, max_i st, max_j st) = (twelve, 8, 8)).
    { vm_compute in E. injection E as <-. reflexivity. }
    injection M as Ms Mi Mj.
    assert (A' : align_local_core sample_a sample_b identity_matrix fminus_one true
              = Ok (Aligned twelve 9 [7; 6; 5; 4; 3; 2; 1; -1; 0]
                            [7; -1; 6; 5; 4; 3; 2; 1; 0])) by (vm_compute; reflexivity).
    rewrite A' in A. injection A as <-.
    destruct P as [ia [ib [i0 [j0 [R [_ [_ [_ [Ca [Cb _]]]]]]]]]].
    { rewrite Ms. reflexivity. }
    rewrite Mi in Ca. rewrite Mj in Cb. injection R as _ _ <- <-.
    eexists _, _, i0, j0. split; [exact A'|]. split; [exact Ca|exact Cb].
Defined.

(** X14.  The error indicator cannot be mistaken for a score: when
    [calloc] fails the call writes [-1.0f] to [*out_score] and nothing
    else; when it succeeds the score written is [0.0f] or above it. *)
Theorem error_indicator (seq_a seq_b : list Z) (matrix : list float)
    (gap_extend : float) :
  hsize matrix = 1024 -> fits (len_of seq_a) (len_of seq_b) ->
  align_local_core seq_a seq_b matrix gap_extend false = Ok (AllocFailed fminus_one) /\
  exists s len ia ib,
    align_local_core seq_a seq_b matrix gap_extend true = Ok (Aligned s len ia ib) /\
    (s = fzero \/ fgt s fzero = true) /\ s <> fminus_one.
Proof.
  intros Hmat Hfit. split.
  - assert (M0 : 0 <= len_of seq_a) by (unfold len_of; lia).
    assert (N0 : 0 <= len_of seq_b) by (unfold len_of; lia).
    unfold align_local_core. cbv zeta. unfold fits in Hfit.
    assert (B1 : len_of seq_a + 1 <= (len_of seq_a + 1) * (len_of seq_b + 1)) by nia.
    assert (B2 : len_of seq_b + 1 <= (len_of seq_a + 1) * (len_of seq_b + 1)) by nia.
    rewrite !int_ok_ok by lia. reflexivity.
  - destruct (align_run seq_a seq_b matrix gap_extend Hmat Hfit) as [st [E [I A]]].
    destruct (traceback_from_best seq_a seq_b matrix gap_extend st Hmat Hfit I)
      as [ia [ib [T _]]].
    rewrite T in A. cbn [bind fst snd] in A.
    pose proof (fi_max_val _ _ _ _ _ _ _ I) as V.
    assert (Ne : max_score_val st <> fminus_one).
    { destruct V as [V|V]; rewrite V || (intros Q; rewrite Q in V); discriminate. }
    destruct (fle (max_score_val st) fzero).
    + exists (max_score_val st), 0, [], []. auto.
    + exists (max_score_val st), (Z.of_nat (length ia)), ia, ib. auto.
Qed.

Lemma error_indicator_witness :
  align_local_core sample_a sample_b identity_matrix fminus_one false
    = Ok (AllocFailed fminus_one) /\
  exists s len ia ib,
    align_local_core sample_a sample_b identity_matrix fminus_one true
      = Ok (Aligned s len ia ib) /\ s <> fminus_one.
Proof.
  destruct (error_indicator sample_a sample_b identity_matrix fminus_one)
    as [F [s [len [ia [ib [A [_ Ne]]]]]]].
  - reflexivity.
  - vm_compute. discriminate.
  - split; [exact F|]. exists s, len, ia, ib. auto.
Defined.

(** * The driver: reading the input file *)

(** Text is a [string] of 8-bit characters.  What the driver prints on
    the console is not modelled. *)

(** ** [std::getline] *)

(** All the calls [std::getline(in, x, delim)] on a stream that holds
    [s], until one fails: a call takes the characters up to the next
    [delim], which it drops, or up to the end; it fails when it can
    take nothing at all.  [cur] is what the running call has taken. *)
Fixpoint getline_all (delim : Ascii.ascii) (s cur : String.string)
  : list String.string :=
  match s with
  | String.EmptyString =>
      match cur with
      | String.EmptyString => []
      | _ => [cur]
      end
  | String.String c r =>
      if Ascii.eqb c delim then cur :: getline_all delim r ""%string
      else getline_all delim r (String.append cur (String.String c ""%string))
  end.

(** The fields of a line, as the inner loop of [main] collects them in
    [parts], and the lines of a file. *)
Definition fields_of (line : String.string) : list String.string :=
  getline_all ","%char line ""%string.

Definition lines_of (content : String.string) : list String.string :=
  getline_all (Ascii.ascii_of_nat 10) content ""%string.

(** [line.substr(0, line.find(','))], [None] when [find] returns
    [npos]. *)
Fixpoint before_comma (s pre : String.string) : option String.string :=
  match s with
  | String.EmptyString => None
  | String.String c r =>
      if Ascii.eqb c ","%char then Some pre
      else before_comma r (String.append pre (String.String c ""%string))
  end.

(** ** [std::stoi] *)

(** [isspace] in the C locale. *)
Definition is_space (c : Ascii.ascii) : bool :=
  let k := Z.of_nat (Ascii.nat_of_ascii c) in
  (k =? 32) || ((9 <=? k) && (k <=? 13)).

Definition digit_of (c : Ascii.ascii) : option Z :=
  let k := Z.of_nat (Ascii.nat_of_ascii c) in
  if (48 <=? k) && (k <=? 57) then Some (k - 48) else None.

Fixpoint skip_spaces (s : String.string) : String.string :=
  match s with
  | String.String c r => if is_space c then skip_spaces r else s
  | String.EmptyString => s
  end.

(** The value of the longest prefix of digits, [acc] being the value
    of the digits already read. *)
Fixpoint digits (s : String.string) (acc : Z) : Z :=
  match s with
  | String.String c r =>
      match digit_of c with
      | Some d => digits r (10 * acc + d)
      | None => acc
      end
  | String.EmptyString => acc
  end.

Definition starts_with_digit (s : String.string) : bool :=
  match s with
  | String.String c _ =>
      match digit_of c with
      | Some _ => true
      | None => false
      end
  | String.EmptyString => false
  end.

(** [std::stoi(s)]: white space, an optional sign, then digits; what
    follows the digits is ignored.  [None] stands for the exception it
    throws, [std::invalid_argument] when there is no digit and
    [std::out_of_range] when the number is not an [int]. *)
Definition stoi (s : String.string) : option Z :=
  let s1 := skip_spaces s in
  let signed :=
    match s1 with
    | String.String c r =>
        if Ascii.eqb c "-"%char then (true, r)
        else if Ascii.eqb c "+"%char then (false, r)
        else (false, s1)
    | String.EmptyString => (false, s1)
    end in
  if starts_with_digit (snd signed) then
    let v := digits (snd signed) 0 in
    let v := if fst signed then - v else v in
    if (INT_MIN <=? v) && (v <=? INT_MAX) then Some v else None
  else None.

(** ** The loops of [main] and of [scan_for_max_node_id] *)

(** The [try] block of [main] up to the five [std::stoi]; [None] when
    the record is skipped. *)
Definition parse_record (line : String.string) : option record :=
  let parts := fields_of line in
  if (length parts <? 5)%nat then None
  else
    match stoi (nth 0 parts ""%string), stoi (nth 1 parts ""%string),
          stoi (nth 2 parts ""%string), stoi (nth 3 parts ""%string),
          stoi (nth 4 parts ""%string) with
    | Some q, Some g, Some s, Some l, Some n => Some (mkRecord q g s l n)
    | _, _, _, _, _ => None
    end.

(** One iteration of the [while] loop of [main]. *)
Definition process_line (t : MaxSpanningTree) (line : String.string)
  : res MaxSpanningTree :=
  match parse_record line with
  | None => Ok t
  | Some r => process_record (enough (num_nodes t)) t r
  end.

Fixpoint process_lines (t : MaxSpanningTree) (lines : list String.string)
  : res MaxSpanningTree :=
  match lines with
  | [] => Ok t
  | line :: rest => t' <- process_line t line ;; process_lines t' rest
  end.

(** [main] from the construction of the builder to the end of the
    record loop, for an input file that could be opened and holds
    [content]: [None] when there is no header line, in which case
    [main] returns before any output is written. *)
Definition load (n : Z) (content : String.string) : res (option MaxSpanningTree) :=
  t <- new_tree n ;;
  match lines_of content with
  | [] => Ok None
  | _ :: data => t' <- process_lines t data ;; Ok (Some t')
  end.

(** The body of the loop of [scan_for_max_node_id]: the id of a line,
    if it has a comma and [std::stoi] does not throw. *)
Definition scan_line (line : String.string) : option Z :=
  match before_comma line ""%string with
  | Some p => stoi p
  | None => None
  end.

(** [scan_for_max_node_id]; [file] is [None] when the file cannot be
    opened. *)
Definition scan_for_max_node_id (file : option String.string) : Z :=
  match file with
  | None => 0
  | Some content =>
      match lines_of content with
      | [] => 0
      | _ :: data =>
          fold_left
            (fun max_id line =>
               match scan_line line with
               | Some id => if max_id <? id then id else max_id
               | None => max_id
               end)
            data 0
      end
  end.

(** ** Fields and commas *)

Fixpoint count_char (d : Ascii.ascii) (s : String.string) : nat :=
  match s with
  | String.EmptyString => O
  | String.String c r => if Ascii.eqb c d then S (count_char d r) else count_char d r
  end.

Lemma getline_all_length (d : Ascii.ascii) (s cur : String.string) :
  (count_char d s <= length (getline_all d s cur) <= S (count_char d s))%nat.
Proof.
  revert cur. induction s as [|c r IH]; intros cur; cbn [getline_all count_char].
  - destruct cur; cbn; lia.
  - destruct (Ascii.eqb c d).
    + cbn [length]. specialize (IH ""%string). lia.
    + apply IH.
Qed.

Lemma before_comma_first (s pre p : String.string) :
  before_comma s pre = Some p -> exists rest, getline_all ","%char s pre = p :: rest.
Proof.
  revert pre. induction s as [|c r IH]; intros pre; cbn [before_comma getline_all].
  - discriminate.
  - destruct (Ascii.eqb c ","%char).
    + intros E. inversion E. eexists. reflexivity.
    + apply IH.
Qed.

Lemma before_comma_none (s pre : String.string) :
  before_comma s pre = None -> (length (getline_all ","%char s pre) <= 1)%nat.
Proof.
  revert pre. induction s as [|c r IH]; intros pre; cbn [before_comma getline_all].
  - intros _. destruct pre; cbn; lia.
  - destruct (Ascii.eqb c ","%char); [discriminate|apply IH].
Qed.

(** ** What [std::stoi] accepts *)

Lemma skip_spaces_idem (s : String.string) : skip_spaces (skip_spaces s) = skip_spaces s.
Proof.
  induction s as [|c r IH]; cbn [skip_spaces]; [reflexivity|].
  destruct (is_space c) eqn:E; [exact IH|]. cbn [skip_spaces]. now rewrite E.
Qed.

Definition all_spaces (s : String.string) : Prop :=
  forall c, In c (String.list_ascii_of_string s) -> is_space c = true.

Lemma skip_spaces_app (ws s : String.string) :
  all_spaces ws -> skip_spaces (String.append ws s) = skip_spaces s.
Proof.
  induction ws as [|c r IH]; intros A; cbn [String.append skip_spaces]; [reflexivity|].
  rewrite (A c) by (cbn; now left). apply IH.
  intros c' Hc'. apply A. cbn. now right.
Qed.

Lemma digits_app (s junk : String.string) (acc : Z) :
  starts_with_digit junk = false ->
  digits (String.append s junk) acc = digits s acc.
Proof.
  intros J. revert acc. induction s as [|c r IH]; intros acc; cbn [String.append digits].
  - destruct junk as [|c r]; [reflexivity|]. cbn in *.
    destruct (digit_of c); [discriminate|reflexivity].
  - destruct (digit_of c); [apply IH|reflexivity].
Qed.

Lemma starts_with_digit_app (s junk : String.string) :
  starts_with_digit s = true -> starts_with_digit (String.append s junk) = true.
Proof. destruct s as [|c r]; [discriminate|]. cbn. auto. Qed.

(** X15.  [std::stoi] as the driver uses it is lenient: white space in
    front of a field and any text behind its digits are ignored.  If a
    field parses to [v], then so does the field with white space put in
    front and with text that does not start with a digit put behind;
    and [v] is an [int]. *)
Theorem stoi_lenient (ws s junk : String.string) (v : Z) :
  all_spaces ws -> starts_with_digit junk = false -> stoi s = Some v ->
  stoi (String.append ws (String.append s junk)) = Some v /\
  INT_MIN <= v <= INT_MAX.
Proof.
  intros W J E. unfold stoi in *. rewrite (skip_spaces_app ws _ W).
  assert (K : skip_spaces (String.append s junk)
              = String.append (skip_spaces s) junk \/ skip_spaces s = ""%string).
  { clear E. induction s as [|c r IH]; cbn [String.append skip_spaces]; [now right|].
    destruct (is_space c); [exact IH|now left]. }
  destruct K as [K|K].
  2:{ rewrite K in E. cbn in E. discriminate. }
  rewrite K. cbv zeta in *.
  destruct (skip_spaces s) as [|c r] eqn:Es; [cbn in E; discriminate|].
  cbn [String.append].
  assert (G : forall (neg : bool) (body : String.string),
            (if starts_with_digit body then
               if (INT_MIN <=? (if neg then - digits body 0 else digits body 0)) &&
                  ((if neg then - digits body 0 else digits body 0) <=? INT_MAX)
               then Some (if neg then - digits body 0 else digits body 0) else None
             else None) = Some v ->
            (if starts_with_digit (String.append body junk) then
               if (INT_MIN <=? (if neg then - digits (String.append body junk) 0
                                else digits (String.append body junk) 0)) &&
                  ((if neg then - digits (String.append body junk) 0
                    else digits (String.append body junk) 0) <=? INT_MAX)
               then Some (if neg then - digits (String.append body junk) 0
                          else digits (String.append body junk) 0) else None
             else None) = Some v /\ INT_MIN <= v <= INT_MAX).
  { intros neg body Q. destruct (starts_with_digit body) eqn:Sd; [|discriminate].
    rewrite (starts_with_digit_app body junk Sd), (digits_app body junk 0 J).
    split; [exact Q|].
    destruct ((INT_MIN <=? (if neg then - digits body 0 else digits body 0)) &&
              ((if neg then - digits body 0 else digits body 0) <=? INT_MAX)) eqn:B;
      [|discriminate].
    inversion Q. subst v. apply andb_true_iff in B. lia. }
  destruct (Ascii.eqb c "-"%char); [apply (G true r E)|].
  destruct (Ascii.eqb c "+"%char); [apply (G false r E)|].
  apply (G false (String.String c r) E).
Qed.

Lemma stoi_lenient_witness :
  stoi " -12.5abc"%string = Some (-12) /\ INT_MIN <= -12 <= INT_MAX.
Proof.
  apply (stoi_lenient " "%string "-12"%string ".5abc"%string (-12)).
  - intros c Hc. cbn in Hc. destruct Hc as [<-|[]]. reflexivity.
  - reflexivity.
  - reflexivity.
Defined.

(** X16.  A line with fewer than four commas, or one of whose first
    five fields [std::stoi] refuses, leaves the builder as it is:
    [add_link] is not called and no counter moves. *)
Theorem malformed_line_skipped (t : MaxSpanningTree) (line : String.string) :
  (count_char ","%char line < 4)%nat \/
  (exists k, (k < 5)%nat /\ stoi (nth k (fields_of line) ""%string) = None) ->
  process_line t line = Ok t.
Proof.
  intros M. unfold process_line.
  assert (P : parse_record line = None); [|now rewrite P].
  unfold parse_record. cbv zeta.
  destruct (Nat.ltb_spec (length (fields_of line)) 5) as [L|L]; [reflexivity|].
  destruct M as [M|[k [Hk M]]].
  - pose proof (getline_all_length ","%char line ""%string) as B.
    unfold fields_of in L. exfalso. lia.
  - destruct k as [|[|[|[|[|k]]]]]; try lia; rewrite M;
      repeat match goal with |- context [match ?x with Some _ => _ | None => _ end] =>
        destruct x end; reflexivity.
Qed.

Lemma malformed_line_skipped_witness :
  exists t, new_tree 5 = Ok t /\ process_line t "1,2,x,0,0"%string = Ok t.
Proof.
  eexists. split; [reflexivity|].
  apply malformed_line_skipped. right. exists 2%nat. split; [lia|reflexivity].
Defined.

(** ** The driver feeds the builder the records in range *)

(** The call a line leads to, if any. *)
Definition call_of (n : Z) (line : String.string) : option link :=
  match parse_record line with
  | Some r => record_call n r
  | None => None
  end.

Definition calls_of (n : Z) (lines : list String.string) : list link :=
  flat_map (fun line => match call_of n line with Some e => [e] | None => [] end) lines.

(** No record has a negative id. *)
Definition ids_nonnegative (lines : list String.string) : Prop :=
  forall line r, In line lines -> parse_record line = Some r ->
    0 <= query r /\ 0 <= target r.

Lemma calls_of_length (n : Z) (lines : list String.string) :
  (length (calls_of n lines) <= length lines)%nat.
Proof.
  unfold calls_of. induction lines as [|line rest IH]; cbn [flat_map length]; [lia|].
  rewrite length_app. destruct (call_of n line); cbn [length]; lia.
Qed.

Lemma calls_of_raw (n : Z) (lines : list String.string) (e : link) :
  In e (calls_of n lines) -> link_raw_score e = link_score e.
Proof.
  unfold calls_of. rewrite in_flat_map. intros [line [_ He]].
  unfold call_of, record_call in He.
  destruct (parse_record line) as [r|]; [|destruct He].
  destruct ((query r >=? n) || (target r >=? n)); [destruct He|].
  destruct He as [<-|[]]. reflexivity.
Qed.

Lemma calls_of_range (n : Z) (lines : list String.string) :
  ids_nonnegative lines -> Forall (in_range n) (calls_of n lines).
Proof.
  intros Nn. apply Forall_forall. intros e He.
  unfold calls_of in He. rewrite in_flat_map in He. destruct He as [line [Hl He]].
  unfold call_of, record_call in He.
  destruct (parse_record line) as [r|] eqn:P; [|destruct He].
  destruct (Nn line r Hl P) as [Q G].
  destruct (Z.geb_spec (query r) n); [destruct He|].
  destruct (Z.geb_spec (target r) n); [destruct He|].
  destruct He as [<-|[]]. unfold in_range. cbn. lia.
Qed.

Lemma process_lines_add_links (n : Z) (lines : list String.string) (h : list link)
    (t : MaxSpanningTree) :
  inv n h t -> ids_nonnegative lines ->
  Z.of_nat (length h) + Z.of_nat (length lines) <= INT_MAX ->
  process_lines t lines = add_links t (calls_of n lines) /\
  exists t', add_links t (calls_of n lines) = Ok t'.
Proof.
  revert h t. induction lines as [|line rest IH]; intros h t I Nn L.
  - split; [reflexivity|]. exists t. reflexivity.
  - cbn [length] in L.
    assert (Nn' : ids_nonnegative rest).
    { intros l r Hl. apply Nn. now right. }
    pose proof (wf_num n t (inv_wf n h t I)) as En.
    cbn [process_lines]. unfold process_line, calls_of. cbn [flat_map].
    fold (calls_of n rest). unfold call_of.
    destruct (parse_record line) as [r|] eqn:P; cbn [bind app].
    2:{ apply (IH h t I Nn'). lia. }
    unfold process_record. rewrite En.
    destruct (record_call n r) as [e|] eqn:C; cbn [bind app].
    2:{ apply (IH h t I Nn'). lia. }
    assert (Re : in_range n e).
    { assert (F : Forall (in_range n) (calls_of n [line])).
      { apply calls_of_range. intros l r0 [<-|[]] Q. apply (Nn line r0); [now left|auto]. }
      unfold calls_of, call_of in F. cbn [flat_map] in F. rewrite P, C in F.
      now inversion F. }
    destruct (offer_step n h t e I Re) as [t1 [b [E [I1 _]]]]; [lia|].
    cbn [add_links]. rewrite En, E. cbn [bind fst].
    apply (IH (h ++ [e]) t1 I1 Nn'). rewrite length_app. cbn. lia.
Qed.

(** X17.  [main] on an input file without negative ids builds what the
    builder gives when fed, in order, the records in range: without a
    header line nothing is processed and [main] returns before writing
    its output; otherwise every line after the header that has five
    fields accepted by [std::stoi] and both ids below [num_nodes] is
    one call of [add_link], no call faults, [links_processed] is the
    number of these lines, and in the arrays written out [raw_scores]
    equals [scores] at every node. *)
Theorem driver_builds (n : Z) (content : String.string) :
  0 <= n <= INT_MAX -> ids_nonnegative (tl (lines_of content)) ->
  Z.of_nat (length (lines_of content)) <= INT_MAX ->
  match lines_of content with
  | [] => load n content = Ok None
  | _ :: data =>
      exists t, load n content = Ok (Some t) /\ build n (calls_of n data) = Ok t /\
        links_processed t = Z.of_nat (length (calls_of n data)) /\
        forall v, 0 <= v < n -> at_ (raw_scores t) v = at_ (scores t) v
  end.
Proof.
  intros Hn Nn L. unfold load.
  destruct (new_tree_wf n Hn) as [t0 [E0 W0]]. rewrite E0. cbn [bind].
  destruct (lines_of content) as [|header data]; [reflexivity|].
  cbn [tl length] in *.
  assert (I0 : inv n [] t0).
  { constructor; auto.
    - unfold new_tree in E0. destruct (n <? 0); inversion E0. reflexivity.
    - unfold new_tree in E0. destruct (n <? 0); inversion E0. reflexivity.
    - intros e []. }
  destruct (process_lines_add_links n data [] t0 I0 Nn) as [Ep [t Ea]]; [cbn; lia|].
  exists t. rewrite Ep, Ea. cbn [bind]. split; [reflexivity|].
  assert (Eb : build n (calls_of n data) = Ok t).
  { unfold build. rewrite E0. cbn [bind]. exact Ea. }
  split; [exact Eb|].
  pose proof (calls_of_length n data) as Lc.
  destruct (build_provenance n (calls_of n data) Hn (calls_of_range n data Nn))
    as [t2 [E2 [I2 P2]]]; [lia|].
  rewrite Eb in E2. inversion E2. subst t2.
  split; [apply (inv_processed n _ t I2)|].
  intros v Hv. destruct (P2 v Hv) as [[_ A]|[e [He [_ [_ [_ A]]]]]];
    unfold attrs, sc in A; inversion A.
  - congruence.
  - pose proof (calls_of_raw n data e He). congruence.
Qed.

Lemma driver_builds_witness :
  exists t,
    load 5 (String.append "q,t,s,l,n"%string
             (String.String (Ascii.ascii_of_nat 10) "1,2,5,0,0"%string)) = Ok (Some t) /\
    links_processed t = 1 /\ at_ (raw_scores t) 1 = at_ (scores t) 1.
Proof.
  pose proof (driver_builds 5 (String.append "q,t,s,l,n"%string
             (String.String (Ascii.ascii_of_nat 10) "1,2,5,0,0"%string))) as D.
  cbn [lines_of] in D.
  assert (El : lines_of (String.append "q,t,s,l,n"%string
             (String.String (Ascii.ascii_of_nat 10) "1,2,5,0,0"%string))
          = ["q,t,s,l,n"%string; "1,2,5,0,0"%string]) by reflexivity.
  rewrite El in D.
  destruct D as [t [E [_ [Lp R]]]].
  - unfold INT_MAX. lia.
  - intros line r [<-|[]] P. vm_compute in P. inversion P. cbn. lia.
  - cbn. unfold INT_MAX. lia.
  - exists t. split; [exact E|]. split; [exact Lp|]. apply R. lia.
Defined.

(** ** [scan_for_max_node_id] *)

Lemma scan_fold_ge (data : list String.string) (m : Z) :
  m <= fold_left (fun max_id line =>
                    match scan_line line with
                    | Some id => if max_id <? id then id else max_id
                    | None => max_id
                    end) data m /\
  forall line id, In line data -> scan_line line = Some id ->
    id <= fold_left (fun max_id line =>
                       match scan_line line with
                       | Some id => if max_id <? id then id else max_id
                       | None => max_id
                       end) data m.
Proof.
  revert m. induction data as [|l0 data IH]; intros m; cbn [fold_left].
  - split; [lia|]. intros line id [].
  - set (m1 := match scan_line l0 with
               | Some id => if m <? id then id else m
               | None => m
               end).
    assert (M : m <= m1 /\ forall id, scan_line l0 = Some id -> id <= m1).
    { unfold m1. destruct (scan_line l0) as [id0|].
      - destruct (Z.ltb_spec m id0); split; try lia; intros id Q; inversion Q; lia.
      - split; [lia|]. intros id Q. discriminate. }
    destruct (IH m1) as [H1 H2]. split; [lia|].
    intros line id [<-|Hl] Q.
    + destruct M as [_ M]. specialize (M id Q). lia.
    + now apply (H2 line id).
Qed.

Lemma parse_record_scan (line : String.string) (r : record) :
  parse_record line = Some r -> scan_line line = Some (query r).
Proof.
  unfold parse_record, scan_line. cbv zeta.
  destruct (Nat.ltb_spec (length (fields_of line)) 5) as [L|L]; [discriminate|].
  destruct (before_comma line ""%string) as [p|] eqn:B.
  - destruct (before_comma_first line ""%string p B) as [rest Ef].
    unfold fields_of. rewrite Ef. cbn [nth].
    destruct (stoi p) as [q|]; [|discriminate].
    repeat match goal with |- context [match ?x with Some _ => _ | None => _ end] =>
      destruct x end; intros Q; inversion Q; reflexivity.
  - apply before_comma_none in B. unfold fields_of in L. lia.
Qed.

(** X18.  [scan_for_max_node_id] never returns a negative number, and
    it returns at least the query id of every record that the record
    loop of [main] will read from the same file: with the capacity
    [scan_for_max_node_id + 1] that [main] takes when [-n] is not
    given, no record is skipped because of its query id. *)
Theorem scan_covers_queries (content : String.string) :
  0 <= scan_for_max_node_id (Some content) /\
  forall line r, In line (tl (lines_of content)) -> parse_record line = Some r ->
    query r <= scan_for_max_node_id (Some content).
Proof.
  unfold scan_for_max_node_id.
  destruct (lines_of content) as [|header data]; cbn [tl].
  - split; [lia|]. intros line r [].
  - destruct (scan_fold_ge data 0) as [H1 H2]. split; [exact H1|].
    intros line r Hl P. apply (H2 line); [exact Hl|]. now apply parse_record_scan.
Qed.
